(** * Strix pre-flight pipeline: configuration store, settings screen,
      interactive target collection and the run orchestrator.

    Shallow embedding of [strix/interface/config_manager.py],
    [strix/interface/menu.py] and [strix/interface/main.py].

    Python dictionaries are finite maps ([gmap string _]); [os.environ] is a
    [gmap string string]; a Python string is a [string]; [None] is [None].
    Functions that touch the file system thread the state of the
    [~/.strix/.env] file explicitly.  Code that terminates the interpreter
    ([sys.exit]) lives in a small writer/error monad whose log is the list of
    calls made to the external collaborators. *)

From Stdlib Require Import ZArith Ascii String.
From stdpp Require Import gmap strings list fin_maps pretty.

Open Scope string_scope.
Open Scope list_scope.
Open Scope stdpp_scope.

(** ** Python values *)

(** Truthiness of a Python [str]: every string but the empty one. *)
Definition truthy (s : string) : bool :=
  match s with
  | EmptyString => false
  | String _ _ => true
  end.

(** Truthiness of [str | None], as tested on the result of [os.getenv] or
    [dict.get] without a default. *)
Definition truthy_opt (o : option string) : bool :=
  match o with
  | Some s => truthy s
  | None => false
  end.

(** Python's [a or b] on [str | None] operands. *)
Definition py_or (a b : option string) : option string :=
  if truthy_opt a then a else b.

(** ASCII white space as [str.isspace] sees it: TAB, LF, VT, FF, CR, the four
    separators 0x1c-0x1f and the blank. *)
Definition isspace (c : ascii) : bool :=
  let n := nat_of_ascii c in
  (((9 <=? n) && (n <=? 13)) || ((28 <=? n) && (n <=? 32)))%nat.

Fixpoint lstrip (s : string) : string :=
  match s with
  | EmptyString => EmptyString
  | String c s' => if isspace c then lstrip s' else s
  end.

Fixpoint rstrip (s : string) : string :=
  match s with
  | EmptyString => EmptyString
  | String c s' =>
      match rstrip s' with
      | EmptyString => if isspace c then EmptyString else String c EmptyString
      | r => String c r
      end
  end.

(** [str.strip()] without argument. *)
Definition strip (s : string) : string := rstrip (lstrip s).

(** ** config_manager.py *)

Module ConfigManager.

(** The content of [~/.strix/.env] as python-dotenv parses it: a binding per
    key; a key bound to [None] stands for a line that names the key without
    [=].  [dotenv_values] reads the bindings, [set_key] rewrites the line of
    one key (or appends it) and leaves every other line alone.  The library
    is taken as a key/value store: a value is read back as it was written,
    its quoting, escaping and variable expansion being left out. *)
Abbreviation dotenv_file := (gmap string (option string)).

(** State of the backing store: [None] while [CONFIG_FILE] does not exist. *)
Abbreviation store := (option (gmap string (option string))).

Definition REQUIRED_KEYS : list string := ["STRIX_LLM"; "LLM_API_KEY"].
Definition OPTIONAL_KEYS : list string :=
  ["PERPLEXITY_API_KEY"; "LLM_API_BASE"; "OPENAI_API_BASE";
   "LITELLM_BASE_URL"; "OLLAMA_API_BASE"].

Definition dotenv_values (f : dotenv_file) : gmap string (option string) := f.

Definition set_key (f : dotenv_file) (key value : string) : dotenv_file :=
  <[key := Some value]> f.

(** [mkdir(parents=True, exist_ok=True)], then [touch] when the file is
    missing. *)
Definition ensure_config_dir (st : store) : dotenv_file :=
  match st with
  | Some f => f
  | None => ∅
  end.

(** [load_config]: the file exists once [ensure_config_dir] has run, so the
    early [return {}] is never taken; bindings to [None] are filtered out. *)
Definition load_config (st : store) : gmap string string * store :=
  let f := ensure_config_dir st in
  (omap id (dotenv_values f), Some f).

(** [save_config]: one [set_key] per item of the record, whatever its
    value. *)
Definition save_config (st : store) (config : gmap string string) : store :=
  let f := ensure_config_dir st in
  Some (map_fold (λ key value acc, set_key acc key value) f config).

Definition get_value (st : store) (key dflt : string) : string * store :=
  let '(config, st') := load_config st in
  (default dflt (config !! key), st').

Definition set_value (st : store) (key value : string) : store :=
  let '(config, st') := load_config st in
  save_config st' (<[key := value]> config).

Definition get_all_config (st : store) : gmap string string * store :=
  load_config st.

(** [update_config]: [dict.update] lets the entries of [updates] win. *)
Definition update_config (st : store) (updates : gmap string string) : store :=
  let '(config, st') := load_config st in
  save_config st' (updates ∪ config).

(** [apply_to_environment]: the loop body assigns [os.environ[key]] under
    the guard [if value]. *)
Definition apply_to_environment (st : store) (environ : gmap string string)
  : gmap string string * store :=
  let '(config, st') := load_config st in
  (map_fold (λ key value env, if truthy value then <[key := value]> env else env)
     environ config,
   st').

End ConfigManager.

(** ** Effects: calls to the collaborators, and [sys.exit] *)

(** A frame of the streaming pull: a decoded progress line, or the point at
    which the iteration raises [DockerException]. *)
Inductive PullFrame :=
| Line (line : string)
| RaiseDockerException (msg : string).

(** What is written to the console: one constructor per message or panel of
    the interface.  The configuration panel lists the missing required and
    the missing optional variables; the completion panel depends on the
    tracer through two booleans. *)
Inductive Output :=
| DockerNotInstalledPanel
| DockerUnavailablePanel
| PullBanner
| PullErrorPanel (exn : string)
| PullSuccess
| ConfigErrorPanel (missing_required missing_optional : list string)
| LLMErrorPanel
| CloneErrorPanel
| Traceback (exn : string)
| Cancelled
| InvalidTarget (target : string)
| UsageError (message : string)
| CompletionPanel (scan_completed results_saved : bool)
| ConfigSaved
| HelpMessage.

(** The calls that leave the process, in the order they are made. *)
Inductive Event :=
| EvWhich (program : string)
| EvDockerConnect
| EvImageExists (image : string)
| EvStatusOpen
| EvPullOpen (image : string)
| EvPullLine (line : string)
| EvCompletion (model : string) (api_key api_base : option string)
| EvClone (repo_url run_name : string) (dest_name : option string)
| EvRunCli
| EvRunTui
| EvConsole (out : Output).

(** How a computation ends: it returns, the interpreter exits with a status,
    or a prompt is still open when the scripted user input is used up. *)
Inductive Outcome (A : Type) :=
| Ret (a : A)
| Exit (code : Z)
| Blocked.
Arguments Ret {A} a.
Arguments Exit {A} code.
Arguments Blocked {A}.

Definition M (A : Type) : Type := (list Event * Outcome A)%type.

Definition ret {A} (a : A) : M A := ([], Ret a).

Definition bind {A B} (m : M A) (k : A → M B) : M B :=
  match m with
  | (tr, Ret a) => let '(tr', r) := k a in (tr ++ tr', r)
  | (tr, Exit code) => (tr, Exit code)
  | (tr, Blocked) => (tr, Blocked)
  end.

Definition emit (e : Event) : M unit := ([e], Ret tt).
Definition console_print (out : Output) : M unit := emit (EvConsole out).
Definition sys_exit {A} (code : Z) : M A := ([], Exit code).
Definition lift {A} (o : Outcome A) : M A := ([], o).

Definition trace {A} (m : M A) : list Event := fst m.
Definition outcome {A} (m : M A) : Outcome A := snd m.

(** Exit status of the interpreter when [m] is the whole program. *)
Definition exit_status (m : M unit) : option Z :=
  match outcome m with
  | Ret _ => Some 0%Z
  | Exit code => Some code
  | Blocked => None
  end.

Declare Scope py_scope.
Delimit Scope py_scope with py.
Notation "x <- m ; k" := (bind m (fun x => k))
  (at level 100, m at next level, right associativity,
   format "'[v' x  <-  m ; '/' k ']'") : py_scope.
Notation "m ;; k" := (bind m (fun _ => k))
  (at level 100, right associativity,
   format "'[v' m ;; '/' k ']'") : py_scope.

(** ** Data shared by menu.py and main.py *)

(** An entry of [args.targets_info]. *)
Record TargetInfo := {
  type_ : string;
  details : gmap string string;
  original : string
}.

(** The [argparse.Namespace] handed from stage to stage. *)
Record Namespace := {
  target : option (list string);
  targets_info : list TargetInfo;
  instruction : option string;
  run_name : option string;
  non_interactive : bool
}.

(** ** menu.py *)

Module Menu.

(** Keys bound by [BINDINGS_MENU]: [q] and [escape] both run
    [action_quit]. *)
Inductive MenuKey := KeyUp | KeyDown | KeyEnter | KeyQuit.

(** What the user does at an input prompt: submit the text of the field, or
    press [escape]. *)
Inductive UserAction :=
| Submit (text : string)
| Escape.

(** [InteractiveMenuApp]: [action_move_up], [action_move_down],
    [action_select] and [action_quit] over the reactive [selected_index];
    the result of [run_async] is the value passed to [exit]. *)
Fixpoint InteractiveMenuApp (n_options selected_index : nat) (keys : list MenuKey)
  : Outcome (option nat * list MenuKey) :=
  match keys with
  | [] => Blocked
  | KeyUp :: rest =>
      InteractiveMenuApp n_options
        (if (0 <? selected_index)%nat then selected_index - 1 else selected_index) rest
  | KeyDown :: rest =>
      InteractiveMenuApp n_options
        (if (selected_index <? n_options - 1)%nat then selected_index + 1
         else selected_index) rest
  | KeyEnter :: rest => Ret (Some (selected_index + 1), rest)
  | KeyQuit :: rest => Ret (None, rest)
  end.

(** [InputPromptApp.on_input_submitted]: [None] when the handler returns
    without calling [exit] (the prompt stays open), the submitted value
    otherwise. *)
Definition on_input_submitted (allow_empty : bool) (event_value : string)
  : option string :=
  let value := strip event_value in
  if negb (truthy value) && negb allow_empty then None else Some value.

(** [prompt_input_async]: runs one [InputPromptApp] to its [exit];
    [action_quit] exits with [None]. *)
Fixpoint prompt_input_async (allow_empty : bool) (script : list UserAction)
  : Outcome (option string * list UserAction) :=
  match script with
  | [] => Blocked
  | Escape :: rest => Ret (None, rest)
  | Submit text :: rest =>
      match on_input_submitted allow_empty text with
      | Some value => Ret (Some value, rest)
      | None => prompt_input_async allow_empty rest
      end
  end.

(** The [while True] loop of the multi-target scenarios (menu choices 4 and
    5), entered with [targets = []].  Each iteration opens one prompt with
    [allow_empty=True]; the recursion is on the scripted input, an action
    the prompt does not exit on being passed to the next iteration of the
    same prompt.  [multi_target_loop_unfold] below gives the loop body as
    it is written, in terms of [prompt_input_async]. *)
Fixpoint multi_target_loop (targets : list string) (script : list UserAction)
  : M (list string * list UserAction) :=
  match script with
  | [] => lift Blocked
  | Escape :: rest =>
      match targets with
      | _ :: _ => ret (targets, rest)
      | [] => (console_print Cancelled;; sys_exit 0)%py
      end
  | Submit text :: rest =>
      match on_input_submitted true text with
      | None => multi_target_loop targets rest
      | Some target =>
          if negb (truthy target) then
            match targets with
            | _ :: _ => ret (targets, rest)
            | [] => multi_target_loop targets rest
            end
          else multi_target_loop (targets ++ [target]) rest
      end
  end.

(** The two attributes of the [litellm] module the interface assigns. *)
Record LiteLLM := { api_key : option string; api_base : option string }.

(** What [ConfigurationApp.action_save] reads and writes. *)
Record AppState := {
  config_store : ConfigManager.store;
  os_environ : gmap string string;
  litellm : LiteLLM
}.

(** Text of the four [Input] widgets when the user saves. *)
Record ConfigInputs := {
  strix_llm : string;
  llm_api_key : string;
  perplexity_api_key : string;
  llm_api_base : string
}.

(** [self._inputs.items()], in the order [compose] fills the dictionary. *)
Definition _inputs (i : ConfigInputs) : list (string * string) :=
  [("STRIX_LLM", strix_llm i); ("LLM_API_KEY", llm_api_key i);
   ("PERPLEXITY_API_KEY", perplexity_api_key i); ("LLM_API_BASE", llm_api_base i)].

(** Body of the [for key, input_widget in self._inputs.items()] loop of
    [action_save]. *)
Definition save_step (acc : gmap string string * ConfigManager.store)
    (item : string * string) : gmap string string * ConfigManager.store :=
  let '(updates, st) := acc in
  let '(key, widget_value) := item in
  let value := strip widget_value in
  if truthy value then (<[key := value]> updates, st)
  else if bool_decide (key ∈ ["STRIX_LLM"; "LLM_API_KEY"]) then
    let '(existing, st') := ConfigManager.get_value st key EmptyString in
    if truthy existing then (<[key := existing]> updates, st') else (updates, st')
  else (updates, st).

Definition collect_updates (inputs : list (string * string)) (st : ConfigManager.store)
  : gmap string string * ConfigManager.store :=
  fold_left save_step inputs (∅, st).

(** [litellm.api_key] after a save. *)
Definition reapply_api_key (updates : gmap string string) (l : LiteLLM) : option string :=
  if truthy_opt (updates !! "LLM_API_KEY") then updates !! "LLM_API_KEY"
  else if bool_decide (is_Some (updates !! "LLM_API_KEY")) then None
  else api_key l.

(** [litellm.api_base] after a save: the [if]/[elif] chain over
    [updates.get]. *)
Definition reapply_api_base (updates : gmap string string) (l : LiteLLM) : option string :=
  if truthy_opt (updates !! "LLM_API_BASE") then updates !! "LLM_API_BASE"
  else if truthy_opt (updates !! "OPENAI_API_BASE") then updates !! "OPENAI_API_BASE"
  else if truthy_opt (updates !! "LITELLM_BASE_URL") then updates !! "LITELLM_BASE_URL"
  else if truthy_opt (updates !! "OLLAMA_API_BASE") then updates !! "OLLAMA_API_BASE"
  else if bool_decide (is_Some (updates !! "LLM_API_BASE"))
          || bool_decide (is_Some (updates !! "OPENAI_API_BASE")) then None
  else api_base l.

(** [ConfigurationApp.action_save], from the widgets' text to the state
    after [update_config], [apply_to_environment] and the [litellm]
    assignments; the app then prints the success message and exits with
    [True]. *)
Definition action_save_from (inputs : list (string * string)) (app : AppState) : AppState :=
  let '(updates, st1) := collect_updates inputs (config_store app) in
  let st2 := ConfigManager.update_config st1 updates in
  let '(env', st3) := ConfigManager.apply_to_environment st2 (os_environ app) in
  {| config_store := st3;
     os_environ := env';
     litellm := {| api_key := reapply_api_key updates (litellm app);
                   api_base := reapply_api_base updates (litellm app) |} |}.

Definition action_save (i : ConfigInputs) (app : AppState) : AppState :=
  action_save_from (_inputs i) app.

Local Open Scope py_scope.

(** [display_target] of the target-processing loops. *)
Definition display_target (target type_name : string) (target_dict : gmap string string)
  : string :=
  if String.eqb type_name "local_code"
  then default target (target_dict !! "target_path")
  else target.

(** The [for target in args.target] loop, which [parse_arguments] of
    [main.py] has as well.  [infer_target_type] of [strix.interface.utils]
    is a parameter, answering [None] where the helper raises [ValueError];
    [on_error] is the body of the [except ValueError] clause. *)
Fixpoint process_targets (infer_target_type : string → option (string * gmap string string))
    (on_error : string → M (list TargetInfo))
    (targets : list string) (acc : list TargetInfo) : M (list TargetInfo) :=
  match targets with
  | [] => ret acc
  | target :: rest =>
      match infer_target_type target with
      | Some (target_type, target_dict) =>
          process_targets infer_target_type on_error rest
            (acc ++ [{| type_ := target_type;
                        details := target_dict;
                        original := display_target target target_type target_dict |}])
      | None => on_error target
      end
  end.

(** The prompts of the single-target scenarios that follow the target
    prompt: the instruction of choice 6, the credentials and instructions
    of choice 7.  The catalogue has [instruction = None] for every entry,
    so [not args.instruction] holds. *)
Definition follow_up_prompts (choice : nat) (script : list UserAction)
  : Outcome (option string * list UserAction) :=
  if (choice =? 6)%nat then
    match prompt_input_async true script with
    | Ret (instruction_, rest) =>
        Ret (if truthy_opt instruction_ then instruction_ else None, rest)
    | Exit code => Exit code
    | Blocked => Blocked
    end
  else if (choice =? 7)%nat then
    match prompt_input_async true script with
    | Ret (credentials, rest) =>
        match prompt_input_async true rest with
        | Ret (instruction_text, rest') =>
            Ret (match credentials with
                 | Some (String c cs) =>
                     let first := "Test with credentials: " +:+ String c cs in
                     match instruction_text with
                     | Some (String i is_) => Some (first +:+ ". " +:+ String i is_ +:+ ".")
                     | _ => Some (first +:+ ".")
                     end
                 | _ => if truthy_opt instruction_text then instruction_text else None
                 end, rest')
        | Exit code => Exit code
        | Blocked => Blocked
        end
    | Exit code => Exit code
    | Blocked => Blocked
    end
  else Ret (None, script).

(** [show_interactive_menu_async] from the selected scenario on: the
    prompts for the target or targets, the follow-up prompts, the target
    loop and [assign_workspace_subdirs] (a parameter, like
    [infer_target_type]). *)
Definition scenario_flow
    (infer_target_type : string → option (string * gmap string string))
    (assign_workspace_subdirs : list TargetInfo → list TargetInfo)
    (choice : nat) (script : list UserAction) : M Namespace :=
  collected <-
    (if bool_decide (choice ∈ [4; 5]%nat) then
       r <- multi_target_loop [] script;
       ret (fst r, None)
     else
       r <- lift (prompt_input_async false script);
       match fst r with
       | Some (String c cs) =>
           f <- lift (follow_up_prompts choice (snd r));
           ret ([String c cs], fst f)
       | _ => console_print Cancelled;; sys_exit 0
       end);
  infos <- process_targets infer_target_type
             (λ target, console_print (InvalidTarget target);; sys_exit 1)
             (fst collected) [];
  ret {| target := Some (fst collected);
         targets_info := assign_workspace_subdirs infos;
         instruction := snd collected;
         run_name := None;
         non_interactive := false |}.

(** What the user does on the settings screen: edit the fields and save
    ([ctrl+s]), or leave with [escape]. *)
Inductive ConfigSession :=
| SaveConfig (i : ConfigInputs)
| QuitConfig.

(** [show_configuration_async]: [compose] reads the configuration (which
    creates the file when it is missing); the result is [True] after a
    save. *)
Definition show_configuration_async (session : ConfigSession) (app : AppState)
  : M (bool * AppState) :=
  let app := {| config_store := snd (ConfigManager.get_all_config (config_store app));
                os_environ := os_environ app;
                litellm := litellm app |} in
  match session with
  | SaveConfig i => console_print ConfigSaved;; ret (true, action_save i app)
  | QuitConfig => ret (false, app)
  end.

(** The [while True] loop around the menu: every iteration runs a new
    [InteractiveMenuApp] over the eight options, with the selection back at
    the first one; choice 8 opens the settings screen and returns to the
    menu.  The recursion is on the scripted keys;
    [menu_loop_unfold] gives the loop body in terms of
    [InteractiveMenuApp]. *)
Fixpoint menu_loop (selected_index : nat) (keys : list MenuKey)
    (sessions : list ConfigSession) (app : AppState) : M (option nat * AppState) :=
  match keys with
  | [] => lift Blocked
  | KeyUp :: rest =>
      menu_loop (if (0 <? selected_index)%nat then selected_index - 1 else selected_index)
        rest sessions app
  | KeyDown :: rest =>
      menu_loop (if (selected_index <? 8 - 1)%nat then selected_index + 1
                 else selected_index) rest sessions app
  | KeyQuit :: rest => ret (None, app)
  | KeyEnter :: rest =>
      if (selected_index + 1 =? 8)%nat then
        match sessions with
        | [] => lift Blocked
        | session :: sessions' =>
            r <- show_configuration_async session app;
            menu_loop 0 rest sessions' (snd r)
        end
      else ret (Some (selected_index + 1), app)
  end.

(** [show_interactive_menu_async] of [menu.py]: [None] when the menu is
    quit.  The [if choice is None] test after the loop cannot hold there. *)
Definition show_interactive_menu_async
    (infer_target_type : string → option (string * gmap string string))
    (assign_workspace_subdirs : list TargetInfo → list TargetInfo)
    (keys : list MenuKey) (sessions : list ConfigSession) (script : list UserAction)
    (app : AppState) : M (option Namespace * AppState) :=
  r <- menu_loop 0 keys sessions app;
  match fst r with
  | None => ret (None, snd r)
  | Some choice =>
      args <- scenario_flow infer_target_type assign_workspace_subdirs choice script;
      ret (Some args, snd r)
  end.

(** [ConfigurationApp.compose]: the text the four widgets start with, the
    [config.get(key, ...)] of the configuration read at that moment, an
    absent key giving the empty text. *)
Definition compose (st : ConfigManager.store) : ConfigInputs * ConfigManager.store :=
  let '(config, st') := ConfigManager.get_all_config st in
  ({| strix_llm := default EmptyString (config !! "STRIX_LLM");
      llm_api_key := default EmptyString (config !! "LLM_API_KEY");
      perplexity_api_key := default EmptyString (config !! "PERPLEXITY_API_KEY");
      llm_api_base := default EmptyString (config !! "LLM_API_BASE") |},
   st').

(** [self._input_order] as [compose] fills it. *)
Definition _input_order : list string :=
  ["STRIX_LLM"; "LLM_API_KEY"; "PERPLEXITY_API_KEY"; "LLM_API_BASE"].

(** What has the focus on the settings screen: the [Input] of a key, or
    something that is not an [Input]. *)
Inductive Focus :=
| FocusInput (key : string)
| FocusOther.

(** Position of [key] in a list of keys, counting from [i]. *)
Fixpoint index_from (i : nat) (key : string) (keys : list string) : option nat :=
  match keys with
  | [] => None
  | k :: rest => if String.eqb k key then Some i else index_from (S i) key rest
  end.

(** [ConfigurationApp._get_current_input_index]: the position of the focused
    input in [_input_order], and 0 when the loop finds none. *)
Definition _get_current_input_index (focused : Focus) : nat :=
  match focused with
  | FocusInput key => default 0%nat (index_from 0 key _input_order)
  | FocusOther => 0%nat
  end.

(** [ConfigurationApp.on_mount]. *)
Definition ConfigurationApp_on_mount (focused : Focus) : Focus :=
  match _input_order with
  | first_key :: _ => FocusInput first_key
  | [] => focused
  end.

(** [ConfigurationApp.action_move_up]. *)
Definition ConfigurationApp_action_move_up (focused : Focus) : Focus :=
  let current_idx := _get_current_input_index focused in
  if (0 <? current_idx)%nat then
    match _input_order !! (current_idx - 1)%nat with
    | Some prev_key => FocusInput prev_key
    | None => focused
    end
  else focused.

(** [ConfigurationApp.action_move_down]. *)
Definition ConfigurationApp_action_move_down (focused : Focus) : Focus :=
  let current_idx := _get_current_input_index focused in
  if (current_idx <? length _input_order - 1)%nat then
    match _input_order !! (current_idx + 1)%nat with
    | Some next_key => FocusInput next_key
    | None => focused
    end
  else focused.

(** The entries of a menu option the menu draws. *)
Record MenuOption := {
  title : string;
  description : string;
  example : string
}.

(** The text of a menu item, [f"{checkbox} {i + 1}. {option['title']}"]. *)
Definition item_text (checked : bool) (i : nat) (option_ : MenuOption) : string :=
  (if checked then "[x]" else "[ ]") +:+ " " +:+ pretty (i + 1)%nat +:+ ". " +:+ title option_.

(** A [Static] of the menu: its text, and whether it carries the class
    [selected]. *)
Record MenuItem := {
  item_label : string;
  item_selected : bool
}.

(** [InteractiveMenuApp.compose]: one item per option, the first one drawn
    checked; no item carries the class [selected] yet. *)
Definition compose_menu_items (menu_options : list MenuOption) : list MenuItem :=
  imap (λ i option_, {| item_label := item_text (i =? 0)%nat i option_;
                        item_selected := false |}) menu_options.

(** [InteractiveMenuApp._update_selection], which [on_mount] and
    [watch_selected_index] call: every item is redrawn from
    [self.menu_options[i]], and the description from
    [self.menu_options[self.selected_index]]; [None] stands for the
    [IndexError] of a subscript out of range. *)
Definition _update_selection (menu_options : list MenuOption) (selected_index : nat)
    (menu_items : list MenuItem) : option (list MenuItem * string) :=
  items ← mapM id
    (imap (λ i (_ : MenuItem),
             option_ ← menu_options !! i;
             Some {| item_label := item_text (i =? selected_index)%nat i option_;
                     item_selected := (i =? selected_index)%nat |}) menu_items);
  selected ← menu_options !! selected_index;
  Some (items,
        description selected +:+ String (ascii_of_nat 10) "Example: " +:+ example selected).

End Menu.

(** ** main.py *)

Module Main.

Import Menu.

(** The two fields of the global tracer the interface reads. *)
Record Tracer := {
  scan_results : option (gmap string bool);
  vulnerability_reports : list string
}.

(** The collaborators of [main.py]: the process environment, the user at
    the terminal, the helpers of [strix.interface.utils], the container
    engine, the LLM endpoint and the scan engine.  [infer_target_type]
    answers [None] where the helper raises [ValueError];
    [image_exists], [completion_ok] and [clone_result] are the answers of
    the engine, of [litellm.completion] followed by
    [validate_llm_response] ([false]: one of them raised), and of the
    clone ([None]: it failed); [tracer] is what [get_global_tracer]
    returns once the scan engine has returned. *)
Record World := {
  environ : gmap string string;
  menu_keys : list MenuKey;
  prompt_script : list UserAction;
  infer_target_type : string → option (string * gmap string string);
  assign_workspace_subdirs : list TargetInfo → list TargetInfo;
  generate_run_name : string;
  STRIX_IMAGE : string;
  docker_on_path : bool;
  docker_reachable : bool;
  image_exists : bool;
  pull_stream : list PullFrame;
  process_pull_line : string → gmap string string → string → gmap string string * string;
  litellm0 : LiteLLM;
  completion_ok : string → LiteLLM → bool;
  clone_result : string → string → option string → option string;
  tracer : option Tracer
}.

Definition getenv (env : gmap string string) (name : string) : option string :=
  env !! name.

(** [has_base_url] of [validate_environment]: [any] over the four
    endpoint overrides. *)
Definition has_base_url (env : gmap string string) : bool :=
  existsb truthy_opt
    [getenv env "LLM_API_BASE"; getenv env "OPENAI_API_BASE";
     getenv env "LITELLM_BASE_URL"; getenv env "OLLAMA_API_BASE"].

(** The two lists [validate_environment] builds, in the order of its
    [append] calls: [(missing_required_vars, missing_optional_vars)]. *)
Definition missing_vars (env : gmap string string) : list string * list string :=
  let required := [] in
  let optional := [] in
  let required :=
    if negb (truthy_opt (getenv env "STRIX_LLM")) then required ++ ["STRIX_LLM"]
    else required in
  let '(required, optional) :=
    if negb (truthy_opt (getenv env "LLM_API_KEY")) then
      if negb (has_base_url env) then (required ++ ["LLM_API_KEY"], optional)
      else (required, optional ++ ["LLM_API_KEY"])
    else (required, optional) in
  let optional :=
    if negb (has_base_url env) then optional ++ ["LLM_API_BASE"] else optional in
  let optional :=
    if negb (truthy_opt (getenv env "PERPLEXITY_API_KEY"))
    then optional ++ ["PERPLEXITY_API_KEY"] else optional in
  (required, optional).

Definition missing_required_vars (env : gmap string string) : list string :=
  fst (missing_vars env).
Definition missing_optional_vars (env : gmap string string) : list string :=
  snd (missing_vars env).

Local Open Scope py_scope.

Definition validate_environment (env : gmap string string) : M unit :=
  match missing_required_vars env with
  | [] => ret tt
  | _ :: _ =>
      console_print (ConfigErrorPanel (missing_required_vars env)
                       (missing_optional_vars env));;
      sys_exit 1
  end.

Definition check_docker_installed (w : World) : M unit :=
  emit (EvWhich "docker");;
  if docker_on_path w then ret tt
  else console_print DockerNotInstalledPanel;; sys_exit 1.

(** Modelled from the spec: [check_docker_connection] of
    [strix.interface.utils] is not part of the sources at hand.  The spec
    has the provisioner fail with [ContainerEngineUnavailable] when the
    engine cannot be reached at all, as a gate that aborts the process
    with a diagnostic and exit code 1. *)
Definition check_docker_connection (w : World) : M unit :=
  emit EvDockerConnect;;
  if docker_reachable w then ret tt
  else console_print DockerUnavailablePanel;; sys_exit 1.

(** The [for line in client.api.pull(...)] loop inside the [try]: the
    final [layers_info] and [last_update] when the stream ends, the
    message when the iteration raises [DockerException]. *)
Fixpoint consume_pull (w : World) (frames : list PullFrame)
    (layers_info : gmap string string) (last_update : string)
  : M (gmap string string * string + string) :=
  match frames with
  | [] => ret (inl (layers_info, last_update))
  | RaiseDockerException msg :: _ => ret (inr msg)
  | Line line :: rest =>
      emit (EvPullLine line);;
      consume_pull w rest
        (fst (process_pull_line w line layers_info last_update))
        (snd (process_pull_line w line layers_info last_update))
  end.

Definition pull_docker_image (w : World) : M unit :=
  check_docker_connection w;;
  emit (EvImageExists (STRIX_IMAGE w));;
  if image_exists w then ret tt
  else
    console_print PullBanner;;
    emit EvStatusOpen;;
    emit (EvPullOpen (STRIX_IMAGE w));;
    r <- consume_pull w (pull_stream w) ∅ EmptyString;
    match r with
    | inr e => console_print (PullErrorPanel e);; sys_exit 1
    | inl _ => console_print PullSuccess
    end.

(** The endpoint [warm_up_llm] selects: the [or] chain over the four
    overrides. *)
Definition select_api_base (env : gmap string string) : option string :=
  py_or (py_or (py_or (getenv env "LLM_API_BASE") (getenv env "OPENAI_API_BASE"))
               (getenv env "LITELLM_BASE_URL"))
        (getenv env "OLLAMA_API_BASE").

(** The assignments [warm_up_llm] makes to [litellm] before the request. *)
Definition configure_litellm (env : gmap string string) (l : LiteLLM) : LiteLLM :=
  let api_key_ := getenv env "LLM_API_KEY" in
  let l := if truthy_opt api_key_
           then {| api_key := api_key_; api_base := api_base l |} else l in
  let api_base_ := select_api_base env in
  if truthy_opt api_base_
  then {| api_key := api_key l; api_base := api_base_ |} else l.

(** [warm_up_llm]: any exception of the request or of
    [validate_llm_response] lands in the [except Exception] branch. *)
Definition warm_up_llm (w : World) : M LiteLLM :=
  let model_name := default "openai/gpt-5" (getenv (environ w) "STRIX_LLM") in
  let l := configure_litellm (environ w) (litellm0 w) in
  emit (EvCompletion model_name (api_key l) (api_base l));;
  if completion_ok w model_name l then ret l
  else console_print LLMErrorPanel;; sys_exit 1.

(** What [parser.parse_args()] returns for a well-formed command line:
    [-t] has [action=append] and leaves [None] when it is absent. *)
Record Flags := {
  flag_target : option (list string);
  flag_instruction : option string;
  flag_run_name : option string;
  flag_non_interactive : bool
}.

(** [not args.target] on [list | None]. *)
Definition no_target (t : option (list string)) : bool :=
  match t with
  | None | Some [] => true
  | Some (_ :: _) => false
  end.

(** [ArgumentParser.error]: prints the usage message and exits with
    status 2. *)
Definition parser_error {A} (message : string) : M A :=
  console_print (UsageError message);; sys_exit 2.

(** What [parser.parse_args()] makes of the command line.  argparse is
    taken by its documented behaviour: options that parse give the
    namespace; [-h] or [--help] prints the help text and exits with
    status 0; any other command line (an unknown option, an option without
    its argument) goes through [parser.error]. *)
Inductive CommandLine :=
| WellFormed (flags : Flags)
| HelpRequested
| Malformed (message : string).

Definition parse_args (argv : CommandLine) : M Flags :=
  match argv with
  | WellFormed flags => ret flags
  | HelpRequested => console_print HelpMessage;; sys_exit 0
  | Malformed message => parser_error message
  end.

Definition parse_arguments (w : World) (argv : CommandLine) : M Namespace :=
  flags <- parse_args argv;
  if no_target (flag_target flags) then
    ret {| target := None; targets_info := [];
           instruction := flag_instruction flags;
           run_name := flag_run_name flags;
           non_interactive := flag_non_interactive flags |}
  else
    infos <- process_targets (infer_target_type w)
               (λ target, parser_error ("Invalid target '" +:+ target +:+ "'"))
               (default [] (flag_target flags)) [];
    ret {| target := flag_target flags;
           targets_info := assign_workspace_subdirs w infos;
           instruction := flag_instruction flags;
           run_name := flag_run_name flags;
           non_interactive := flag_non_interactive flags |}.

(** [show_interactive_menu_async] of [main.py]: seven scenarios and no
    settings entry; quitting the menu exits with status 0.  From the
    selected scenario on the text is that of [menu.py]
    ([Menu.scenario_flow]), as are [InteractiveMenuApp], [InputPromptApp] and
    [prompt_input_async]. *)
Definition show_interactive_menu_async (w : World) : M Namespace :=
  r <- lift (InteractiveMenuApp 7 0 (menu_keys w));
  match fst r with
  | None => console_print Cancelled;; sys_exit 0
  | Some choice =>
      scenario_flow (infer_target_type w) (assign_workspace_subdirs w) choice
        (prompt_script w)
  end.

Definition show_interactive_menu (w : World) : M Namespace :=
  show_interactive_menu_async w.

(** Modelled from the spec: [clone_repository] of [strix.interface.utils]
    is not part of the sources at hand.  The spec has clone-to-workspace
    as the last gate, aborting the process with a diagnostic and exit code
    1 on failure and producing a local path otherwise. *)
Definition clone_repository (w : World) (repo_url run_name_ : string)
    (dest_name : option string) : M string :=
  emit (EvClone repo_url run_name_ dest_name);;
  match clone_result w repo_url run_name_ dest_name with
  | Some cloned_path => ret cloned_path
  | None =>
      console_print CloneErrorPanel;; sys_exit 1
  end.

(** The [for target_info in args.targets_info] loop of [main].  A
    repository entry without [target_repo] raises [KeyError], which nothing
    catches: the interpreter prints the traceback and exits with
    status 1. *)
Fixpoint clone_targets (w : World) (run_name_ : string) (infos : list TargetInfo)
  : M (list TargetInfo) :=
  match infos with
  | [] => ret []
  | target_info :: rest =>
      target_info' <-
        (if String.eqb (type_ target_info) "repository" then
           match details target_info !! "target_repo" with
           | None => console_print (Traceback "KeyError: 'target_repo'");; sys_exit 1
           | Some repo_url =>
               cloned_path <- clone_repository w repo_url run_name_
                                (details target_info !! "workspace_subdir");
               ret {| type_ := type_ target_info;
                      details := <["cloned_repo_path" := cloned_path]> (details target_info);
                      original := original target_info |}
           end
         else ret target_info);
      rest' <- clone_targets w run_name_ rest;
      ret (target_info' :: rest')
  end.

(** [display_completion_message]: of the panel, the two booleans that
    depend on the tracer. *)
Definition display_completion_message (w : World) : M unit :=
  let scan_completed :=
    match tracer w with
    | Some t =>
        match scan_results t with
        | Some results => default false (results !! "scan_completed")
        | None => false
        end
    | None => false
    end in
  let has_vulnerabilities :=
    match tracer w with
    | Some t => (0 <? length (vulnerability_reports t))%nat
    | None => false
    end in
  console_print (CompletionPanel scan_completed (scan_completed || has_vulnerabilities)).

(** The gates of [main], from [check_docker_installed] to the clone loop;
    returns the run name and the target list with the cloned paths. *)
Definition preflight (w : World) (args : Namespace) : M (string * list TargetInfo) :=
  check_docker_installed w;;
  pull_docker_image w;;
  validate_environment (environ w);;
  _ <- warm_up_llm w;
  let run_name_ :=
    if truthy_opt (run_name args) then default EmptyString (run_name args)
    else generate_run_name w in
  infos <- clone_targets w run_name_ (targets_info args);
  ret (run_name_, infos).

(** [main] once [args] is known: the gates, the scan engine, the completion
    panel and the final exit status. *)
Definition run (w : World) (args : Namespace) : M unit :=
  _ <- preflight w args;
  (if non_interactive args then emit EvRunCli else emit EvRunTui);;
  display_completion_message w;;
  if non_interactive args then
    match tracer w with
    | Some t =>
        match vulnerability_reports t with
        | _ :: _ => sys_exit 2
        | [] => ret tt
        end
    | None => ret tt
    end
  else ret tt.

Definition main (w : World) (argv : CommandLine) : M unit :=
  args <- parse_arguments w argv;
  args <- (if no_target (target args) then show_interactive_menu w else ret args);
  run w args.

End Main.

(** ** Notions the properties are stated with *)

(** What the loop of [action_save] is expected to store for one widget: the
    stripped text when it is non-empty; for a required key left blank, the
    persisted value when that is non-empty; nothing otherwise. *)
Definition saved_value (st : ConfigManager.store) (key text : string) : option string :=
  if truthy (strip text) then Some (strip text)
  else if bool_decide (key ∈ ConfigManager.REQUIRED_KEYS) then
    match (ConfigManager.load_config st).1 !! key with
    | Some (String c s) => Some (String c s)
    | _ => None
    end
  else None.

(** The four endpoint overrides, in the precedence order of the spec. *)
Definition ENDPOINT_OVERRIDES : list string :=
  ["LLM_API_BASE"; "OPENAI_API_BASE"; "LITELLM_BASE_URL"; "OLLAMA_API_BASE"].

(** Following the spec: the keys the validation requires are [STRIX_LLM],
    always, and the credential [LLM_API_KEY] unless at least one of the
    four endpoint overrides is set to a non-empty value. *)
Definition required_keys_spec (env : gmap string string) : list string :=
  "STRIX_LLM" ::
  (if existsb (λ name, truthy_opt (Main.getenv env name)) ENDPOINT_OVERRIDES
   then [] else ["LLM_API_KEY"]).

(** Following the spec: a key is missing when it is unset or empty. *)
Definition missing_spec (env : gmap string string) (key : string) : bool :=
  negb (truthy_opt (Main.getenv env key)).

(** Following the spec: the overrides are checked in a fixed precedence
    order and the first non-empty one wins. *)
Fixpoint first_nonempty (vars : string → option string) (names : list string)
  : option string :=
  match names with
  | [] => None
  | name :: rest =>
      match vars name with
      | Some (String c s) => Some (String c s)
      | _ => first_nonempty vars rest
      end
  end.

(** The stages of a run, in the order the spec gives them: target
    resolution (flags or interactive flow), the five gates, the scan. *)
Inductive Stage :=
| Resolution
| EngineCheck
| ImageProvisioning
| CredentialValidation
| WarmupProbe
| Cloning
| Scan.

Definition stage_rank (s : Stage) : nat :=
  match s with
  | Resolution => 0
  | EngineCheck => 1
  | ImageProvisioning => 2
  | CredentialValidation => 3
  | WarmupProbe => 4
  | Cloning => 5
  | Scan => 6
  end.

(** The stage a call or a console message belongs to. *)
Definition stage_of (e : Event) : Stage :=
  match e with
  | EvWhich _ | EvDockerConnect => EngineCheck
  | EvImageExists _ | EvStatusOpen | EvPullOpen _ | EvPullLine _ => ImageProvisioning
  | EvCompletion _ _ _ => WarmupProbe
  | EvClone _ _ _ => Cloning
  | EvRunCli | EvRunTui => Scan
  | EvConsole out =>
      match out with
      | DockerNotInstalledPanel | DockerUnavailablePanel => EngineCheck
      | PullBanner | PullErrorPanel _ | PullSuccess => ImageProvisioning
      | ConfigErrorPanel _ _ => CredentialValidation
      | LLMErrorPanel => WarmupProbe
      | CloneErrorPanel | Traceback _ => Cloning
      | Cancelled | InvalidTarget _ | UsageError _ | ConfigSaved | HelpMessage => Resolution
      | CompletionPanel _ _ => Scan
      end
  end.

Definition rank (e : Event) : nat := stage_rank (stage_of e).

(** The diagnostics with which a gate aborts. *)
Definition is_failure (e : Event) : bool :=
  match e with
  | EvConsole (DockerNotInstalledPanel | DockerUnavailablePanel | PullErrorPanel _
              | ConfigErrorPanel _ _ | LLMErrorPanel | CloneErrorPanel | Traceback _) => true
  | _ => false
  end.

(** Calls to the container engine and to the network: the engine
    connection, the image existence check, the pull, the LLM request, the
    clone. *)
Definition is_container_or_network_call (e : Event) : bool :=
  match e with
  | EvDockerConnect | EvImageExists _ | EvPullOpen _ | EvPullLine _
  | EvCompletion _ _ _ | EvClone _ _ _ => true
  | _ => false
  end.

(** What belongs to a pull: the stream, its frames, and the progress display
    around it. *)
Definition is_pull_event (e : Event) : bool :=
  match e with
  | EvStatusOpen | EvPullOpen _ | EvPullLine _
  | EvConsole (PullBanner | PullErrorPanel _ | PullSuccess) => true
  | _ => false
  end.

(** What comes after credential validation: the LLM request, the clones and
    the scan engine. *)
Definition is_after_validation (e : Event) : bool :=
  match e with
  | EvCompletion _ _ _ | EvClone _ _ _ | EvRunCli | EvRunTui
  | EvConsole (LLMErrorPanel | CloneErrorPanel | Traceback _ | CompletionPanel _ _) => true
  | _ => false
  end.

(** The events of a trace are in stage order. *)
Definition in_order (tr : list Event) : Prop :=
  ∀ (i j : nat) (e1 e2 : Event),
    (i < j)%nat → tr !! i = Some e1 → tr !! j = Some e2 → (rank e1 ≤ rank e2)%nat.

(** [m] aborts at stage [g]: exit status 1, the diagnostic of [g] being the
    last thing it did. *)
Definition fails_at {A} (g : Stage) (m : M A) : Prop :=
  outcome m = Exit 1%Z
  ∧ ∃ tr e, trace m = tr ++ [e] ∧ is_failure e = true ∧ stage_of e = g.

(** A trace in stage order whose events all lie between two stages. *)
Definition staged (lo hi : nat) (tr : list Event) : Prop :=
  in_order tr ∧ Forall (λ e, (lo ≤ rank e ≤ hi)%nat) tr.

(** [m] behaves as the gate of stage [g]: everything it does belongs to
    [g]; it returns when [passes] holds and aborts at [g] otherwise. *)
Definition gate {A} (g : Stage) (passes : bool) (m : M A) : Prop :=
  Forall (λ e, stage_of e = g) (trace m)
  ∧ if passes then ∃ a, outcome m = Ret a else fails_at g m.

Section gate_conditions.

Import Main.

(** The stream of the pull raises [DockerException] at some frame. *)
Definition pull_raises (frames : list PullFrame) : bool :=
  existsb (λ f, match f with RaiseDockerException _ => true | Line _ => false end) frames.

(** Cloning goes wrong for one entry: a repository without [target_repo],
    or one whose clone fails. *)
Definition clone_fails_for (w : World) (run_name_ : string) (ti : TargetInfo) : bool :=
  String.eqb (type_ ti) "repository" &&
  match details ti !! "target_repo" with
  | None => true
  | Some repo_url =>
      match clone_result w repo_url run_name_ (details ti !! "workspace_subdir") with
      | Some _ => false
      | None => true
      end
  end.

Definition effective_run_name (w : World) (args : Namespace) : string :=
  if truthy_opt (run_name args) then default EmptyString (run_name args)
  else generate_run_name w.

(** Following the spec: the gates are hard gates taken in the order
    container-engine availability, image provisioning, credential
    validation, warm-up probe, clone; the first one that fails aborts the
    run. *)
Definition first_failing_gate (w : World) (args : Namespace) : option Stage :=
  if negb (docker_on_path w && docker_reachable w) then Some EngineCheck
  else if negb (image_exists w) && pull_raises (pull_stream w) then Some ImageProvisioning
  else if negb (bool_decide (missing_required_vars (environ w) = []))
  then Some CredentialValidation
  else if negb (completion_ok w
                  (default "openai/gpt-5" (getenv (environ w) "STRIX_LLM"))
                  (configure_litellm (environ w) (litellm0 w)))
  then Some WarmupProbe
  else if existsb (clone_fails_for w (effective_run_name w args)) (targets_info args)
  then Some Cloning
  else None.

(** [pull_docker_image] once the connection to the engine is established:
    the existence check and, when the image is absent, the pull. *)
Definition provision_image (w : World) : M unit :=
  (emit (EvImageExists (STRIX_IMAGE w));;
   if image_exists w then ret tt
   else
     console_print PullBanner;;
     emit EvStatusOpen;;
     emit (EvPullOpen (STRIX_IMAGE w));;
     r <- consume_pull w (pull_stream w) ∅ EmptyString;
     match r with
     | inr e => console_print (PullErrorPanel e);; sys_exit 1
     | inl _ => console_print PullSuccess
     end)%py.

(** The first two statements of [main]: the flags, and the interactive
    menu when they name no target. *)
Definition resolve_args (w : World) (argv : CommandLine) : M Namespace :=
  (args <- parse_arguments w argv;
   if no_target (target args) then show_interactive_menu w else ret args)%py.

(** The tracer holds at least one vulnerability report. *)
Definition has_findings (w : World) : bool :=
  match tracer w with
  | Some t => match vulnerability_reports t with _ :: _ => true | [] => false end
  | None => false
  end.

(** The [scan_completed] flag as [display_completion_message] reads it. *)
Definition scan_completed (w : World) : bool :=
  match tracer w with
  | Some t =>
      match scan_results t with
      | Some results => default false (results !! "scan_completed")
      | None => false
      end
  | None => false
  end.
(** One iteration of the clone loop of [main]. *)
Definition clone_step (w : World) (run_name_ : string) (target_info : TargetInfo)
  : M TargetInfo :=
  (if String.eqb (type_ target_info) "repository" then
     match details target_info !! "target_repo" with
     | None => console_print (Traceback "KeyError: 'target_repo'");; sys_exit 1
     | Some repo_url =>
         cloned_path <- clone_repository w repo_url run_name_
                          (details target_info !! "workspace_subdir");
         ret {| type_ := type_ target_info;
                details := <["cloned_repo_path" := cloned_path]> (details target_info);
                original := original target_info |}
     end
   else ret target_info)%py.

End gate_conditions.

(** [m] runs as the gate sequence predicts: it aborts at the first failing
    gate, or returns when there is none. *)
Definition runs {A} (first_failure : option Stage) (m : M A) : Prop :=
  match first_failure with
  | Some g => fails_at g m
  | None => ∃ r, outcome m = Ret r
  end.

(** Every exit of [m] carries one of the given statuses. *)
Definition exits_within {A} (codes : list Z) (m : M A) : Prop :=
  ∀ code, outcome m = Exit code → code ∈ codes.

(** Everything [m] does belongs to stage [g]. *)
Definition at_stage {A} (g : Stage) (m : M A) : Prop :=
  Forall (λ e, stage_of e = g) (trace m).

(** ** Sample runs *)

Section samples.

Import Menu Main.

(** A world with the engine reachable and every collaborator answering;
    the environment, the presence of the image and the tracer vary.  The
    target [???] is the one [infer_target_type] rejects. *)
Definition sample_world (env : gmap string string) (image_present : bool)
    (t : option Tracer) : World :=
  {| environ := env;
     menu_keys := [];
     prompt_script := [];
     infer_target_type := λ target,
       if String.eqb target "???" then None
       else Some ("web_application", {["target_url" := target]});
     assign_workspace_subdirs := λ infos, infos;
     generate_run_name := "run-1";
     STRIX_IMAGE := "strix-sandbox";
     docker_on_path := true;
     docker_reachable := true;
     image_exists := image_present;
     pull_stream := [Line "layer-1: downloading"; Line "layer-1: complete"];
     process_pull_line := λ line layers_info _, (<["layer-1" := line]> layers_info, line);
     litellm0 := {| api_key := None; api_base := None |};
     completion_ok := λ _ _, true;
     clone_result := λ repo_url _ _, Some repo_url;
     tracer := t |}.

(** An environment with the credential but without [STRIX_LLM], and one
    with both. *)
Definition env_without_model : gmap string string :=
  {["LLM_API_KEY" := "sk-test"]}.
Definition env_configured : gmap string string :=
  <["STRIX_LLM" := "openai/gpt-5"]> {["LLM_API_KEY" := "sk-test"]}.

Definition sample_flags (targets : list string) (non_interactive_ : bool) : Flags :=
  {| flag_target := Some targets;
     flag_instruction := None;
     flag_run_name := None;
     flag_non_interactive := non_interactive_ |}.

(** A tracer of an interrupted scan that recorded one finding. *)
Definition interrupted_tracer : Tracer :=
  {| scan_results := Some {["scan_completed" := false]};
     vulnerability_reports := ["finding-1"] |}.

End samples.

(** The first target [infer_target_type] rejects, when there is one. *)
Fixpoint first_rejected (infer : string → option (string * gmap string string))
    (targets : list string) : option string :=
  match targets with
  | [] => None
  | t :: rest =>
      match infer t with
      | Some _ => first_rejected infer rest
      | None => Some t
      end
  end.

(** The entry of [targets_info] the target loop builds for a target. *)
Definition target_info_of (infer : string → option (string * gmap string string))
    (t : string) : option TargetInfo :=
  match infer t with
  | Some (target_type, target_dict) =>
      Some {| type_ := target_type;
              details := target_dict;
              original := Menu.display_target t target_type target_dict |}
  | None => None
  end.

(** The progress lines of a pull stream up to its first exception, and that
    exception. *)
Fixpoint lines_before_raise (frames : list PullFrame) : list string :=
  match frames with
  | Line line :: rest => line :: lines_before_raise rest
  | _ => []
  end.

Fixpoint first_exception (frames : list PullFrame) : option string :=
  match frames with
  | [] => None
  | RaiseDockerException msg :: _ => Some msg
  | Line _ :: rest => first_exception rest
  end.

(** The same world with another user at the terminal: other keys pressed
    at the menu, other answers at the prompts. *)
Definition with_user_input (w : Main.World) (keys : list Menu.MenuKey)
    (script : list Menu.UserAction) : Main.World :=
  {| Main.environ := Main.environ w;
     Main.menu_keys := keys;
     Main.prompt_script := script;
     Main.infer_target_type := Main.infer_target_type w;
     Main.assign_workspace_subdirs := Main.assign_workspace_subdirs w;
     Main.generate_run_name := Main.generate_run_name w;
     Main.STRIX_IMAGE := Main.STRIX_IMAGE w;
     Main.docker_on_path := Main.docker_on_path w;
     Main.docker_reachable := Main.docker_reachable w;
     Main.image_exists := Main.image_exists w;
     Main.pull_stream := Main.pull_stream w;
     Main.process_pull_line := Main.process_pull_line w;
     Main.litellm0 := Main.litellm0 w;
     Main.completion_ok := Main.completion_ok w;
     Main.clone_result := Main.clone_result w;
     Main.tracer := Main.tracer w |}.

(** A request to the LLM endpoint. *)
Definition is_llm_request (e : Event) : bool :=
  match e with
  | EvCompletion _ _ _ => true
  | _ => false
  end.

(** A move on the settings screen. *)
Inductive FocusMove := MoveUp | MoveDown.

Definition focus_move (focused : Menu.Focus) (m : FocusMove) : Menu.Focus :=
  match m with
  | MoveUp => Menu.ConfigurationApp_action_move_up focused
  | MoveDown => Menu.ConfigurationApp_action_move_down focused
  end.

(** * Properties *)

(** ** Python values *)

Lemma truthy_true s : truthy s = true ↔ s ≠ EmptyString.
Proof. destruct s; simpl; split; congruence. Qed.

Lemma truthy_false s : truthy s = false ↔ s = EmptyString.
Proof. destruct s; simpl; split; congruence. Qed.

(** ** The configuration store *)

Section config_store.

Import ConfigManager.

Implicit Types (st : store) (config updates env : gmap string string) (k : string).

Lemma load_config_lookup st k :
  (load_config st).1 !! k = ensure_config_dir st !! k ≫= id.
Proof. unfold load_config, dotenv_values. simpl. by rewrite lookup_omap. Qed.

Lemma load_config_store st : (load_config st).2 = Some (ensure_config_dir st).
Proof. done. Qed.

(** Loading does not change what a later load sees. *)
Lemma load_config_idem st : load_config (load_config st).2 = load_config st.
Proof. done. Qed.

(** The [set_key] loop of [save_config] overlays the record on the file. *)
Lemma set_key_loop (f : gmap string (option string)) config :
  map_fold (λ key value acc, set_key acc key value) f config = (Some <$> config) ∪ f.
Proof.
  apply (map_fold_weak_ind (λ r m, r = (Some <$> m) ∪ f)).
  - by rewrite fmap_empty, (left_id_L ∅ (∪)).
  - intros i x m r Hi ->. unfold set_key.
    by rewrite fmap_insert, insert_union_l.
Qed.

Lemma save_config_lookup st config k :
  (load_config (save_config st config)).1 !! k =
    match config !! k with
    | Some v => Some v
    | None => (load_config st).1 !! k
    end.
Proof.
  rewrite !load_config_lookup. unfold save_config. simpl.
  rewrite set_key_loop, lookup_union, lookup_fmap.
  destruct (config !! k) as [v|] eqn:Hk; simpl.
  - by destruct (ensure_config_dir st !! k).
  - by rewrite (left_id_L None union).
Qed.

Lemma save_config_load st config :
  (load_config (save_config st config)).1 = config ∪ (load_config st).1.
Proof.
  apply map_eq; intros k. rewrite save_config_lookup, lookup_union.
  destruct (config !! k) as [v|].
  - by destruct (_ !! k).
  - by rewrite (left_id_L None union).
Qed.

Lemma update_config_load st updates :
  (load_config (update_config st updates)).1 = updates ∪ (load_config st).1.
Proof.
  unfold update_config.
  destruct (load_config st) as [config st'] eqn:Hl.
  assert (config = (load_config st).1) as Hc by (by rewrite Hl).
  assert (st' = (load_config st).2) as Hs by (by rewrite Hl).
  rewrite save_config_load. subst st'. rewrite load_config_idem, <- Hc. simpl.
  by rewrite <- (assoc_L (∪)), (idemp_L (∪) config).
Qed.

(** The loop of [apply_to_environment], key by key. *)
Lemma apply_loop_lookup env config k :
  map_fold (λ key value e, if truthy value then <[key := value]> e else e) env config !! k =
    match config !! k with
    | Some v => if truthy v then Some v else env !! k
    | None => env !! k
    end.
Proof.
  apply (map_fold_weak_ind (λ r m, r !! k =
    match m !! k with
    | Some v => if truthy v then Some v else env !! k
    | None => env !! k
    end)).
  - by rewrite lookup_empty.
  - intros i x m r Hi IH. destruct (decide (i = k)) as [->|Hne].
    + rewrite lookup_insert_eq. rewrite Hi in IH.
      destruct (truthy x); [by rewrite lookup_insert_eq | done].
    + rewrite (lookup_insert_ne m) by done.
      destruct (truthy x); [by rewrite lookup_insert_ne | done].
Qed.

Lemma apply_to_environment_lookup st env k :
  (apply_to_environment st env).1 !! k =
    match (load_config st).1 !! k with
    | Some v => if truthy v then Some v else env !! k
    | None => env !! k
    end.
Proof. unfold apply_to_environment. simpl. apply apply_loop_lookup. Qed.

End config_store.

Section config_store_claims.

Import ConfigManager.

(** C4, as stated, fails: [save_config] (and with it [set_value] and
    [update_config]) hands every item of the record to [set_key], so an
    empty value given to it is written to the file. *)
Lemma save_config_writes_empty_value :
  ensure_config_dir (save_config None {["LLM_API_BASE" := EmptyString]}) !! "LLM_API_BASE"
    = Some (Some EmptyString)
  ∧ (load_config (set_value None "LLM_API_BASE" EmptyString)).1 !! "LLM_API_BASE"
    = Some EmptyString.
Proof.
  split.
  - unfold save_config. simpl. rewrite set_key_loop.
    by rewrite lookup_union, lookup_fmap, lookup_singleton_eq.
  - vm_compute. reflexivity.
Qed.

(** C4 (amended): [apply_to_environment] copies a key into the process
    environment exactly when its loaded value is non-empty and leaves every
    other entry of the environment as it was; [save_config] persists every
    item of the record it is given, empty values included, and keeps the
    keys the record does not mention. *)
Theorem apply_nonempty_save_verbatim
    (st : store) (env config : gmap string string) (k : string) :
  (apply_to_environment st env).1 !! k =
    match (load_config st).1 !! k with
    | Some v => if truthy v then Some v else env !! k
    | None => env !! k
    end
  ∧ (load_config (save_config st config)).1 !! k =
    match config !! k with
    | Some v => Some v
    | None => (load_config st).1 !! k
    end.
Proof. split; [apply apply_to_environment_lookup | apply save_config_lookup]. Qed.

(** C5: [update_config] followed by [load_config] yields the merge of the
    persisted record with the update: a key of the update maps to its new
    value, every other key keeps the value it had. *)
Theorem update_config_then_load (st : store) (updates : gmap string string) :
  (load_config (update_config st updates)).1 = updates ∪ (load_config st).1
  ∧ ∀ k : string,
      (load_config (update_config st updates)).1 !! k =
        match updates !! k with
        | Some v => Some v
        | None => (load_config st).1 !! k
        end.
Proof.
  split; [apply update_config_load |].
  intros k. rewrite update_config_load, lookup_union.
  destruct (updates !! k) as [v|].
  - by destruct (_ !! k).
  - by rewrite (left_id_L None union).
Qed.

End config_store_claims.

(** ** The effect monad *)

Lemma bind_ret_l {A B} (a : A) (k : A → M B) : bind (ret a) k = k a.
Proof. unfold bind, ret. by destruct (k a). Qed.

Lemma bind_lift_ret {A B} (a : A) (k : A → M B) : bind (lift (Ret a)) k = k a.
Proof. apply bind_ret_l. Qed.

Lemma bind_emit {B} (e : Event) (k : unit → M B) :
  bind (emit e) k = (e :: trace (k tt), outcome (k tt)).
Proof. unfold bind, emit, trace, outcome. by destruct (k tt). Qed.

Lemma trace_bind {A B} (m : M A) (k : A → M B) :
  trace (bind m k) =
    trace m ++ match outcome m with Ret a => trace (k a) | _ => [] end.
Proof.
  destruct m as [tr [a|c|]]; unfold bind, trace, outcome; simpl.
  - by destruct (k a).
  - by rewrite app_nil_r.
  - by rewrite app_nil_r.
Qed.

Lemma outcome_bind {A B} (m : M A) (k : A → M B) :
  outcome (bind m k) =
    match outcome m with
    | Ret a => outcome (k a)
    | Exit code => Exit code
    | Blocked => Blocked
    end.
Proof.
  destruct m as [tr [a|c|]]; unfold bind, outcome; simpl; [|done..].
  by destruct (k a).
Qed.

(** ** The multi-target prompt loop *)

Section prompt_loop.

Import Menu.
Local Open Scope py_scope.

Lemma on_input_submitted_allow_empty text :
  on_input_submitted true text = Some (strip text).
Proof. unfold on_input_submitted. by rewrite andb_false_r. Qed.

(** With [allow_empty=True] a prompt ends on the first action. *)
Lemma prompt_input_async_allow_empty (a : UserAction) (rest : list UserAction) :
  prompt_input_async true (a :: rest) =
    Ret (match a with Submit text => Some (strip text) | Escape => None end, rest).
Proof. destruct a; simpl; [by rewrite on_input_submitted_allow_empty | done]. Qed.

(** The loop body as [menu.py] and [main.py] have it. *)
Lemma multi_target_loop_unfold (targets : list string) (script : list UserAction) :
  multi_target_loop targets script =
    (r <- lift (prompt_input_async true script);
     match fst r with
     | None =>
         match targets with
         | _ :: _ => ret (targets, snd r)
         | [] => console_print Cancelled;; sys_exit 0
         end
     | Some target =>
         if negb (truthy target) then
           match targets with
           | _ :: _ => ret (targets, snd r)
           | [] => multi_target_loop targets (snd r)
           end
         else multi_target_loop (targets ++ [target]) (snd r)
     end).
Proof.
  destruct script as [|a rest]; [done |].
  rewrite prompt_input_async_allow_empty, bind_lift_ret.
  destruct a as [text|]; simpl; [|done].
  by rewrite on_input_submitted_allow_empty.
Qed.

Lemma multi_target_loop_blank (text : string) (script : list UserAction) :
  strip text = EmptyString →
  multi_target_loop [] (Submit text :: script) = multi_target_loop [] script.
Proof. intros H. simpl. by rewrite on_input_submitted_allow_empty, H. Qed.

Lemma multi_target_loop_target (targets : list string) (text : string)
    (script : list UserAction) :
  strip text ≠ EmptyString →
  multi_target_loop targets (Submit text :: script) =
    multi_target_loop (targets ++ [strip text]) script.
Proof.
  intros H. simpl. rewrite on_input_submitted_allow_empty.
  apply truthy_true in H. by rewrite H.
Qed.

Lemma multi_target_loop_skip_blanks (blanks : list string) (script : list UserAction) :
  Forall (λ t, strip t = EmptyString) blanks →
  multi_target_loop [] (map Submit blanks ++ script) = multi_target_loop [] script.
Proof.
  induction 1 as [|t blanks Ht _ IH]; [done |].
  rewrite map_cons, <- app_comm_cons. by rewrite multi_target_loop_blank.
Qed.

Lemma multi_target_loop_collect (subs targets : list string) (script : list UserAction) :
  Forall (λ t, strip t ≠ EmptyString) subs →
  multi_target_loop targets (map Submit subs ++ script) =
    multi_target_loop (targets ++ map strip subs) script.
Proof.
  intros H. revert targets. induction H as [|t subs Ht _ IH]; intros targets.
  - simpl. by rewrite app_nil_r.
  - rewrite map_cons, <- app_comm_cons, multi_target_loop_target by done.
    rewrite IH. simpl. by rewrite <- app_assoc.
Qed.

(** The loop around the menu of [menu.py], as it is written: run the menu;
    leave with [None] when it is quit; on choice 8 show the settings screen
    and start over; otherwise leave with the choice. *)
Lemma menu_loop_unfold (selected_index : nat) (keys : list MenuKey)
    (sessions : list ConfigSession) (app : AppState) :
  menu_loop selected_index keys sessions app =
    (r <- lift (InteractiveMenuApp 8 selected_index keys);
     match fst r with
     | None => ret (None, app)
     | Some choice =>
         if (choice =? 8)%nat then
           match sessions with
           | [] => lift Blocked
           | session :: sessions' =>
               r' <- show_configuration_async session app;
               menu_loop 0 (snd r) sessions' (snd r')
           end
         else ret (Some choice, app)
     end).
Proof.
  revert selected_index. induction keys as [|key keys IH]; intros selected_index.
  - done.
  - destruct key; cbn [menu_loop InteractiveMenuApp].
    + apply IH.
    + apply IH.
    + by rewrite bind_lift_ret.
    + by rewrite bind_lift_ret.
Qed.

End prompt_loop.

(** ** The settings screen *)

Section settings_screen.

Import ConfigManager Menu.

Implicit Types (st : store) (updates : gmap string string) (key text : string).

Local Arguments load_config : simpl never.

Lemma get_value_load st key dflt :
  get_value st key dflt =
    (default dflt ((load_config st).1 !! key), (load_config st).2).
Proof. done. Qed.

Lemma save_step_spec st0 st updates key text :
  load_config st0 = load_config st →
  (save_step (updates, st0) (key, text)).1 =
    match saved_value st key text with
    | Some v => <[key := v]> updates
    | None => updates
    end
  ∧ load_config (save_step (updates, st0) (key, text)).2 = load_config st.
Proof.
  intros Hst. unfold save_step, saved_value.
  destruct (truthy (strip text)); [done |].
  destruct (bool_decide _); [|done].
  rewrite get_value_load. cbv beta iota zeta. rewrite Hst.
  destruct ((load_config st).1 !! key) as [[|c s]|]; done.
Qed.

Lemma fold_save_step_other inputs st0 st updates key :
  load_config st0 = load_config st →
  key ∉ inputs.*1 →
  (fold_left save_step inputs (updates, st0)).1 !! key = updates !! key
  ∧ load_config (fold_left save_step inputs (updates, st0)).2 = load_config st.
Proof.
  revert st0 updates. induction inputs as [|[k t] inputs IH]; intros st0 updates Hst Hk.
  - done.
  - rewrite fmap_cons in Hk. cbn [fold_left fst] in *.
    apply not_elem_of_cons in Hk as [Hne Hk].
    destruct (save_step_spec st0 st updates k t Hst) as [Hu Hs].
    destruct (save_step (updates, st0) (k, t)) as [u1 s1]. cbn [fst snd] in *.
    destruct (IH s1 u1 Hs Hk) as [-> ->]. split; [|done].
    rewrite Hu. destruct (saved_value st k t); [|done].
    by rewrite lookup_insert_ne.
Qed.

Lemma fold_save_step_lookup inputs st0 st updates key text :
  load_config st0 = load_config st →
  NoDup inputs.*1 →
  (key, text) ∈ inputs →
  (fold_left save_step inputs (updates, st0)).1 !! key =
    match saved_value st key text with
    | Some v => Some v
    | None => updates !! key
    end.
Proof.
  revert st0 updates. induction inputs as [|[k t] inputs IH];
    intros st0 updates Hst Hnd Hin.
  - by apply elem_of_nil in Hin.
  - rewrite fmap_cons in Hnd. cbn [fold_left fst] in *.
    apply NoDup_cons in Hnd as [Hk Hnd].
    destruct (save_step_spec st0 st updates k t Hst) as [Hu Hs].
    destruct (save_step (updates, st0) (k, t)) as [u1 s1]. cbn [fst snd] in *.
    apply elem_of_cons in Hin as [Heq|Hin].
    + injection Heq as -> ->.
      destruct (fold_save_step_other inputs s1 st u1 k Hs Hk) as [-> _].
      rewrite Hu. destruct (saved_value st k t); [|done].
      by rewrite lookup_insert_eq.
    + rewrite (IH s1 u1 Hs Hnd Hin).
      assert (k ≠ key) as Hne.
      { intros ->. apply Hk. apply list_elem_of_fmap. by exists (key, text). }
      rewrite Hu. destruct (saved_value st key text); [done |].
      destruct (saved_value st k t); [|done].
      by rewrite lookup_insert_ne.
Qed.

Lemma collect_updates_lookup inputs st key text :
  NoDup inputs.*1 →
  (key, text) ∈ inputs →
  (collect_updates inputs st).1 !! key = saved_value st key text.
Proof.
  intros Hnd Hin. unfold collect_updates.
  rewrite (fold_save_step_lookup inputs st st ∅ key text) by done.
  by destruct (saved_value st key text).
Qed.

Lemma collect_updates_store inputs st :
  load_config (collect_updates inputs st).2 = load_config st.
Proof.
  unfold collect_updates. generalize (∅ : gmap string string).
  assert (load_config st = load_config st) as H by done. revert H.
  generalize st at 1 3. induction inputs as [|[k t] inputs IH]; intros st0 Hst u.
  - done.
  - cbn [fold_left]. destruct (save_step_spec st0 st u k t Hst) as [_ Hs].
    destruct (save_step (u, st0) (k, t)) as [u1 s1]. by apply IH.
Qed.

(** The record on disk after a save is the update laid over the record
    that was there. *)
Lemma action_save_from_load inputs app :
  (load_config (config_store (action_save_from inputs app))).1 =
    (collect_updates inputs (config_store app)).1 ∪ (load_config (config_store app)).1.
Proof.
  unfold action_save_from.
  pose proof (collect_updates_store inputs (config_store app)) as Hst.
  destruct (collect_updates inputs (config_store app)) as [updates st1].
  cbn [fst snd] in *. unfold apply_to_environment.
  destruct (load_config (update_config st1 updates)) as [c st3] eqn:Hl.
  cbn [config_store].
  assert (st3 = (load_config (update_config st1 updates)).2) as -> by (by rewrite Hl).
  by rewrite load_config_idem, update_config_load, Hst.
Qed.

Lemma _inputs_NoDup i : NoDup (_inputs i).*1.
Proof. simpl. apply (bool_decide_unpack _). by vm_compute. Qed.

(** C10: on save, a required field ([STRIX_LLM], [LLM_API_KEY]) submitted
    blank while a non-empty value is persisted carries the persisted value
    into the update, and that value is still the persisted one afterwards;
    an optional field submitted blank is left out of the update and its
    persisted value is the same before and after. *)
Theorem action_save_keeps_persisted
    (i : ConfigInputs) (app : AppState) (key text : string) :
  (key, text) ∈ _inputs i →
  strip text = EmptyString →
  let updates := (collect_updates (_inputs i) (config_store app)).1 in
  let before := (load_config (config_store app)).1 in
  let after := (load_config (config_store (action_save i app))).1 in
  (key ∈ REQUIRED_KEYS →
     ∀ v, before !! key = Some v → v ≠ EmptyString →
          updates !! key = Some v ∧ after !! key = Some v)
  ∧ (key ∉ REQUIRED_KEYS → updates !! key = None ∧ after !! key = before !! key).
Proof.
  intros Hin Hblank updates before after.
  assert (updates !! key = saved_value (config_store app) key text) as Hu.
  { apply collect_updates_lookup; [apply _inputs_NoDup | done]. }
  assert (∀ k, after !! k = (updates ∪ before) !! k) as Ha.
  { intros k. unfold after, action_save. by rewrite action_save_from_load. }
  unfold saved_value in Hu. rewrite Hblank in Hu. cbn [truthy] in Hu.
  split.
  - intros Hreq v Hv Hne. unfold before in Hv.
    rewrite bool_decide_eq_true_2, Hv in Hu by done.
    destruct v as [|c s]; [done |].
    split; [done |]. rewrite Ha, lookup_union, Hu. by destruct (before !! key).
  - intros Hopt. rewrite bool_decide_eq_false_2 in Hu by done.
    split; [done |]. rewrite Ha, lookup_union, Hu. by rewrite (left_id_L None union).
Qed.

End settings_screen.

Section settings_screen_witness.

Import ConfigManager Menu.

Lemma action_save_keeps_persisted_witness :
  let app := {| config_store := Some {["LLM_API_KEY" := Some "sk-live"]};
                os_environ := ∅;
                litellm := {| api_key := None; api_base := None |} |} in
  let i := {| strix_llm := "openai/gpt-5"; llm_api_key := "  ";
              perplexity_api_key := EmptyString; llm_api_base := EmptyString |} in
  (collect_updates (_inputs i) (config_store app)).1 !! "LLM_API_KEY" = Some "sk-live"
  ∧ (load_config (config_store (action_save i app))).1 !! "LLM_API_KEY" = Some "sk-live".
Proof.
  intros app i.
  apply (proj1 (action_save_keeps_persisted i app "LLM_API_KEY" "  "
                  ltac:(apply (bool_decide_unpack _); vm_compute; reflexivity)
                  ltac:(vm_compute; reflexivity))
           ltac:(apply (bool_decide_unpack _); vm_compute; reflexivity)
           "sk-live" ltac:(vm_compute; reflexivity) ltac:(discriminate)).
Defined.

End settings_screen_witness.

(** ** Credentials and endpoint selection *)

Section environment.

Import Menu Main.

Implicit Types (env updates : gmap string string) (l : LiteLLM).

Lemma has_base_url_iff env :
  has_base_url env = true ↔
  ∃ name, name ∈ ENDPOINT_OVERRIDES ∧ truthy_opt (getenv env name) = true.
Proof.
  unfold has_base_url, ENDPOINT_OVERRIDES. cbn [existsb].
  rewrite !orb_true_iff. split.
  - intros [H|[H|[H|[H|H]]]]; [eexists; split; [|exact H]; set_solver.. | done].
  - intros (name & Hin & H).
    repeat (apply elem_of_cons in Hin as [->|Hin]; [tauto|]).
    by apply elem_of_nil in Hin.
Qed.

(** The two lists of [validate_environment], entry by entry. *)
Lemma missing_vars_spec env :
  let a := truthy_opt (getenv env "STRIX_LLM") in
  let b := truthy_opt (getenv env "LLM_API_KEY") in
  let h := has_base_url env in
  let p := truthy_opt (getenv env "PERPLEXITY_API_KEY") in
  missing_required_vars env =
    (if a then [] else ["STRIX_LLM"]) ++ (if b || h then [] else ["LLM_API_KEY"])
  ∧ missing_optional_vars env =
    (if negb b && h then ["LLM_API_KEY"] else []) ++
    (if h then [] else ["LLM_API_BASE"]) ++
    (if p then [] else ["PERPLEXITY_API_KEY"]).
Proof.
  intros a b h p. unfold missing_required_vars, missing_optional_vars, missing_vars.
  fold a b h p. by destruct a, b, h, p.
Qed.

Lemma validate_environment_eval env :
  validate_environment env =
    match missing_required_vars env with
    | [] => ([], Ret tt)
    | _ :: _ =>
        ([EvConsole (ConfigErrorPanel (missing_required_vars env)
                       (missing_optional_vars env))], Exit 1%Z)
    end.
Proof. unfold validate_environment. by destruct (missing_required_vars env). Qed.

Lemma required_keys_spec_elem env (key : string) :
  key ∈ required_keys_spec env ↔
  key = "STRIX_LLM" ∨ (key = "LLM_API_KEY" ∧ has_base_url env = false).
Proof.
  unfold required_keys_spec.
  change (existsb (λ name, truthy_opt (getenv env name)) ENDPOINT_OVERRIDES)
    with (has_base_url env).
  destruct (has_base_url env); rewrite elem_of_cons.
  - split; [intros [->|H%elem_of_nil]; [by left|done] | intros [->|[_ ?]]; [by left|done]].
  - rewrite list_elem_of_singleton. split; [intros [->| ->]|intros [->|[-> _]]];
      [by left | by right | by left | by right].
Qed.

Lemma missing_required_vars_spec env :
  missing_required_vars env = List.filter (missing_spec env) (required_keys_spec env).
Proof.
  destruct (missing_vars_spec env) as [-> _].
  unfold required_keys_spec, missing_spec.
  change (existsb (λ name, truthy_opt (getenv env name)) ENDPOINT_OVERRIDES)
    with (has_base_url env).
  cbn [List.filter].
  destruct (truthy_opt (getenv env "STRIX_LLM")), (has_base_url env);
    rewrite ?orb_true_r; cbn [negb app List.filter]; try done;
    destruct (truthy_opt (getenv env "LLM_API_KEY")); done.
Qed.

Lemma validate_environment_exit env :
  outcome (validate_environment env) = Exit 1%Z ↔
  truthy_opt (getenv env "STRIX_LLM") = false
  ∨ (truthy_opt (getenv env "LLM_API_KEY") = false ∧ has_base_url env = false).
Proof.
  rewrite validate_environment_eval. destruct (missing_vars_spec env) as [-> _].
  destruct (truthy_opt (getenv env "STRIX_LLM")),
    (truthy_opt (getenv env "LLM_API_KEY")), (has_base_url env);
    cbn [orb app outcome snd]; split; intros; intuition congruence.
Qed.

Lemma validate_environment_ret env :
  validate_environment env = ret tt ↔
  truthy_opt (getenv env "STRIX_LLM") = true
  ∧ (truthy_opt (getenv env "LLM_API_KEY") = true ∨ has_base_url env = true).
Proof.
  rewrite validate_environment_eval. destruct (missing_vars_spec env) as [-> _].
  destruct (truthy_opt (getenv env "STRIX_LLM")),
    (truthy_opt (getenv env "LLM_API_KEY")), (has_base_url env);
    cbn [orb app]; unfold ret; split; intros; intuition congruence.
Qed.

(** C3: among the missing variables [validate_environment] collects,
    [LLM_API_KEY] is listed as optional exactly when it is empty and one of
    the four endpoint overrides is non-empty, and as required exactly when
    it is empty and none is; each override alone, set to a non-empty value,
    makes the credential optional.  The list of missing required variables
    is the list of the required keys ([STRIX_LLM], and [LLM_API_KEY] unless
    an override is set) that are unset or empty, so [STRIX_LLM] is on it
    exactly when it is empty; the validation exits with status 1 if and
    only if some required key is missing, that is when [STRIX_LLM] is empty
    or [LLM_API_KEY] is empty with no override set, and returns silently
    otherwise. *)
Theorem validate_environment_credential env :
  ("LLM_API_KEY" ∈ missing_required_vars env ↔
     truthy_opt (getenv env "LLM_API_KEY") = false ∧ has_base_url env = false)
  ∧ ("LLM_API_KEY" ∈ missing_optional_vars env ↔
     truthy_opt (getenv env "LLM_API_KEY") = false ∧ has_base_url env = true)
  ∧ (has_base_url env = true ↔
     ∃ name, name ∈ ENDPOINT_OVERRIDES ∧ truthy_opt (getenv env name) = true)
  ∧ (∀ name value, name ∈ ENDPOINT_OVERRIDES → value ≠ EmptyString →
       "LLM_API_KEY" ∈ missing_optional_vars {[name := value]}
       ∧ "LLM_API_KEY" ∉ missing_required_vars {[name := value]})
  ∧ (outcome (validate_environment env) = Exit 1%Z ↔ missing_required_vars env ≠ [])
  ∧ (validate_environment env = ret tt ↔ missing_required_vars env = [])
  ∧ ("STRIX_LLM" ∈ missing_required_vars env ↔
     truthy_opt (getenv env "STRIX_LLM") = false)
  ∧ missing_required_vars env = List.filter (missing_spec env) (required_keys_spec env)
  ∧ (outcome (validate_environment env) = Exit 1%Z ↔
     ∃ key, key ∈ required_keys_spec env ∧ truthy_opt (getenv env key) = false)
  ∧ (outcome (validate_environment env) = Exit 1%Z ↔
     truthy_opt (getenv env "STRIX_LLM") = false
     ∨ (truthy_opt (getenv env "LLM_API_KEY") = false ∧ has_base_url env = false))
  ∧ (validate_environment env = ret tt ↔
     ∀ key, key ∈ required_keys_spec env → truthy_opt (getenv env key) = true).
Proof.
  assert (∀ env,
    ("LLM_API_KEY" ∈ missing_required_vars env ↔
       truthy_opt (getenv env "LLM_API_KEY") = false ∧ has_base_url env = false)
    ∧ ("LLM_API_KEY" ∈ missing_optional_vars env ↔
       truthy_opt (getenv env "LLM_API_KEY") = false ∧ has_base_url env = true)) as Hlists.
  { clear env. intros env. destruct (missing_vars_spec env) as [-> ->].
    destruct (truthy_opt (getenv env "STRIX_LLM")),
      (truthy_opt (getenv env "LLM_API_KEY")), (has_base_url env),
      (truthy_opt (getenv env "PERPLEXITY_API_KEY"));
      cbn [orb andb negb app]; set_unfold; intuition congruence. }
  split; [apply Hlists|]. split; [apply Hlists|].
  split; [apply has_base_url_iff|]. split; [|split; [|split; [|split; [|split]]]].
  - intros name value Hin Hne.
    assert (has_base_url {[name := value]} = true) as Hh'.
    { apply has_base_url_iff. exists name. split; [done|].
      unfold getenv. rewrite lookup_singleton_eq. by apply truthy_true. }
    assert (truthy_opt (getenv {[name := value]} "LLM_API_KEY") = false) as Hk.
    { unfold getenv. rewrite lookup_singleton_ne; [done|].
      intros ->. unfold ENDPOINT_OVERRIDES in Hin. set_solver. }
    split.
    + by apply Hlists.
    + intros [? Hc]%Hlists. congruence.
  - rewrite validate_environment_eval.
    destruct (missing_required_vars env); unfold outcome; cbn [snd];
      split; intros; congruence.
  - rewrite validate_environment_eval.
    destruct (missing_required_vars env); unfold ret;
      split; intros; congruence.
  - destruct (missing_vars_spec env) as [-> _].
    destruct (truthy_opt (getenv env "STRIX_LLM")),
      (truthy_opt (getenv env "LLM_API_KEY")), (has_base_url env);
      cbn [orb app]; set_unfold; intuition congruence.
  - apply missing_required_vars_spec.
  - split; [|split].
    + rewrite validate_environment_exit. split.
      * intros [Ha|[Hb Hu]].
        -- exists "STRIX_LLM". split; [|done]. apply required_keys_spec_elem. by left.
        -- exists "LLM_API_KEY". split; [|done]. apply required_keys_spec_elem. by right.
      * intros (key & [->|[-> Hu]]%required_keys_spec_elem & Hk); [by left | by right].
    + apply validate_environment_exit.
    + rewrite validate_environment_ret. split.
      * intros [Ha Hbu] key [->|[-> Hu]]%required_keys_spec_elem; [done|].
        destruct Hbu; congruence.
      * intros Hall. split.
        -- apply Hall, required_keys_spec_elem. by left.
        -- destruct (has_base_url env) eqn:Hu; [by right|]. left.
           apply Hall, required_keys_spec_elem. by right.
Qed.

Lemma first_nonempty_or (vars : string → option string) :
  first_nonempty vars ENDPOINT_OVERRIDES =
    let chain := py_or (py_or (py_or (vars "LLM_API_BASE") (vars "OPENAI_API_BASE"))
                              (vars "LITELLM_BASE_URL")) (vars "OLLAMA_API_BASE") in
    if truthy_opt chain then chain else None.
Proof.
  cbn [first_nonempty ENDPOINT_OVERRIDES]. unfold py_or.
  destruct (vars "LLM_API_BASE") as [[|??]|], (vars "OPENAI_API_BASE") as [[|??]|],
    (vars "LITELLM_BASE_URL") as [[|??]|], (vars "OLLAMA_API_BASE") as [[|??]|];
    reflexivity.
Qed.

(** C8: the endpoint [warm_up_llm] assigns to [litellm.api_base] and sends
    the request with, and the endpoint [action_save] re-applies, is the
    first non-empty override in the order [LLM_API_BASE],
    [OPENAI_API_BASE], [LITELLM_BASE_URL], [OLLAMA_API_BASE]; with no
    non-empty override [warm_up_llm] leaves [litellm.api_base] as it was. *)
Theorem endpoint_precedence (w : World) env updates l :
  api_base (configure_litellm env l) =
    match first_nonempty (getenv env) ENDPOINT_OVERRIDES with
    | Some url => Some url
    | None => api_base l
    end
  ∧ (∃ model key,
       trace (warm_up_llm w) =
         EvCompletion model key
           match first_nonempty (getenv (environ w)) ENDPOINT_OVERRIDES with
           | Some url => Some url
           | None => api_base (litellm0 w)
           end :: skipn 1 (trace (warm_up_llm w)))
  ∧ reapply_api_base updates l =
    match first_nonempty (updates !!.) ENDPOINT_OVERRIDES with
    | Some url => Some url
    | None =>
        if bool_decide (is_Some (updates !! "LLM_API_BASE"))
           || bool_decide (is_Some (updates !! "OPENAI_API_BASE"))
        then None else api_base l
    end.
Proof.
  assert (∀ env l, api_base (configure_litellm env l) =
    match first_nonempty (getenv env) ENDPOINT_OVERRIDES with
    | Some url => Some url
    | None => api_base l
    end) as Hcfg.
  { clear. intros env l. rewrite first_nonempty_or. cbv zeta.
    unfold configure_litellm. fold (select_api_base env).
    destruct (truthy_opt (select_api_base env)) eqn:Hsel.
    - cbn [api_base]. destruct (select_api_base env); [done | discriminate].
    - by destruct (truthy_opt (getenv env "LLM_API_KEY")). }
  split; [apply Hcfg|]. split.
  - unfold warm_up_llm. rewrite bind_emit. cbn [trace fst skipn].
    rewrite Hcfg. by eexists _, _.
  - rewrite first_nonempty_or. cbv zeta. unfold reapply_api_base, py_or.
    destruct (updates !! "LLM_API_BASE") as [[|??]|],
      (updates !! "OPENAI_API_BASE") as [[|??]|],
      (updates !! "LITELLM_BASE_URL") as [[|??]|],
      (updates !! "OLLAMA_API_BASE") as [[|??]|]; reflexivity.
Qed.

End environment.

(** ** Sequencing in the effect monad *)

Lemma bind_exit {A B} (m : M A) (k : A → M B) (code : Z) :
  outcome m = Exit code → bind m k = (trace m, Exit code).
Proof. destruct m as [tr o]. unfold outcome, trace. simpl. by intros ->. Qed.

Lemma bind_ret_outcome {A B} (m : M A) (k : A → M B) (a : A) :
  outcome m = Ret a → bind m k = (trace m ++ trace (k a), outcome (k a)).
Proof.
  destruct m as [tr o]. unfold outcome, trace. simpl. intros ->.
  by destruct (k a).
Qed.

Lemma bind_assoc {A B C} (m : M A) (k : A → M B) (h : B → M C) :
  bind (bind m k) h = bind m (λ a, bind (k a) h).
Proof.
  destruct m as [tr [a|c|]]; simpl; [|done..].
  destruct (k a) as [tr' [b|c|]]; simpl; [|done..].
  destruct (h b) as [tr'' o]. by rewrite app_assoc.
Qed.

Lemma Forall_trace_bind {A B} (P : Event → Prop) (m : M A) (k : A → M B) :
  Forall P (trace m) →
  (∀ a, outcome m = Ret a → Forall P (trace (k a))) →
  Forall P (trace (bind m k)).
Proof.
  intros Hm Hk. rewrite trace_bind. apply Forall_app. split; [done|].
  destruct (outcome m); auto.
Qed.

Lemma fails_at_bind_l {A B} (g : Stage) (m : M A) (k : A → M B) :
  fails_at g m → fails_at g (bind m k).
Proof.
  intros [Ho Htr]. rewrite (bind_exit m k 1%Z Ho). by split.
Qed.

Lemma fails_at_bind_r {A B} (g : Stage) (m : M A) (k : A → M B) (a : A) :
  outcome m = Ret a → fails_at g (k a) → fails_at g (bind m k).
Proof.
  intros Ho [Hk (tr & e & Htr & He)]. rewrite (bind_ret_outcome m k a Ho).
  split; [done|]. exists (trace m ++ tr), e. cbn [trace fst].
  by rewrite Htr, app_assoc.
Qed.

(** ** Stage order of traces *)

Lemma staged_nil lo hi : staged lo hi [].
Proof. split; [|constructor]. intros i j e1 e2 _ H. by rewrite lookup_nil in H. Qed.

Lemma staged_app lo mid hi tr1 tr2 :
  (lo ≤ mid ≤ hi)%nat → staged lo mid tr1 → staged mid hi tr2 → staged lo hi (tr1 ++ tr2).
Proof.
  intros Hm [Ho1 Hr1] [Ho2 Hr2]. split.
  - intros i j e1 e2 Hij H1 H2.
    destruct (decide (j < length tr1)%nat) as [Hj|Hj].
    + rewrite lookup_app_l in H1 by lia. rewrite lookup_app_l in H2 by lia. eauto.
    + rewrite lookup_app_r in H2 by lia.
      assert (mid ≤ rank e2)%nat.
      { eapply Forall_lookup_1 in Hr2; [|done]. simpl in Hr2. lia. }
      destruct (decide (i < length tr1)%nat) as [Hi|Hi].
      * rewrite lookup_app_l in H1 by lia.
        eapply Forall_lookup_1 in Hr1; [|done]. simpl in Hr1. lia.
      * rewrite lookup_app_r in H1 by lia. eapply Ho2; [|done..]. lia.
  - apply Forall_app. split; (eapply Forall_impl; [done|]); simpl; intros; lia.
Qed.

Lemma staged_same (g : Stage) tr :
  Forall (λ e, stage_of e = g) tr → staged (stage_rank g) (stage_rank g) tr.
Proof.
  intros H. split.
  - intros i j e1 e2 _ H1 H2.
    eapply Forall_lookup_1 in H1; [|done]. eapply Forall_lookup_1 in H2; [|done].
    unfold rank. simpl in *. by rewrite H1, H2.
  - eapply Forall_impl; [done|]. unfold rank. by intros e ->.
Qed.

Lemma staged_weaken lo hi lo' hi' tr :
  (lo' ≤ lo)%nat → (hi ≤ hi')%nat → staged lo hi tr → staged lo' hi' tr.
Proof.
  intros ?? [Ho Hr]. split; [done|].
  eapply Forall_impl; [done|]. simpl; intros; lia.
Qed.

Lemma staged_bind {A B} lo mid hi (m : M A) (k : A → M B) :
  (lo ≤ mid ≤ hi)%nat →
  staged lo mid (trace m) →
  (∀ a, outcome m = Ret a → staged mid hi (trace (k a))) →
  staged lo hi (trace (bind m k)).
Proof.
  intros Hm H1 H2. rewrite trace_bind. apply (staged_app lo mid hi); [done..|].
  destruct (outcome m); auto using staged_nil.
Qed.

(** ** The gates of the orchestrator *)

Section gates.

Import Menu Main.
Local Open Scope py_scope.

Implicit Types (w : World) (args : Namespace).

Lemma check_docker_installed_eval w :
  check_docker_installed w =
    if docker_on_path w then ([EvWhich "docker"], Ret tt)
    else ([EvWhich "docker"; EvConsole DockerNotInstalledPanel], Exit 1%Z).
Proof. unfold check_docker_installed. by destruct (docker_on_path w). Qed.

Lemma check_docker_connection_eval w :
  check_docker_connection w =
    if docker_reachable w then ([EvDockerConnect], Ret tt)
    else ([EvDockerConnect; EvConsole DockerUnavailablePanel], Exit 1%Z).
Proof. unfold check_docker_connection. by destruct (docker_reachable w). Qed.

Lemma gate_check_docker_installed w :
  gate EngineCheck (docker_on_path w) (check_docker_installed w).
Proof.
  rewrite check_docker_installed_eval. unfold gate, fails_at.
  destruct (docker_on_path w); cbn [trace outcome fst snd].
  - split; [by repeat constructor | by exists tt].
  - split; [by repeat constructor |]. split; [done|].
    by exists [EvWhich "docker"], (EvConsole DockerNotInstalledPanel).
Qed.

Lemma gate_check_docker_connection w :
  gate EngineCheck (docker_reachable w) (check_docker_connection w).
Proof.
  rewrite check_docker_connection_eval. unfold gate, fails_at.
  destruct (docker_reachable w); cbn [trace outcome fst snd].
  - split; [by repeat constructor | by exists tt].
  - split; [by repeat constructor |]. split; [done|].
    by exists [EvDockerConnect], (EvConsole DockerUnavailablePanel).
Qed.

(** The loop over the pull stream logs progress lines only, and ends with
    the exception exactly when the stream raises one. *)
Lemma consume_pull_spec w frames layers_info last_update :
  Forall (λ e, ∃ line, e = EvPullLine line)
    (trace (consume_pull w frames layers_info last_update))
  ∧ ∃ r, outcome (consume_pull w frames layers_info last_update) = Ret r
         ∧ match r with
           | inl _ => pull_raises frames = false
           | inr _ => pull_raises frames = true
           end.
Proof.
  revert layers_info last_update.
  induction frames as [|[line|msg] frames IH]; intros layers_info last_update.
  - split; [constructor|]. by exists (inl (layers_info, last_update)).
  - cbn [consume_pull]. rewrite bind_emit. cbn [trace outcome fst snd].
    destruct (IH (process_pull_line w line layers_info last_update).1
                 (process_pull_line w line layers_info last_update).2) as [Htr Hr].
    split; [constructor; [by eexists | done] | done].
  - split; [constructor|]. by exists (inr msg).
Qed.

Lemma pull_docker_image_split w :
  pull_docker_image w = (check_docker_connection w;; provision_image w).
Proof. done. Qed.

Lemma gate_provision_image w :
  gate ImageProvisioning (image_exists w || negb (pull_raises (pull_stream w)))
    (provision_image w).
Proof.
  unfold provision_image. destruct (image_exists w).
  { split; [by repeat constructor | by exists tt]. }
  destruct (consume_pull_spec w (pull_stream w) ∅ EmptyString) as [Htr (r & Hr & Hraise)].
  assert (Forall (λ e, stage_of e = ImageProvisioning)
            (trace (consume_pull w (pull_stream w) ∅ EmptyString))) as Hstage.
  { eapply Forall_impl; [done|]. by intros e [line ->]. }
  unfold console_print. rewrite !bind_emit. cbn [trace outcome fst snd orb].
  rewrite (bind_ret_outcome _ _ r Hr). cbn [trace outcome fst snd].
  destruct r as [v|msg]; rewrite Hraise; cbn [negb].
  - split; [|by exists tt]. cbn [emit trace fst].
    repeat (constructor; [done|]). apply Forall_app. by repeat constructor.
  - rewrite bind_emit. cbn [sys_exit trace outcome fst snd]. split.
    + repeat (constructor; [done|]). apply Forall_app. by repeat constructor.
    + split; [done|].
      exists ([EvImageExists (STRIX_IMAGE w); EvConsole PullBanner; EvStatusOpen;
               EvPullOpen (STRIX_IMAGE w)]
              ++ trace (consume_pull w (pull_stream w) ∅ EmptyString)),
             (EvConsole (PullErrorPanel msg)).
      split; [reflexivity | done].
Qed.

Lemma gate_validate_environment (env : gmap string string) :
  gate CredentialValidation (bool_decide (missing_required_vars env = []))
    (validate_environment env).
Proof.
  rewrite validate_environment_eval.
  destruct (missing_required_vars env) as [|v vs] eqn:Hreq.
  - rewrite bool_decide_eq_true_2 by done. split; [constructor | by exists tt].
  - rewrite bool_decide_eq_false_2 by done. split; [by repeat constructor |].
    split; [done|]. by eexists [], _.
Qed.

Lemma gate_warm_up_llm w :
  gate WarmupProbe
    (completion_ok w (default "openai/gpt-5" (getenv (environ w) "STRIX_LLM"))
       (configure_litellm (environ w) (litellm0 w)))
    (warm_up_llm w).
Proof.
  unfold warm_up_llm. rewrite bind_emit. destruct (completion_ok _ _ _).
  - split; [by repeat constructor | by eexists].
  - split; [by repeat constructor |]. split; [done|]. by eexists [_], _.
Qed.

Lemma clone_repository_eval w repo_url run_name_ dest_name :
  clone_repository w repo_url run_name_ dest_name =
    match clone_result w repo_url run_name_ dest_name with
    | Some cloned_path => ([EvClone repo_url run_name_ dest_name], Ret cloned_path)
    | None => ([EvClone repo_url run_name_ dest_name; EvConsole CloneErrorPanel], Exit 1%Z)
    end.
Proof. unfold clone_repository. by destruct (clone_result _ _ _ _). Qed.

Lemma gate_clone_step w run_name_ ti :
  gate Cloning (negb (clone_fails_for w run_name_ ti)) (clone_step w run_name_ ti).
Proof.
  unfold clone_step, clone_fails_for.
  destruct (String.eqb (type_ ti) "repository"); cbn [andb negb].
  2: { split; [constructor | by eexists]. }
  destruct (details ti !! "target_repo") as [repo_url|]; cbn [negb].
  2: { split; [by repeat constructor |]. split; [done|]. by eexists [], _. }
  rewrite clone_repository_eval.
  destruct (clone_result w repo_url run_name_ _); cbn [negb].
  - split; [by repeat constructor | by eexists].
  - split; [by repeat constructor |]. split; [done|]. by eexists [_], _.
Qed.

Lemma clone_step_calls w run_name_ ti :
  Forall (λ e, ∀ url rn dest, e = EvClone url rn dest →
               type_ ti = "repository" ∧ details ti !! "target_repo" = Some url
               ∧ rn = run_name_ ∧ dest = details ti !! "workspace_subdir")
    (trace (clone_step w run_name_ ti)).
Proof.
  unfold clone_step.
  destruct (String.eqb (type_ ti) "repository") eqn:Hty; [|constructor].
  apply String.eqb_eq in Hty.
  destruct (details ti !! "target_repo") as [repo_url|] eqn:Hrepo.
  2: { by repeat constructor. }
  rewrite clone_repository_eval.
  destruct (clone_result w repo_url run_name_ _);
    repeat constructor; intros; simplify_eq; done.
Qed.

Lemma clone_targets_cons w run_name_ ti infos :
  clone_targets w run_name_ (ti :: infos) =
    (target_info' <- clone_step w run_name_ ti;
     rest' <- clone_targets w run_name_ infos;
     ret (target_info' :: rest')).
Proof. done. Qed.

Lemma gate_bind {A B} (g : Stage) (c1 c2 : bool) (m : M A) (k : A → M B) :
  gate g c1 m → (∀ a, gate g c2 (k a)) → gate g (c1 && c2) (bind m k).
Proof.
  intros [Htr Hm] Hk. split.
  - apply Forall_trace_bind; [done|]. intros a _. apply Hk.
  - destruct c1; cbn [andb].
    + destruct Hm as [a Ha]. destruct (Hk a) as [_ Hka]. destruct c2.
      * destruct Hka as [b Hb]. exists b. by rewrite outcome_bind, Ha.
      * by eapply fails_at_bind_r.
    + by apply fails_at_bind_l.
Qed.

Lemma gate_ret {A} (g : Stage) (a : A) : gate g true (ret a).
Proof. split; [constructor | by exists a]. Qed.

Lemma gate_clone_targets w run_name_ infos :
  gate Cloning (negb (existsb (clone_fails_for w run_name_) infos))
    (clone_targets w run_name_ infos).
Proof.
  induction infos as [|ti infos IH].
  - apply gate_ret.
  - rewrite clone_targets_cons. cbn [existsb]. rewrite negb_orb.
    apply gate_bind; [apply gate_clone_step|]. intros ti'.
    rewrite <- (andb_true_r (negb (existsb _ _))).
    apply gate_bind; [done|]. intros rest'. apply gate_ret.
Qed.

(** Clones are requested for repository targets only, with their
    [target_repo]. *)
Lemma clone_targets_calls w run_name_ infos :
  Forall (λ e, ∀ url rn dest, e = EvClone url rn dest →
               ∃ ti, ti ∈ infos ∧ type_ ti = "repository"
                     ∧ details ti !! "target_repo" = Some url)
    (trace (clone_targets w run_name_ infos)).
Proof.
  induction infos as [|ti infos IH]; [constructor|].
  rewrite clone_targets_cons. apply Forall_trace_bind.
  - eapply Forall_impl; [apply clone_step_calls|]. simpl.
    intros e He url rn dest ->. destruct (He url rn dest eq_refl) as (?&?&_).
    exists ti. split; [by left | done].
  - intros ti' _. apply Forall_trace_bind.
    + eapply Forall_impl; [apply IH|]. simpl.
      intros e He url rn dest ->. destruct (He url rn dest eq_refl) as (t&?&?).
      exists t. split; [by right | done].
    + intros rest' _. constructor.
Qed.

End gates.

(** ** The pre-flight sequence *)

Section preflight.

Import Menu Main.
Local Open Scope py_scope.

Implicit Types (w : World) (args : Namespace).

Lemma gate_staged {A} (g : Stage) (c : bool) (m : M A) :
  gate g c m → staged (stage_rank g) (stage_rank g) (trace m).
Proof. intros [H _]. by apply staged_same. Qed.

Lemma runs_bind {A B} (g : Stage) (c : bool) (ff : option Stage) (m : M A) (k : A → M B) :
  gate g c m → (c = true → ∀ a, runs ff (k a)) →
  runs (if c then ff else Some g) (bind m k).
Proof.
  intros [_ Hm] Hk. destruct c.
  - destruct Hm as [a Ha]. specialize (Hk eq_refl a). destruct ff as [g'|].
    + by eapply fails_at_bind_r.
    + destruct Hk as [r Hr]. exists r. by rewrite outcome_bind, Ha.
  - by apply fails_at_bind_l.
Qed.

(** When a trace in stage order ends with an event, nothing in it belongs
    to a later stage. *)
Lemma in_order_last tr e :
  in_order (tr ++ [e]) → Forall (λ e', (rank e' ≤ rank e)%nat) (tr ++ [e]).
Proof.
  intros Ho. apply Forall_app. split; [|by repeat constructor].
  apply Forall_lookup_2. intros i e' Hi.
  apply (Ho i (length tr) e' e).
  - by eapply lookup_lt_Some.
  - by rewrite lookup_app_l by (by eapply lookup_lt_Some).
  - by rewrite lookup_app_r, Nat.sub_diag by lia.
Qed.

Lemma first_failing_gate_nested w args :
  first_failing_gate w args =
    if docker_on_path w then
      if docker_reachable w then
        if image_exists w || negb (pull_raises (pull_stream w)) then
          if bool_decide (missing_required_vars (environ w) = []) then
            if completion_ok w
                 (default "openai/gpt-5" (getenv (environ w) "STRIX_LLM"))
                 (configure_litellm (environ w) (litellm0 w)) then
              if negb (existsb (clone_fails_for w (effective_run_name w args))
                         (targets_info args))
              then None else Some Cloning
            else Some WarmupProbe
          else Some CredentialValidation
        else Some ImageProvisioning
      else Some EngineCheck
    else Some EngineCheck.
Proof.
  unfold first_failing_gate.
  destruct (docker_on_path w), (docker_reachable w), (image_exists w),
    (pull_raises (pull_stream w)), (bool_decide _), (completion_ok _ _ _),
    (existsb _ _); reflexivity.
Qed.

Lemma preflight_runs w args : runs (first_failing_gate w args) (preflight w args).
Proof.
  rewrite first_failing_gate_nested. unfold preflight.
  apply runs_bind; [apply gate_check_docker_installed|]. intros _ _.
  rewrite pull_docker_image_split, bind_assoc.
  apply runs_bind; [apply gate_check_docker_connection|]. intros _ _.
  apply runs_bind; [apply gate_provision_image|]. intros _ _.
  apply runs_bind; [apply gate_validate_environment|]. intros _ _.
  apply runs_bind; [apply gate_warm_up_llm|]. intros _ _.
  fold (effective_run_name w args).
  apply runs_bind; [apply gate_clone_targets|]. intros _ infos.
  by eexists.
Qed.

Lemma preflight_staged w args :
  staged (stage_rank EngineCheck) (stage_rank Cloning) (trace (preflight w args)).
Proof.
  unfold preflight. cbn [stage_rank].
  apply (staged_bind 1 1 5); [lia | apply (gate_staged _ _ _ (gate_check_docker_installed w)) |].
  intros _ _. apply (staged_bind 1 2 5); [lia | |].
  { rewrite pull_docker_image_split. apply (staged_bind 1 1 2); [lia | |].
    - apply (gate_staged _ _ _ (gate_check_docker_connection w)).
    - intros _ _. apply (staged_weaken 2 2); [lia.. |].
      apply (gate_staged _ _ _ (gate_provision_image w)). }
  intros _ _. apply (staged_bind 2 3 5); [lia | |].
  { apply (staged_weaken 3 3); [lia.. |].
    apply (gate_staged _ _ _ (gate_validate_environment (environ w))). }
  intros _ _. apply (staged_bind 3 4 5); [lia | |].
  { apply (staged_weaken 4 4); [lia.. |].
    apply (gate_staged _ _ _ (gate_warm_up_llm w)). }
  intros _ _. apply (staged_bind 4 5 5); [lia | |].
  { apply (staged_weaken 5 5); [lia.. |].
    apply (gate_staged _ _ _ (gate_clone_targets w _ (targets_info args))). }
  intros infos _. apply staged_nil.
Qed.

Lemma preflight_clone_calls w args :
  Forall (λ e, ∀ url rn dest, e = EvClone url rn dest →
               ∃ ti, ti ∈ targets_info args ∧ type_ ti = "repository"
                     ∧ details ti !! "target_repo" = Some url)
    (trace (preflight w args)).
Proof.
  assert (∀ {A} (m : M A) (g : Stage) (c : bool), g ≠ Cloning → gate g c m →
    Forall (λ e, ∀ url rn dest, e = EvClone url rn dest →
                 ∃ ti, ti ∈ targets_info args ∧ type_ ti = "repository"
                       ∧ details ti !! "target_repo" = Some url) (trace m)) as Hother.
  { intros A m g c Hg [Htr _]. eapply Forall_impl; [done|]. simpl.
    intros e He url rn dest ->. by destruct Hg. }
  unfold preflight.
  apply Forall_trace_bind;
    [eapply Hother; [|apply (gate_check_docker_installed w)]; done|].
  intros _ _. apply Forall_trace_bind.
  { rewrite pull_docker_image_split. apply Forall_trace_bind.
    - eapply Hother; [|apply (gate_check_docker_connection w)]; done.
    - intros _ _. eapply Hother; [|apply (gate_provision_image w)]; done. }
  intros _ _. apply Forall_trace_bind;
    [eapply Hother; [|apply (gate_validate_environment (environ w))]; done|].
  intros _ _. apply Forall_trace_bind;
    [eapply Hother; [|apply (gate_warm_up_llm w)]; done|].
  intros _ _. apply Forall_trace_bind; [apply clone_targets_calls|].
  intros infos _. constructor.
Qed.

Lemma preflight_fails_ranks w args (g : Stage) :
  first_failing_gate w args = Some g →
  outcome (preflight w args) = Exit 1%Z
  ∧ Forall (λ e, (rank e ≤ stage_rank g)%nat) (trace (preflight w args)).
Proof.
  intros Hg. pose proof (preflight_runs w args) as Hruns.
  destruct (preflight_staged w args) as [Horder _]. rewrite Hg in Hruns.
  destruct Hruns as [Hexit (tr & e & Htr & Hfail & Hstage)].
  split; [done|]. rewrite Htr in Horder |- *. rewrite <- Hstage. by apply in_order_last.
Qed.

Lemma preflight_exit_one w args (code : Z) :
  outcome (preflight w args) = Exit code → code = 1%Z.
Proof.
  intros Hcode. pose proof (preflight_runs w args) as Hruns.
  destruct (first_failing_gate w args) as [g|].
  - destruct Hruns as [Hexit _]. congruence.
  - destruct Hruns as [r Hr]. congruence.
Qed.

(** C2: the gates of [main] run in the order container-engine
    availability, image provisioning, credential validation, warm-up probe,
    clone: the trace is in stage order; the run aborts with status 1 at the
    first gate that fails, that gate's diagnostic being the last thing done,
    so nothing of a later gate is in the trace; with no failing gate the
    sequence returns; and clones are requested for repository targets
    only. *)
Theorem preflight_gate_order w args :
  in_order (trace (preflight w args))
  ∧ match first_failing_gate w args with
    | Some g =>
        outcome (preflight w args) = Exit 1%Z
        ∧ (∃ tr e, trace (preflight w args) = tr ++ [e]
                   ∧ is_failure e = true ∧ stage_of e = g)
        ∧ Forall (λ e, (rank e ≤ stage_rank g)%nat) (trace (preflight w args))
    | None => ∃ r, outcome (preflight w args) = Ret r
    end
  ∧ (∀ code, outcome (preflight w args) = Exit code → code = 1%Z)
  ∧ outcome (preflight w args) ≠ Blocked
  ∧ Forall (λ e, ∀ url rn dest, e = EvClone url rn dest →
                 ∃ ti, ti ∈ targets_info args ∧ type_ ti = "repository"
                       ∧ details ti !! "target_repo" = Some url)
      (trace (preflight w args)).
Proof.
  pose proof (preflight_runs w args) as Hruns.
  destruct (preflight_staged w args) as [Horder _].
  split; [done|]. split; [|split; [|split; [|apply preflight_clone_calls]]].
  - destruct (first_failing_gate w args) as [g|]; [|done].
    destruct Hruns as [Hexit (tr & e & Htr & Hfail & Hstage)].
    split; [done|]. split; [by exists tr, e|].
    rewrite Htr in Horder |- *. rewrite <- Hstage. by apply in_order_last.
  - intros code Hcode. destruct (first_failing_gate w args) as [g|].
    + destruct Hruns as [Hexit _]. congruence.
    + destruct Hruns as [r Hr]. congruence.
  - destruct (first_failing_gate w args) as [g|].
    + destruct Hruns as [Hexit _]. congruence.
    + destruct Hruns as [r Hr]. congruence.
Qed.

End preflight.

(** ** Target resolution: flags and interactive menu *)

Section resolution.

Import Menu Main.
Local Open Scope py_scope.

Implicit Types (w : World) (args : Namespace).

Lemma at_stage_bind {A B} (g : Stage) (m : M A) (k : A → M B) :
  at_stage g m → (∀ a, at_stage g (k a)) → at_stage g (bind m k).
Proof. intros Hm Hk. apply Forall_trace_bind; [done|]. intros a _. apply Hk. Qed.

Lemma at_stage_lift {A} (g : Stage) (o : Outcome A) : at_stage g (lift o).
Proof. constructor. Qed.

Lemma at_stage_ret {A} (g : Stage) (a : A) : at_stage g (ret a).
Proof. constructor. Qed.

Lemma exits_within_bind {A B} (codes : list Z) (m : M A) (k : A → M B) :
  exits_within codes m → (∀ a, exits_within codes (k a)) →
  exits_within codes (bind m k).
Proof.
  intros Hm Hk code. rewrite outcome_bind.
  destruct (outcome m) as [a|c|] eqn:Ho; [apply Hk | | done].
  intros [= <-]. by apply Hm.
Qed.

Lemma exits_within_ret {A} (codes : list Z) (a : A) : exits_within codes (ret a).
Proof. by intros code. Qed.

Lemma InteractiveMenuApp_no_exit n_options selected_index keys code :
  InteractiveMenuApp n_options selected_index keys ≠ Exit code.
Proof.
  revert selected_index. induction keys as [|[] keys IH]; intros idx; cbn; try done.
Qed.

Lemma prompt_input_async_no_exit allow_empty script code :
  prompt_input_async allow_empty script ≠ Exit code.
Proof.
  induction script as [|[text|] script IH]; cbn; try done.
  by destruct (on_input_submitted allow_empty text).
Qed.

Lemma follow_up_prompts_no_exit choice script code :
  follow_up_prompts choice script ≠ Exit code.
Proof.
  unfold follow_up_prompts.
  pose proof (prompt_input_async_no_exit true script) as H.
  destruct (choice =? 6)%nat.
  { destruct (prompt_input_async true script) as [[??]|c|]; done. }
  destruct (choice =? 7)%nat; [|done].
  destruct (prompt_input_async true script) as [[cred rest]|c|]; [|done..].
  pose proof (prompt_input_async_no_exit true rest) as H'.
  destruct (prompt_input_async true rest) as [[??]|c|]; done.
Qed.

Lemma exits_within_lift {A} (codes : list Z) (o : Outcome A) :
  (∀ code, o ≠ Exit code) → exits_within codes (lift o).
Proof. intros H code Ho. by destruct (H code). Qed.

(** The multi-target loop prints at most the cancellation message and
    exits, if at all, with status 0. *)
Lemma multi_target_loop_resolution targets script :
  at_stage Resolution (multi_target_loop targets script)
  ∧ exits_within [0%Z] (multi_target_loop targets script).
Proof.
  revert targets. induction script as [|[text|] script IH]; intros targets.
  - split; [constructor | done].
  - cbn [multi_target_loop]. destruct (on_input_submitted true text) as [t|]; [|done].
    destruct (negb (truthy t)); [|done].
    destruct targets; [done|]. split; [constructor | done].
  - cbn [multi_target_loop]. destruct targets.
    + split; [by repeat constructor|]. intros code [= <-]. by left.
    + split; [constructor | done].
Qed.

(** The target loop either resolves every target, or stops at the first
    one [infer_target_type] rejects and runs the error handler on it. *)
Lemma process_targets_spec (infer : string → option (string * gmap string string))
    on_error targets acc :
  (Forall (λ t, is_Some (infer t)) targets
   ∧ ∃ infos, process_targets infer on_error targets acc = ret infos)
  ∨ (∃ t, t ∈ targets ∧ infer t = None
          ∧ process_targets infer on_error targets acc = on_error t).
Proof.
  revert acc. induction targets as [|t targets IH]; intros acc.
  - left. split; [constructor | by eexists].
  - cbn [process_targets]. destruct (infer t) as [[ty dict]|] eqn:Ht.
    + destruct (IH (acc ++ [{| type_ := ty; details := dict;
                               original := display_target t ty dict |}]))
        as [[Hall Hret]|(t' & Hin & Ht' & Heq)].
      * left. split; [|done]. constructor; [by rewrite Ht | done].
      * right. exists t'. split; [by right | done].
    + right. exists t. split; [by left | done].
Qed.

Lemma parser_error_eval {A} message :
  @parser_error A message = ([EvConsole (UsageError message)], Exit 2%Z).
Proof. done. Qed.

Lemma parse_arguments_well_formed w (flags : Flags) :
  parse_arguments w (WellFormed flags) =
    if no_target (flag_target flags) then
      ret {| target := None; targets_info := [];
             instruction := flag_instruction flags;
             run_name := flag_run_name flags;
             non_interactive := flag_non_interactive flags |}
    else
      infos <- process_targets (infer_target_type w)
                 (λ target, parser_error ("Invalid target '" +:+ target +:+ "'"))
                 (default [] (flag_target flags)) [];
      ret {| target := flag_target flags;
             targets_info := assign_workspace_subdirs w infos;
             instruction := flag_instruction flags;
             run_name := flag_run_name flags;
             non_interactive := flag_non_interactive flags |}.
Proof. unfold parse_arguments, parse_args. by rewrite bind_ret_l. Qed.

Lemma parse_arguments_flags_resolution w (flags : Flags) :
  at_stage Resolution (parse_arguments w (WellFormed flags))
  ∧ exits_within [2%Z] (parse_arguments w (WellFormed flags))
  ∧ outcome (parse_arguments w (WellFormed flags)) ≠ Blocked
  ∧ (outcome (parse_arguments w (WellFormed flags)) = Exit 2%Z ↔
     no_target (flag_target flags) = false
     ∧ ∃ t, t ∈ default [] (flag_target flags) ∧ infer_target_type w t = None).
Proof.
  rewrite parse_arguments_well_formed. destruct (no_target (flag_target flags)).
  { split; [constructor|]. repeat split; try done. intros [? _]. done. }
  destruct (process_targets_spec (infer_target_type w)
              (λ target, parser_error ("Invalid target '" +:+ target +:+ "'"))
              (default [] (flag_target flags)) [])
    as [[Hall [infos ->]]|(t & Hin & Ht & ->)].
  - rewrite bind_ret_l. split; [constructor|]. repeat split; try done.
    intros (_ & t & Hin & Ht). eapply Forall_forall in Hall; [|done].
    rewrite Ht in Hall. by destruct Hall.
  - rewrite parser_error_eval. cbn [bind outcome snd].
    split; [by repeat constructor|]. split; [|split; [done|]].
    + intros code [= <-]. by left.
    + split; [|done]. intros _. split; [done|]. by exists t.
Qed.

(** [parse_arguments] on any command line: help exits with status 0; a
    command line argparse rejects, or a target that cannot be classified,
    exits with status 2 through [parser.error]. *)
Lemma parse_arguments_resolution w (argv : CommandLine) :
  at_stage Resolution (parse_arguments w argv)
  ∧ exits_within [0%Z; 2%Z] (parse_arguments w argv)
  ∧ outcome (parse_arguments w argv) ≠ Blocked
  ∧ (outcome (parse_arguments w argv) = Exit 2%Z ↔
     (∃ message, argv = Malformed message)
     ∨ ∃ flags, argv = WellFormed flags
                ∧ no_target (flag_target flags) = false
                ∧ ∃ t, t ∈ default [] (flag_target flags) ∧ infer_target_type w t = None).
Proof.
  destruct argv as [flags| |message].
  - destruct (parse_arguments_flags_resolution w flags) as (Hst & Hex & Hnb & Htwo).
    split; [done|]. split; [|split; [done|]].
    + intros code Hc. apply Hex in Hc. apply list_elem_of_singleton in Hc as ->.
      right. by left.
    + rewrite Htwo. split.
      * intros H. right. by exists flags.
      * intros [[message [=]]|(flags' & [= <-] & H)]. done.
  - split; [by repeat constructor|]. split; [|split; [done|]].
    + intros code [= <-]. by left.
    + split; [done|]. by intros [[message [=]]|(flags & [=] & _)].
  - split; [by repeat constructor|]. split; [|split; [done|]].
    + intros code [= <-]. right. by left.
    + split; [|done]. intros _. left. by exists message.
Qed.

Lemma cancel_resolution {A} :
  at_stage Resolution (console_print Cancelled;; @sys_exit A 0)
  ∧ exits_within [0%Z; 1%Z] (console_print Cancelled;; @sys_exit A 0).
Proof. split; [by repeat constructor|]. intros code [= <-]. by left. Qed.

(** From the selected scenario on, the interactive flow prints at most the
    cancellation message or the diagnostic of an invalid target, and exits,
    if at all, with status 0 or 1. *)
Lemma scenario_flow_resolution infer assign choice script :
  at_stage Resolution (scenario_flow infer assign choice script)
  ∧ exits_within [0%Z; 1%Z] (scenario_flow infer assign choice script).
Proof.
  unfold scenario_flow.
  assert (∀ targets acc,
    at_stage Resolution
      (process_targets infer (λ target, console_print (InvalidTarget target);; sys_exit 1)
         targets acc)
    ∧ exits_within [0%Z; 1%Z]
        (process_targets infer (λ target, console_print (InvalidTarget target);; sys_exit 1)
           targets acc)) as Hproc.
  { intros targets acc.
    destruct (process_targets_spec infer
                (λ target, console_print (InvalidTarget target);; sys_exit 1) targets acc)
      as [[_ [infos ->]]|(t & _ & _ & ->)].
    - split; [constructor | done].
    - split; [by repeat constructor|]. intros code [= <-]. right. by left. }
  split.
  - apply at_stage_bind.
    + destruct (bool_decide _).
      * apply at_stage_bind; [apply multi_target_loop_resolution|].
        intros r. apply at_stage_ret.
      * apply at_stage_bind; [apply at_stage_lift|].
        intros [[[|c cs]|] rest]; cbn [fst]; try apply cancel_resolution.
        apply at_stage_bind; [apply at_stage_lift|]. intros f. apply at_stage_ret.
    + intros collected. apply at_stage_bind; [apply Hproc|].
      intros infos. apply at_stage_ret.
  - apply exits_within_bind.
    + destruct (bool_decide _).
      * apply exits_within_bind.
        { intros code Hcode.
          apply (proj2 (multi_target_loop_resolution [] script)) in Hcode.
          apply list_elem_of_singleton in Hcode as ->. by left. }
        intros r. apply exits_within_ret.
      * apply exits_within_bind.
        { apply exits_within_lift. intros code. apply prompt_input_async_no_exit. }
        intros [[[|c cs]|] rest]; cbn [fst]; try apply cancel_resolution.
        apply exits_within_bind.
        { apply exits_within_lift. intros code. apply follow_up_prompts_no_exit. }
        intros f. apply exits_within_ret.
    + intros collected. apply exits_within_bind; [apply Hproc|].
      intros infos. apply exits_within_ret.
Qed.

Lemma show_interactive_menu_resolution w :
  at_stage Resolution (show_interactive_menu w)
  ∧ exits_within [0%Z; 1%Z] (show_interactive_menu w).
Proof.
  unfold show_interactive_menu, Main.show_interactive_menu_async. split.
  - apply at_stage_bind; [apply at_stage_lift|]. intros [[choice|] keys]; cbn [fst].
    + apply scenario_flow_resolution.
    + apply cancel_resolution.
  - apply exits_within_bind.
    { apply exits_within_lift. intros code. apply InteractiveMenuApp_no_exit. }
    intros [[choice|] keys]; cbn [fst].
    + apply scenario_flow_resolution.
    + apply cancel_resolution.
Qed.

Lemma resolve_args_resolution w (argv : CommandLine) :
  at_stage Resolution (resolve_args w argv)
  ∧ (outcome (resolve_args w argv) = Exit 2%Z ↔
     outcome (parse_arguments w argv) = Exit 2%Z).
Proof.
  destruct (parse_arguments_resolution w argv) as (Hst & Hex & Hnb & _).
  destruct (show_interactive_menu_resolution w) as [Hmst Hmex].
  unfold resolve_args. split.
  - apply at_stage_bind; [done|]. intros a.
    destruct (no_target (target a)); [done | apply at_stage_ret].
  - rewrite outcome_bind.
    destruct (outcome (parse_arguments w argv)) as [a|c|]; [|done..].
    destruct (no_target (target a)); [|done].
    split; [|done]. intros Hc. apply Hmex in Hc.
    apply elem_of_cons in Hc as [Hc|Hc]; [done|].
    by apply list_elem_of_singleton in Hc.
Qed.

Lemma main_split w (argv : CommandLine) :
  main w argv = bind (resolve_args w argv) (run w).
Proof. unfold main, resolve_args. by rewrite bind_assoc. Qed.

End resolution.

(** ** Multi-target collection *)

Section multi_target.

Import Menu.
Local Open Scope py_scope.

Lemma process_targets_resolved (infer : string → option (string * gmap string string))
    on_error targets acc :
  Forall (λ t, is_Some (infer t)) targets →
  ∃ infos, process_targets infer on_error targets acc = ret infos.
Proof.
  intros Hall.
  destruct (process_targets_spec infer on_error targets acc)
    as [[_ Hret]|(t & Hin & Ht & _)]; [done|].
  eapply Forall_forall in Hall; [|done]. rewrite Ht in Hall. by destruct Hall.
Qed.

(** C6: in the multi-target scenarios (choices 4 and 5) blank submissions
    made before the first target are skipped and the prompt stays open; once
    a target is collected, a blank submission or escape ends the loop with
    the targets collected so far, in order, and the flow goes on with them
    and returns its arguments when they can be classified; escape with
    nothing collected prints the cancellation message and exits with
    status 0. *)
Theorem multi_target_collection
    (infer : string → option (string * gmap string string))
    (assign : list TargetInfo → list TargetInfo) (choice : nat)
    (blanks subs : list string) (first : string) (rest : list UserAction) :
  choice ∈ [4; 5]%nat →
  Forall (λ t, strip t = EmptyString) blanks →
  strip first ≠ EmptyString →
  Forall (λ t, strip t ≠ EmptyString) subs →
  multi_target_loop [] (map Submit blanks) = lift Blocked
  ∧ multi_target_loop [] (map Submit blanks ++ Submit first :: map Submit subs)
    = lift Blocked
  ∧ (∀ blank, strip blank = EmptyString →
       multi_target_loop []
         (map Submit blanks ++ Submit first :: map Submit subs ++ Submit blank :: rest)
       = ret (strip first :: map strip subs, rest))
  ∧ multi_target_loop []
      (map Submit blanks ++ Submit first :: map Submit subs ++ Escape :: rest)
    = ret (strip first :: map strip subs, rest)
  ∧ multi_target_loop [] (map Submit blanks ++ Escape :: rest)
    = ([EvConsole Cancelled], Exit 0%Z)
  ∧ scenario_flow infer assign choice (map Submit blanks ++ Escape :: rest)
    = ([EvConsole Cancelled], Exit 0%Z)
  ∧ (Forall (λ t, is_Some (infer t)) (strip first :: map strip subs) →
     ∃ infos,
       scenario_flow infer assign choice
         (map Submit blanks ++ Submit first :: map Submit subs ++ Escape :: rest)
       = ret {| target := Some (strip first :: map strip subs);
                targets_info := assign infos;
                instruction := None;
                run_name := None;
                non_interactive := false |}).
Proof.
  intros Hchoice Hblanks Hfirst Hsubs.
  assert (multi_target_loop []
            (map Submit blanks ++ Submit first :: map Submit subs ++ Escape :: rest)
          = ret (strip first :: map strip subs, rest)) as Hescape.
  { rewrite multi_target_loop_skip_blanks, multi_target_loop_target by done.
    by rewrite multi_target_loop_collect. }
  assert (multi_target_loop [] (map Submit blanks ++ Escape :: rest)
          = ([EvConsole Cancelled], Exit 0%Z)) as Hcancel.
  { by rewrite multi_target_loop_skip_blanks. }
  split; [|split; [|split; [|split; [|split; [|split]]]]]; try done.
  - rewrite <- (app_nil_r (map Submit blanks)).
    by rewrite multi_target_loop_skip_blanks.
  - rewrite multi_target_loop_skip_blanks, multi_target_loop_target by done.
    rewrite <- (app_nil_r (map Submit subs)).
    by rewrite multi_target_loop_collect.
  - intros blank Hblank.
    rewrite multi_target_loop_skip_blanks, multi_target_loop_target by done.
    rewrite multi_target_loop_collect by done. cbn [multi_target_loop app].
    by rewrite on_input_submitted_allow_empty, Hblank.
  - unfold scenario_flow. rewrite bool_decide_eq_true_2 by done.
    by rewrite Hcancel.
  - intros Hall. unfold scenario_flow. rewrite bool_decide_eq_true_2 by done.
    rewrite Hescape, !bind_ret_l. cbn [fst snd].
    destruct (process_targets_resolved infer
                (λ target, console_print (InvalidTarget target);; sys_exit 1)
                (strip first :: map strip subs) [] Hall) as [infos Hinfos].
    exists infos. by rewrite Hinfos, bind_ret_l.
Qed.

Lemma multi_target_collection_witness :
  multi_target_loop []
    (map Submit [" "] ++ Submit "./app" :: map Submit ["https://app.test "] ++ Escape :: [])
  = ret (["./app"; "https://app.test"], []).
Proof.
  apply (proj1 (proj2 (proj2 (proj2
    (multi_target_collection (λ _, None) (λ infos, infos) 4
       [" "] ["https://app.test "] "./app" []
       ltac:(apply (bool_decide_unpack _); vm_compute; reflexivity)
       ltac:(repeat constructor) ltac:(vm_compute; discriminate)
       ltac:(repeat constructor; vm_compute; discriminate)))))).
Defined.

End multi_target.

(** ** The whole run *)

Section whole_run.

Import Menu Main.
Local Open Scope py_scope.

Implicit Types (w : World) (args : Namespace) (flags : Flags) (argv : CommandLine).

(** [main] after the gates: the scan engine, the completion panel, the
    exit status. *)
Lemma scan_and_report w args :
  let tail :=
    ((if non_interactive args then emit EvRunCli else emit EvRunTui);;
     display_completion_message w;;
     if non_interactive args then
       match tracer w with
       | Some t =>
           match vulnerability_reports t with
           | _ :: _ => sys_exit 2
           | [] => ret tt
           end
       | None => ret tt
       end
     else ret tt) in
  at_stage Scan tail
  ∧ outcome tail = if non_interactive args && has_findings w then Exit 2%Z else Ret tt.
Proof.
  unfold has_findings, display_completion_message, console_print.
  destruct (non_interactive args); rewrite !bind_emit; cbn [trace outcome fst snd andb].
  - destruct (tracer w) as [t|]; [destruct (vulnerability_reports t)|];
      (split; [by repeat constructor | done]).
  - split; [by repeat constructor | done].
Qed.

Lemma run_outcome w args :
  outcome (run w args) =
    match first_failing_gate w args with
    | Some _ => Exit 1%Z
    | None => if non_interactive args && has_findings w then Exit 2%Z else Ret tt
    end.
Proof.
  unfold run. rewrite outcome_bind. pose proof (preflight_runs w args) as Hruns.
  destruct (first_failing_gate w args) as [g|].
  - destruct Hruns as [-> _]. done.
  - destruct Hruns as [r ->]. apply scan_and_report.
Qed.

Lemma main_outcome w (argv : CommandLine) :
  outcome (main w argv) =
    match outcome (resolve_args w argv) with
    | Ret args => outcome (run w args)
    | Exit code => Exit code
    | Blocked => Blocked
    end.
Proof. by rewrite main_split, outcome_bind. Qed.

Lemma Forall_at_stage {A} (P : Event → Prop) (g : Stage) (m : M A) :
  (∀ e, stage_of e = g → P e) → at_stage g m → Forall P (trace m).
Proof. intros HP Hm. eapply Forall_impl; [exact Hm | done]. Qed.

Lemma gate_at_stage {A} (g : Stage) (c : bool) (m : M A) : gate g c m → at_stage g m.
Proof. by intros [H _]. Qed.

(** What holds of every event outside image provisioning, and of every
    event of the provisioning itself, holds of the whole trace of
    [main]. *)
Lemma main_trace_outside_provisioning (P : Event → Prop) w argv :
  (∀ e, stage_of e ≠ ImageProvisioning → P e) →
  Forall P (trace (provision_image w)) →
  Forall P (trace (main w argv)).
Proof.
  intros HP Hprov.
  assert (∀ A (m : M A) g, g ≠ ImageProvisioning → at_stage g m → Forall P (trace m))
    as Hstage.
  { intros A m g Hg Hm. eapply Forall_at_stage; [|done]. intros e <-. by apply HP. }
  rewrite main_split. apply Forall_trace_bind.
  { eapply Hstage; [|apply resolve_args_resolution]. done. }
  intros args _. unfold run, preflight. rewrite pull_docker_image_split.
  apply Forall_trace_bind.
  - apply Forall_trace_bind.
    { eapply Hstage; [|apply (gate_at_stage _ _ _ (gate_check_docker_installed w))]. done. }
    intros _ _. apply Forall_trace_bind.
    { apply Forall_trace_bind; [|done].
      eapply Hstage; [|apply (gate_at_stage _ _ _ (gate_check_docker_connection w))]. done. }
    intros _ _. apply Forall_trace_bind.
    { eapply Hstage;
        [|apply (gate_at_stage _ _ _ (gate_validate_environment (environ w)))]. done. }
    intros _ _. apply Forall_trace_bind.
    { eapply Hstage; [|apply (gate_at_stage _ _ _ (gate_warm_up_llm w))]. done. }
    intros _ _. apply Forall_trace_bind; [|constructor].
    eapply Hstage; [|apply (gate_at_stage _ _ _ (gate_clone_targets w _ _))]. done.
  - intros r _. eapply Hstage; [|apply (scan_and_report w args)]. done.
Qed.

(** C9: when the image is present, provisioning consists of the existence
    check alone and [pull_docker_image] returns right after it: no banner,
    no status display, no pull stream and no progress line anywhere in the
    run. *)
Theorem pull_docker_image_image_present w :
  image_exists w = true →
  provision_image w = ([EvImageExists (STRIX_IMAGE w)], Ret tt)
  ∧ pull_docker_image w =
      (check_docker_connection w;; emit (EvImageExists (STRIX_IMAGE w)))
  ∧ Forall (λ e, is_pull_event e = false) (trace (pull_docker_image w))
  ∧ ∀ argv, Forall (λ e, is_pull_event e = false) (trace (main w argv)).
Proof.
  intros Himg.
  assert (provision_image w = ([EvImageExists (STRIX_IMAGE w)], Ret tt)) as Hprov.
  { unfold provision_image. by rewrite Himg. }
  assert (∀ e, stage_of e ≠ ImageProvisioning → is_pull_event e = false) as Hout.
  { intros [| | | | | | | | | |[]]; cbn; congruence. }
  split; [done|]. split; [|split].
  - rewrite pull_docker_image_split, Hprov. done.
  - rewrite pull_docker_image_split. apply Forall_trace_bind.
    + eapply Forall_at_stage;
        [|apply (gate_at_stage _ _ _ (gate_check_docker_connection w))].
      intros e He. apply Hout. by rewrite He.
    + intros _ _. rewrite Hprov. by repeat constructor.
  - intros argv. apply main_trace_outside_provisioning; [done|].
    rewrite Hprov. by repeat constructor.
Qed.

Lemma pull_docker_image_image_present_witness :
  pull_docker_image (sample_world ∅ true None) =
    ([EvDockerConnect; EvImageExists "strix-sandbox"], Ret tt).
Proof.
  rewrite (proj1 (proj2 (pull_docker_image_image_present
                           (sample_world ∅ true None) ltac:(reflexivity)))).
  reflexivity.
Defined.

Lemma rank_after_validation e :
  (rank e ≤ stage_rank CredentialValidation)%nat → is_after_validation e = false.
Proof. destruct e as [| | | | | | | | | |[]]; cbn; intros; first [done | lia]. Qed.

Lemma strix_llm_unset_gate w args :
  truthy_opt (getenv (environ w) "STRIX_LLM") = false →
  ∃ g, first_failing_gate w args = Some g
       ∧ (stage_rank g ≤ stage_rank CredentialValidation)%nat.
Proof.
  intros Hllm.
  assert (bool_decide (missing_required_vars (environ w) = []) = false) as Hreq.
  { apply bool_decide_eq_false_2.
    destruct (missing_vars_spec (environ w)) as [-> _]. by rewrite Hllm. }
  rewrite first_failing_gate_nested, Hreq.
  destruct (docker_on_path w), (docker_reachable w),
    (image_exists w || negb (pull_raises (pull_stream w)));
    eexists; (split; [reflexivity | cbn; lia]).
Qed.

(** C1 (amended): with [STRIX_LLM] unset or empty the run never gets past
    credential validation: once the targets are resolved the process exits
    with status 1, and no LLM request, no clone and no scan is ever
    started; the check for the [docker] program, which comes first in
    [main], has been made by then. *)
Theorem strix_llm_unset_stops_before_warmup w :
  truthy_opt (getenv (environ w) "STRIX_LLM") = false →
  (∀ args,
     outcome (run w args) = Exit 1%Z
     ∧ Forall (λ e, is_after_validation e = false) (trace (run w args))
     ∧ ∃ tr, trace (run w args) = EvWhich "docker" :: tr)
  ∧ (∀ argv, Forall (λ e, is_after_validation e = false) (trace (main w argv)))
  ∧ (∀ argv args,
       outcome (resolve_args w argv) = Ret args → outcome (main w argv) = Exit 1%Z).
Proof.
  intros Hllm.
  assert (∀ args,
     outcome (run w args) = Exit 1%Z
     ∧ Forall (λ e, is_after_validation e = false) (trace (run w args))
     ∧ ∃ tr, trace (run w args) = EvWhich "docker" :: tr) as Hrun.
  { intros args. destruct (strix_llm_unset_gate w args Hllm) as (g & Hg & Hrank).
    destruct (preflight_fails_ranks w args g Hg) as [Hexit Hranks].
    split; [by rewrite run_outcome, Hg|]. unfold run.
    rewrite (bind_exit _ _ _ Hexit). cbn [trace fst]. split.
    - eapply Forall_impl; [exact Hranks|]. simpl. intros e He.
      apply rank_after_validation. lia.
    - unfold preflight. rewrite trace_bind, check_docker_installed_eval.
      destruct (docker_on_path w); cbn [trace fst app]; by eexists. }
  split; [done|]. split.
  - intros argv. rewrite main_split. apply Forall_trace_bind.
    + eapply Forall_at_stage; [|apply resolve_args_resolution].
      intros e He. apply rank_after_validation. unfold rank. rewrite He. cbn. lia.
    + intros args _. apply Hrun.
  - intros argv args Hargs. rewrite main_outcome, Hargs. apply Hrun.
Qed.

Lemma strix_llm_unset_stops_before_warmup_witness :
  outcome (main (sample_world env_without_model true None)
             (WellFormed (sample_flags ["https://app.test"] true))) = Exit 1%Z.
Proof.
  apply (proj2 (proj2 (strix_llm_unset_stops_before_warmup
                         (sample_world env_without_model true None)
                         ltac:(vm_compute; reflexivity)))
           (WellFormed (sample_flags ["https://app.test"] true))
           {| target := Some ["https://app.test"];
              targets_info := [{| type_ := "web_application";
                                  details := {["target_url" := "https://app.test"]};
                                  original := "https://app.test" |}];
              instruction := None; run_name := None; non_interactive := true |}).
  vm_compute. reflexivity.
Defined.

(** C1, as stated, fails: with [STRIX_LLM] unset the engine is contacted,
    the image is looked up and, being absent, pulled, before credential
    validation exits with status 1. *)
Lemma strix_llm_unset_reaches_container_engine :
  let w := sample_world env_without_model false None in
  let argv := WellFormed (sample_flags ["https://app.test"] true) in
  getenv (environ w) "STRIX_LLM" = None
  ∧ main w argv =
      ([EvWhich "docker"; EvDockerConnect; EvImageExists "strix-sandbox";
        EvConsole PullBanner; EvStatusOpen; EvPullOpen "strix-sandbox";
        EvPullLine "layer-1: downloading"; EvPullLine "layer-1: complete";
        EvConsole PullSuccess;
        EvConsole (ConfigErrorPanel ["STRIX_LLM"] ["LLM_API_BASE"; "PERPLEXITY_API_KEY"])],
       Exit 1%Z)
  ∧ existsb is_container_or_network_call (trace (main w argv)) = true.
Proof. vm_compute. repeat split. Qed.

End whole_run.

(** ** Exit status 2 *)

Section exit_status.

Import Menu Main.
Local Open Scope py_scope.

Implicit Types (w : World) (args : Namespace) (flags : Flags) (argv : CommandLine).

(** C7, as stated, fails: a non-interactive run whose scan was
    interrupted ([scan_completed] false, the panel says so) still exits
    with status 2 when a finding was recorded; and the argument parser
    ends the process with status 2, before any gate and without any scan,
    on a target given on the command line that cannot be classified and on
    a command line it rejects. *)
Lemma exit_two_without_completed_scan :
  (let w := sample_world env_configured true (Some interrupted_tracer) in
   let argv := WellFormed (sample_flags ["https://app.test"] true) in
   scan_completed w = false
   ∧ main w argv =
       ([EvWhich "docker"; EvDockerConnect; EvImageExists "strix-sandbox";
         EvCompletion "openai/gpt-5" (Some "sk-test") None; EvRunCli;
         EvConsole (CompletionPanel false true)],
        Exit 2%Z))
  ∧ (let w := sample_world env_configured true None in
     let argv := WellFormed (sample_flags ["https://app.test"; "???"] true) in
     main w argv = ([EvConsole (UsageError "Invalid target '???'")], Exit 2%Z))
  ∧ (let w := sample_world env_configured true None in
     let argv := Malformed "unrecognized arguments: --fast" in
     main w argv
     = ([EvConsole (UsageError "unrecognized arguments: --fast")], Exit 2%Z)).
Proof. vm_compute. repeat split. Qed.

(** C7 (amended): once the gates have passed and the scan engine has
    returned, the process exits with status 2 exactly when the run is
    non-interactive and the tracer holds at least one vulnerability report,
    whatever [scan_completed] says, and a non-interactive run without
    findings ends with status 0; no gate and no path of the interactive
    menu exits with status 2; the only other exits with status 2 are the
    usage errors of the argument parser: on a command line
    [parser.parse_args] rejects, and on a target it cannot classify. *)
Theorem exit_status_two w argv :
  (∀ args, outcome (run w args) = Exit 2%Z ↔
           first_failing_gate w args = None
           ∧ non_interactive args = true ∧ has_findings w = true)
  ∧ (∀ args, first_failing_gate w args = None ∧ non_interactive args = true
             ∧ has_findings w = false ↔
             non_interactive args = true ∧ exit_status (run w args) = Some 0%Z)
  ∧ (∀ args, outcome (preflight w args) ≠ Exit 2%Z)
  ∧ outcome (show_interactive_menu w) ≠ Exit 2%Z
  ∧ (outcome (parse_arguments w argv) = Exit 2%Z ↔
     (∃ message, argv = Malformed message)
     ∨ ∃ flags, argv = WellFormed flags
                ∧ no_target (flag_target flags) = false
                ∧ ∃ t, t ∈ default [] (flag_target flags) ∧ infer_target_type w t = None)
  ∧ (outcome (main w argv) = Exit 2%Z ↔
     outcome (parse_arguments w argv) = Exit 2%Z
     ∨ ∃ args, outcome (resolve_args w argv) = Ret args
               ∧ first_failing_gate w args = None
               ∧ non_interactive args = true ∧ has_findings w = true).
Proof.
  assert (∀ args, outcome (run w args) = Exit 2%Z ↔
           first_failing_gate w args = None
           ∧ non_interactive args = true ∧ has_findings w = true) as Hrun.
  { intros args. rewrite run_outcome.
    destruct (first_failing_gate w args) as [g|].
    - split; [done | by intros [? _]].
    - destruct (non_interactive args), (has_findings w); cbn [andb];
        split; try done; intros (_ & ? & ?); done. }
  split; [done|]. split; [|split; [|split; [|split]]].
  - intros args. unfold exit_status. rewrite run_outcome.
    destruct (first_failing_gate w args) as [g|].
    + split; [by intros [? _] | by intros [_ ?]].
    + destruct (non_interactive args), (has_findings w); cbn [andb];
        split; try done; try (by intros (_ & ? & ?)); by intros [? ?].
  - intros args Hc. by apply (preflight_exit_one w args) in Hc.
  - intros Hc. apply show_interactive_menu_resolution in Hc.
    apply elem_of_cons in Hc as [Hc|Hc]; [done|].
    by apply list_elem_of_singleton in Hc.
  - apply parse_arguments_resolution.
  - rewrite main_outcome.
    destruct (resolve_args_resolution w argv) as [_ Hres].
    destruct (outcome (resolve_args w argv)) as [args|code|] eqn:Ho.
    + rewrite Hrun. split.
      * intros H. right. by exists args.
      * intros [Hp|(args' & [= <-] & H)]; [|done].
        apply Hres in Hp. done.
    + split.
      * intros [= ->]. left. by apply Hres.
      * intros [Hp|(args' & ? & _)]; [|done]. apply Hres in Hp. by injection Hp as ->.
    + split; [done|]. intros [Hp|(args' & ? & _)]; [|done]. by apply Hres in Hp.
Qed.

End exit_status.

(** * Further properties *)

(** ** The configuration store, line by line *)

Section config_store_file.

Import ConfigManager.

Implicit Types (st : store) (config updates env : gmap string string) (k key : string).

Local Arguments load_config : simpl never.

Lemma save_config_file st config k :
  ensure_config_dir (save_config st config) !! k =
    match config !! k with
    | Some v => Some (Some v)
    | None => ensure_config_dir st !! k
    end.
Proof.
  unfold save_config. cbn [ensure_config_dir].
  rewrite set_key_loop, lookup_union, lookup_fmap.
  destruct (config !! k) as [v|]; cbn.
  - by destruct (ensure_config_dir st !! k).
  - by rewrite (left_id_L None union).
Qed.

Lemma set_value_unfold st key value :
  set_value st key value
  = save_config (load_config st).2 (<[key := value]> (load_config st).1).
Proof. unfold set_value. by destruct (load_config st). Qed.

Lemma update_config_unfold st updates :
  update_config st updates
  = save_config (load_config st).2 (updates ∪ (load_config st).1).
Proof. unfold update_config. by destruct (load_config st). Qed.

Lemma update_config_file st updates k :
  ensure_config_dir (update_config st updates) !! k =
    match updates !! k with
    | Some v => Some (Some v)
    | None => ensure_config_dir st !! k
    end.
Proof.
  rewrite update_config_unfold.
  rewrite save_config_file, lookup_union, load_config_lookup, load_config_store.
  cbn [ensure_config_dir].
  destruct (updates !! k) as [v|].
  - by destruct (ensure_config_dir st !! k ≫= id).
  - rewrite (left_id_L None union).
    destruct (ensure_config_dir st !! k) as [[v|]|]; done.
Qed.

(** X1: a value written with [set_value] is what [get_value] then returns
    for that key, the empty value included, and every other key reads as
    before. *)
Theorem set_value_then_get_value st key value k dflt :
  (get_value (set_value st key value) k dflt).1 =
    if decide (k = key) then value else (get_value st k dflt).1.
Proof.
  rewrite !get_value_load. cbn [fst].
  rewrite set_value_unfold, save_config_lookup, load_config_idem.
  destruct (decide (k = key)) as [->|Hne].
  - by rewrite lookup_insert_eq.
  - rewrite lookup_insert_ne by congruence. by destruct (_ !! k).
Qed.

(** X2: reading never fails and never changes what is stored: for a missing
    file, a missing key or a key without a value [get_value] returns the
    default, otherwise the stored value; the bindings of the file are the
    same afterwards, a missing file having become an empty one. *)
Theorem get_value_or_default st k dflt :
  (get_value st k dflt).1 =
    match ensure_config_dir st !! k with
    | Some (Some v) => v
    | _ => dflt
    end
  ∧ ensure_config_dir (get_value st k dflt).2 = ensure_config_dir st
  ∧ get_value None k dflt = (dflt, Some ∅).
Proof.
  rewrite get_value_load. cbn [fst snd]. split; [|split].
  - rewrite load_config_lookup. by destruct (ensure_config_dir st !! k) as [[v|]|].
  - done.
  - rewrite get_value_load, load_config_lookup, load_config_store.
    cbn [ensure_config_dir]. by rewrite lookup_empty.
Qed.

(** X3: after [update_config] every key of the update is bound to its new
    value and every other key is bound as it was, a key without a value
    included; no key is ever removed.  This is a statement about the
    bindings, not about which lines are written: [save_config] is handed
    the whole merged record, so [set_key] is called for every key of the
    update and for every key that had a value, the latter with the value
    just read. *)
Theorem update_config_bindings st updates :
  (∀ k, ensure_config_dir (update_config st updates) !! k =
          match updates !! k with
          | Some v => Some (Some v)
          | None => ensure_config_dir st !! k
          end)
  ∧ dom (ensure_config_dir st) ⊆ dom (ensure_config_dir (update_config st updates))
  ∧ ∃ record : gmap string string,
      update_config st updates = save_config (Some (ensure_config_dir st)) record
      ∧ ∀ k, record !! k =
               match updates !! k with
               | Some v => Some v
               | None => ensure_config_dir st !! k ≫= id
               end.
Proof.
  split; [intros k; apply update_config_file|]. split.
  - intros j. rewrite !elem_of_dom, update_config_file.
    by destruct (updates !! j).
  - exists (updates ∪ (load_config st).1). split.
    + by rewrite update_config_unfold, load_config_store.
    + intros k. rewrite lookup_union, load_config_lookup.
      destruct (updates !! k) as [v|].
      * by destruct (ensure_config_dir st !! k ≫= id).
      * by rewrite (left_id_L None union).
Qed.

Lemma update_config_Some st updates :
  update_config st updates = Some (ensure_config_dir (update_config st updates)).
Proof. unfold update_config. by destruct (load_config st). Qed.

(** X4: two updates in a row leave the file as the single update with the
    second laid over the first does. *)
Theorem update_config_compose st (updates1 updates2 : gmap string string) :
  update_config (update_config st updates1) updates2
  = update_config st (updates2 ∪ updates1).
Proof.
  rewrite (update_config_Some (update_config st updates1)),
    (update_config_Some st (updates2 ∪ updates1)).
  f_equal. apply map_eq; intros k.
  rewrite !update_config_file, lookup_union.
  destruct (updates2 !! k) as [v2|], (updates1 !! k) as [v1|]; done.
Qed.

Lemma apply_to_environment_store st env :
  load_config (apply_to_environment st env).2 = load_config st.
Proof.
  unfold apply_to_environment. destruct (load_config st) as [config st'] eqn:Hl.
  cbn [snd]. assert (st' = (load_config st).2) as -> by (by rewrite Hl).
  by rewrite load_config_idem, Hl.
Qed.

(** X5: applying the configuration to the environment a second time changes
    nothing, and applying it leaves the stored record as it was. *)
Theorem apply_to_environment_idempotent st env :
  (apply_to_environment (apply_to_environment st env).2 (apply_to_environment st env).1).1
  = (apply_to_environment st env).1
  ∧ load_config (apply_to_environment st env).2 = load_config st.
Proof.
  split; [|apply apply_to_environment_store]. apply map_eq; intros k.
  rewrite apply_to_environment_lookup, apply_to_environment_store,
    apply_to_environment_lookup.
  destruct ((load_config st).1 !! k) as [v|]; [|done].
  by destruct (truthy v).
Qed.

End config_store_file.

(** ** The menu and the prompts *)

Section menu_navigation.

Import Menu.
Local Open Scope py_scope.

(** X6: the choice the menu returns is the number of one of its options,
    between 1 and their count. *)
Theorem InteractiveMenuApp_choice_in_range
    (n_options selected_index : nat) (keys rest : list MenuKey) (choice : nat) :
  (selected_index < n_options)%nat →
  InteractiveMenuApp n_options selected_index keys = Ret (Some choice, rest) →
  (1 ≤ choice ≤ n_options)%nat.
Proof.
  revert selected_index. induction keys as [|key keys IH]; intros idx Hidx; [done|].
  destruct key; cbn [InteractiveMenuApp].
  - apply IH. destruct (0 <? idx)%nat; lia.
  - apply IH. destruct (idx <? n_options - 1)%nat eqn:Hlt; [|done].
    apply Nat.ltb_lt in Hlt. lia.
  - intros [= <- _]. lia.
  - done.
Qed.

Lemma InteractiveMenuApp_choice_in_range_witness : (1 ≤ 2 ≤ 7)%nat.
Proof.
  apply (InteractiveMenuApp_choice_in_range 7 0 [KeyDown; KeyEnter] [] 2);
    [lia | reflexivity].
Defined.

Lemma InteractiveMenuApp_downs (n_options selected_index k : nat) (keys : list MenuKey) :
  (selected_index ≤ n_options - 1)%nat →
  InteractiveMenuApp n_options selected_index (replicate k KeyDown ++ keys)
  = InteractiveMenuApp n_options (Nat.min (selected_index + k) (n_options - 1)) keys.
Proof.
  revert selected_index. induction k as [|k IH]; intros idx Hidx.
  - cbn [replicate app]. by rewrite Nat.add_0_r, Nat.min_l.
  - cbn [replicate app InteractiveMenuApp].
    destruct (idx <? n_options - 1)%nat eqn:Hlt.
    + apply Nat.ltb_lt in Hlt. rewrite IH by lia. f_equal. lia.
    + apply Nat.ltb_ge in Hlt. rewrite IH by lia. f_equal. lia.
Qed.

Lemma InteractiveMenuApp_ups (n_options k : nat) (keys : list MenuKey) :
  InteractiveMenuApp n_options 0 (replicate k KeyUp ++ keys)
  = InteractiveMenuApp n_options 0 keys.
Proof. induction k as [|k IH]; [done|]. cbn [replicate app InteractiveMenuApp]. done. Qed.

(** X7: the selection does not wrap around: [k] presses of the down key from
    the first option followed by enter select option [min (k+1) n], and the
    up key at the first option stays there; quitting returns no choice
    wherever the selection is. *)
Theorem InteractiveMenuApp_navigation (n_options k : nat) (rest : list MenuKey) :
  InteractiveMenuApp n_options 0 (replicate k KeyDown ++ KeyEnter :: rest)
  = Ret (Some (Nat.min k (n_options - 1) + 1)%nat, rest)
  ∧ InteractiveMenuApp n_options 0 (replicate k KeyUp ++ KeyEnter :: rest)
    = Ret (Some 1%nat, rest)
  ∧ InteractiveMenuApp n_options 0 (replicate k KeyDown ++ KeyQuit :: rest)
    = Ret (None, rest).
Proof.
  split; [|split].
  - by rewrite InteractiveMenuApp_downs by lia.
  - by rewrite InteractiveMenuApp_ups.
  - by rewrite InteractiveMenuApp_downs by lia.
Qed.

Lemma prompt_input_async_skip_blanks (blanks : list string) (script : list UserAction) :
  Forall (λ t, strip t = EmptyString) blanks →
  prompt_input_async false (map Submit blanks ++ script) = prompt_input_async false script.
Proof.
  induction 1 as [|t blanks Ht _ IH]; [done|].
  cbn [map app prompt_input_async]. unfold on_input_submitted. by rewrite Ht.
Qed.

Lemma prompt_input_async_nonempty (script rest : list UserAction) (value : string) :
  prompt_input_async false script = Ret (Some value, rest) →
  value ≠ EmptyString ∧ ∃ text, Submit text ∈ script ∧ value = strip text.
Proof.
  induction script as [|[text|] script IH]; cbn [prompt_input_async]; [done| |done].
  unfold on_input_submitted. rewrite andb_true_r.
  destruct (truthy (strip text)) eqn:Htruthy; cbn [negb].
  - intros [= <- _]. split; [by apply truthy_true|]. exists text. split; [by left | done].
  - intros H. destruct (IH H) as [Hne (text' & Hin & ->)].
    split; [done|]. exists text'. split; [by right | done].
Qed.

(** X8: a prompt that does not allow the empty answer never returns one:
    blank submissions leave it open, and the value it returns is the
    stripped, non-empty text of one of the submissions. *)
Theorem prompt_input_async_required
    (blanks : list string) (script rest : list UserAction) (value : string) :
  Forall (λ t, strip t = EmptyString) blanks →
  prompt_input_async false (map Submit blanks ++ script) = Ret (Some value, rest) →
  value ≠ EmptyString
  ∧ prompt_input_async false script = Ret (Some value, rest)
  ∧ ∃ text, Submit text ∈ script ∧ value = strip text.
Proof.
  intros Hblanks. rewrite prompt_input_async_skip_blanks by done. intros H.
  destruct (prompt_input_async_nonempty script rest value H) as [Hne Htext].
  done.
Qed.

Lemma prompt_input_async_required_witness :
  "./app" ≠ EmptyString
  ∧ prompt_input_async false [Submit " ./app "; Escape] = Ret (Some "./app", [Escape])
  ∧ ∃ text, Submit text ∈ [Submit " ./app "; Escape] ∧ "./app" = strip text.
Proof.
  apply (prompt_input_async_required ["  "] [Submit " ./app "; Escape] [Escape] "./app").
  - repeat constructor.
  - vm_compute. reflexivity.
Defined.

End menu_navigation.

(** ** The target loop and the scenarios *)

Section scenarios.

Import Menu.
Local Open Scope py_scope.

Implicit Types (infer : string → option (string * gmap string string))
  (assign : list TargetInfo → list TargetInfo).

Lemma process_targets_eval infer on_error (targets : list string) (acc : list TargetInfo) :
  process_targets infer on_error targets acc =
    match first_rejected infer targets with
    | Some t => on_error t
    | None => ret (acc ++ omap (target_info_of infer) targets)
    end.
Proof.
  revert acc. induction targets as [|t targets IH]; intros acc.
  - cbn. by rewrite app_nil_r.
  - cbn [process_targets first_rejected omap list_omap]. unfold target_info_of at 1.
    destruct (infer t) as [[ty dict]|]; [|done].
    rewrite IH. destruct (first_rejected infer targets); [done|].
    by rewrite <- app_assoc.
Qed.

Lemma first_rejected_None infer (targets : list string) :
  first_rejected infer targets = None →
  Forall2 (λ t info, target_info_of infer t = Some info)
    targets (omap (target_info_of infer) targets).
Proof.
  induction targets as [|t targets IH]; cbn [first_rejected omap list_omap]; [constructor|].
  unfold target_info_of at 2 3. destruct (infer t) as [[ty dict]|] eqn:Ht; [|done].
  intros H. constructor; [|by apply IH].
  unfold target_info_of. by rewrite Ht.
Qed.

Lemma first_rejected_Some infer (targets : list string) (t : string) :
  first_rejected infer targets = Some t →
  ∃ pre post, targets = pre ++ t :: post
              ∧ Forall (λ t', is_Some (infer t')) pre ∧ infer t = None.
Proof.
  induction targets as [|t' targets IH]; cbn [first_rejected]; [done|].
  destruct (infer t') as [p|] eqn:Ht'.
  - intros H. destruct (IH H) as (pre & post & -> & Hpre & Ht).
    exists (t' :: pre), post. split; [done|]. split; [|done].
    constructor; [by rewrite Ht' | done].
  - intros [= <-]. exists [], targets. split; [done|]. split; [constructor | done].
Qed.

(** X9: the target loop builds one entry per target, in order, with the type
    and details [infer_target_type] gave and the displayed target as
    [original]; when a target is rejected, the error handler runs on the
    first such target and no entry is returned. *)
Theorem process_targets_in_order infer on_error (targets : list string) :
  match first_rejected infer targets with
  | Some t =>
      process_targets infer on_error targets [] = on_error t
      ∧ ∃ pre post, targets = pre ++ t :: post
                    ∧ Forall (λ t', is_Some (infer t')) pre ∧ infer t = None
  | None =>
      ∃ infos, process_targets infer on_error targets [] = ret infos
               ∧ Forall2 (λ t info, ∃ target_type target_dict,
                            infer t = Some (target_type, target_dict)
                            ∧ info = {| type_ := target_type;
                                        details := target_dict;
                                        original :=
                                          display_target t target_type target_dict |})
                   targets infos
  end.
Proof.
  rewrite process_targets_eval.
  destruct (first_rejected infer targets) as [t|] eqn:Hfirst.
  - split; [done|]. by apply first_rejected_Some.
  - eexists. split; [reflexivity|]. cbn [app].
    eapply Forall2_impl; [by apply first_rejected_None|].
    intros t info. unfold target_info_of.
    destruct (infer t) as [[ty dict]|]; [|done].
    intros [= <-]. by exists ty, dict.
Qed.

(** X10: in a single-target scenario without follow-up prompts (choices 1,
    2 and 3) blank submissions leave the target prompt open; the first
    non-blank submission, stripped, is the one target of the run, with no
    instruction and nothing more read from the user; escape at the prompt
    prints the cancellation message and exits with status 0; a target that
    cannot be classified exits with status 1 after naming it. *)
Theorem scenario_flow_single_target infer assign (choice : nat)
    (blanks : list string) (text : string) (rest : list UserAction) :
  choice ∈ [1; 2; 3]%nat →
  Forall (λ t, strip t = EmptyString) blanks →
  strip text ≠ EmptyString →
  scenario_flow infer assign choice (map Submit blanks ++ Escape :: rest)
  = ([EvConsole Cancelled], Exit 0%Z)
  ∧ scenario_flow infer assign choice (map Submit blanks ++ Submit text :: rest)
    = match infer (strip text) with
      | Some (target_type, target_dict) =>
          ret {| target := Some [strip text];
                 targets_info :=
                   assign [{| type_ := target_type;
                              details := target_dict;
                              original :=
                                display_target (strip text) target_type target_dict |}];
                 instruction := None;
                 run_name := None;
                 non_interactive := false |}
      | None => ([EvConsole (InvalidTarget (strip text))], Exit 1%Z)
      end.
Proof.
  intros Hchoice Hblanks Htext.
  assert (bool_decide (choice ∈ [4; 5]%nat) = false) as Hmulti.
  { apply bool_decide_eq_false_2. set_unfold. lia. }
  assert (follow_up_prompts choice rest = Ret (None, rest)) as Hfollow.
  { unfold follow_up_prompts.
    assert ((choice =? 6)%nat = false) as -> by (apply Nat.eqb_neq; set_unfold; lia).
    by assert ((choice =? 7)%nat = false) as -> by (apply Nat.eqb_neq; set_unfold; lia). }
  unfold scenario_flow. rewrite Hmulti, !prompt_input_async_skip_blanks by done.
  split; [done|].
  cbn [prompt_input_async]. unfold on_input_submitted. rewrite andb_true_r.
  apply truthy_true in Htext as Htruthy. rewrite Htruthy. cbn [negb].
  rewrite bind_lift_ret. cbn [fst snd].
  destruct (strip text) as [|c cs] eqn:Hstrip; [done|].
  rewrite Hfollow, bind_lift_ret, bind_ret_l. cbn [fst snd].
  rewrite process_targets_eval. cbn [first_rejected omap list_omap].
  unfold target_info_of. destruct (infer (String c cs)) as [[ty dict]|]; [|done].
  by rewrite bind_ret_l.
Qed.

Lemma scenario_flow_single_target_witness :
  scenario_flow (λ _, None) (λ infos, infos) 2 (map Submit [" "] ++ Escape :: [])
  = ([EvConsole Cancelled], Exit 0%Z).
Proof.
  apply (proj1 (scenario_flow_single_target (λ _, None) (λ infos, infos) 2
                  [" "] "https://github.com/org/repo" []
                  ltac:(apply (bool_decide_unpack _); vm_compute; reflexivity)
                  ltac:(repeat constructor)
                  ltac:(vm_compute; discriminate))).
Defined.

(** X11: escape at a follow-up prompt (the instruction of choice 6, the
    credentials and the instructions of choice 7) does not cancel the run:
    it counts as a blank answer, and the flow returns its arguments, with no
    instruction when every follow-up prompt was left that way. *)
Theorem follow_up_escape_is_blank infer assign (choice : nat)
    (text : string) (a : UserAction) (rest : list UserAction) :
  choice ∈ [6; 7]%nat →
  strip text ≠ EmptyString →
  is_Some (infer (strip text)) →
  follow_up_prompts choice (Escape :: rest)
  = follow_up_prompts choice (Submit EmptyString :: rest)
  ∧ follow_up_prompts 7 (a :: Escape :: rest)
    = follow_up_prompts 7 (a :: Submit EmptyString :: rest)
  ∧ ∃ infos,
      scenario_flow infer assign choice (Submit text :: Escape :: Escape :: rest)
      = ret {| target := Some [strip text];
               targets_info := assign infos;
               instruction := None;
               run_name := None;
               non_interactive := false |}.
Proof.
  intros Hchoice Htext [[ty dict] Hinfer].
  assert (bool_decide (choice ∈ [4; 5]%nat) = false) as Hmulti.
  { apply bool_decide_eq_false_2. set_unfold. lia. }
  assert (choice = 6 ∨ choice = 7)%nat as Hc by (set_unfold; lia).
  split; [|split].
  - unfold follow_up_prompts. by destruct Hc as [-> | ->].
  - unfold follow_up_prompts. cbn [Nat.eqb].
    rewrite !prompt_input_async_allow_empty. done.
  - unfold scenario_flow. rewrite Hmulti.
    cbn [prompt_input_async]. unfold on_input_submitted at 1. rewrite andb_true_r.
    apply truthy_true in Htext as Htruthy. rewrite Htruthy. cbn [negb].
    rewrite bind_lift_ret. cbn [fst snd].
    destruct (strip text) as [|c cs] eqn:Hstrip; [done|].
    assert (∃ rest', follow_up_prompts choice (Escape :: Escape :: rest)
                     = Ret (None, rest')) as [rest' ->].
    { unfold follow_up_prompts. destruct Hc as [-> | ->]; by eexists. }
    rewrite bind_lift_ret, bind_ret_l. cbn [fst snd].
    rewrite process_targets_eval. cbn [first_rejected omap list_omap].
    unfold target_info_of. rewrite Hinfer. rewrite bind_ret_l. by eexists.
Qed.

Lemma follow_up_escape_is_blank_witness :
  follow_up_prompts 7 (Escape :: []) = follow_up_prompts 7 (Submit EmptyString :: []).
Proof.
  apply (proj1 (follow_up_escape_is_blank
                  (λ t, Some ("web_application", {["target_url" := t]}))
                  (λ infos, infos) 7 "https://app.test" Escape []
                  ltac:(apply (bool_decide_unpack _); vm_compute; reflexivity)
                  ltac:(vm_compute; discriminate)
                  ltac:(by eexists))).
Defined.

End scenarios.

(** ** The menu of menu.py and its settings entry *)

Section menu_with_settings.

Import ConfigManager Menu.
Local Open Scope py_scope.

Local Arguments load_config : simpl never.

Lemma show_configuration_async_returns (session : ConfigSession) (app : AppState) :
  ∃ r, outcome (show_configuration_async session app) = Ret r.
Proof. destruct session; by eexists. Qed.

Lemma menu_loop_range (selected_index : nat) (keys : list MenuKey)
    (sessions : list ConfigSession) (app : AppState) :
  (selected_index < 8)%nat →
  match outcome (menu_loop selected_index keys sessions app) with
  | Ret (Some choice, _) => (1 ≤ choice ≤ 7)%nat
  | Ret (None, _) => True
  | Exit _ => False
  | Blocked => True
  end.
Proof.
  revert selected_index sessions app.
  induction keys as [|key keys IH]; intros idx sessions app Hidx; [done|].
  destruct key; cbn [menu_loop].
  - apply IH. destruct (0 <? idx)%nat; lia.
  - apply IH. destruct (idx <? 8 - 1)%nat eqn:Hlt; [|done].
    apply Nat.ltb_lt in Hlt. lia.
  - destruct (idx + 1 =? 8)%nat eqn:Heq.
    + destruct sessions as [|session sessions]; [done|].
      rewrite outcome_bind.
      destruct (show_configuration_async_returns session app) as [r ->].
      apply IH. lia.
    + apply Nat.eqb_neq in Heq. cbn. lia.
  - done.
Qed.

(** X12: the loop around the menu of [menu.py] never leaves with the
    settings entry and never exits the process: it returns one of the
    scenarios 1 to 7, or nothing when the menu is quit. *)
Theorem menu_loop_returns_scenario (keys : list MenuKey) (sessions : list ConfigSession)
    (app : AppState) :
  (∀ code, outcome (menu_loop 0 keys sessions app) ≠ Exit code)
  ∧ (∀ choice app', outcome (menu_loop 0 keys sessions app) = Ret (Some choice, app') →
                    (1 ≤ choice ≤ 7)%nat).
Proof.
  pose proof (menu_loop_range 0 keys sessions app ltac:(lia)) as H.
  split.
  - intros code Hc. by rewrite Hc in H.
  - intros choice app' Hc. by rewrite Hc in H.
Qed.

Lemma show_configuration_async_quit (app : AppState) :
  ∃ app', show_configuration_async QuitConfig app = ret (false, app')
          ∧ load_config (config_store app') = load_config (config_store app)
          ∧ os_environ app' = os_environ app ∧ litellm app' = litellm app.
Proof. eexists. split; [reflexivity|]. cbn. by rewrite load_config_idem. Qed.

(** X13: opening the settings screen and leaving it without saving, any
    number of times, prints nothing and changes neither the stored record,
    nor the environment, nor the [litellm] settings. *)
Theorem menu_loop_without_saving (selected_index : nat) (keys : list MenuKey)
    (sessions : list ConfigSession) (app app' : AppState) (choice : option nat) :
  Forall (λ session, session = QuitConfig) sessions →
  outcome (menu_loop selected_index keys sessions app) = Ret (choice, app') →
  trace (menu_loop selected_index keys sessions app) = []
  ∧ load_config (config_store app') = load_config (config_store app)
  ∧ os_environ app' = os_environ app
  ∧ litellm app' = litellm app.
Proof.
  revert selected_index sessions app.
  induction keys as [|key keys IH]; intros idx sessions app Hquit; [done|].
  destruct key; cbn [menu_loop].
  - apply IH. done.
  - apply IH. done.
  - destruct (idx + 1 =? 8)%nat.
    + destruct sessions as [|session sessions]; [done|].
      apply Forall_cons in Hquit as [-> Hquit].
      destruct (show_configuration_async_quit app) as (app1 & -> & Hst & Henv & Hllm).
      rewrite bind_ret_l. cbn [snd]. intros H.
      destruct (IH 0%nat sessions app1 Hquit H) as (? & ? & ? & ?).
      split; [done|]. split; [congruence|]. split; congruence.
    + by intros [= _ <-].
  - by intros [= _ <-].
Qed.

Lemma menu_loop_without_saving_witness :
  let app := {| config_store := None; os_environ := ∅;
                litellm := {| api_key := None; api_base := None |} |} in
  let keys := replicate 7 KeyDown ++ [KeyEnter; KeyEnter] in
  trace (menu_loop 0 keys [QuitConfig] app) = []
  ∧ load_config (Some ∅) = load_config None
  ∧ (∅ : gmap string string) = ∅
  ∧ {| api_key := None; api_base := None |} = {| api_key := None; api_base := None |}.
Proof.
  intros app keys.
  apply (menu_loop_without_saving 0 keys [QuitConfig] app
           {| config_store := Some ∅; os_environ := ∅;
              litellm := {| api_key := None; api_base := None |} |} (Some 1%nat)).
  - repeat constructor.
  - vm_compute. reflexivity.
Defined.

End menu_with_settings.

(** ** Saving from the settings screen *)

Section settings_save.

Import ConfigManager Menu.

Implicit Types (st : store) (updates : gmap string string) (key text : string)
  (inputs : list (string * string)).

Local Arguments load_config : simpl never.

Lemma saved_value_nonempty st key text v :
  saved_value st key text = Some v → v ≠ EmptyString.
Proof.
  unfold saved_value. destruct (truthy (strip text)) eqn:Ht.
  - intros [= <-]. by apply truthy_true.
  - destruct (bool_decide _); [|done].
    destruct ((load_config st).1 !! key) as [[|c s]|]; [done| |done].
    by intros [= <-].
Qed.

Lemma fold_save_step_values inputs st0 st updates :
  load_config st0 = load_config st →
  (∀ k v, updates !! k = Some v → v ≠ EmptyString ∧ (k ∈ inputs.*1 ∨ is_Some (updates !! k))) →
  ∀ k v, (fold_left save_step inputs (updates, st0)).1 !! k = Some v →
         v ≠ EmptyString ∧ (k ∈ inputs.*1 ∨ is_Some (updates !! k)).
Proof.
  revert st0 updates. induction inputs as [|[key text] inputs IH];
    intros st0 updates Hst Hinv k v.
  - cbn [fold_left fst]. intros H. split; [by eapply Hinv | right; by eexists].
  - cbn [fold_left].
    destruct (save_step_spec st0 st updates key text Hst) as [Hu Hs].
    destruct (save_step (updates, st0) (key, text)) as [u1 s1]. cbn [fst snd] in *.
    intros H. rewrite fmap_cons. cbn [fst].
    assert (∀ k v, u1 !! k = Some v →
                   v ≠ EmptyString ∧ (k ∈ inputs.*1 ∨ is_Some (u1 !! k))) as Hinv1.
    { intros k' v' Hk'. split; [|right; by eexists]. rewrite Hu in Hk'.
      destruct (saved_value st key text) as [sv|] eqn:Hsv; [|by eapply Hinv].
      destruct (decide (key = k')) as [->|Hne].
      - rewrite lookup_insert_eq in Hk'. injection Hk' as <-.
        by eapply saved_value_nonempty.
      - rewrite lookup_insert_ne in Hk' by done. by eapply Hinv. }
    destruct (IH s1 u1 Hs Hinv1 k v H) as [Hne [Hin|Hsome]].
    + split; [done|]. left. by right.
    + split; [done|]. rewrite Hu in Hsome.
      destruct (saved_value st key text) as [sv|]; [|by right].
      destruct (decide (key = k)) as [->|Hnek]; [left; by left|].
      rewrite lookup_insert_ne in Hsome by done. by right.
Qed.

Lemma collect_updates_values inputs st k v :
  (collect_updates inputs st).1 !! k = Some v → v ≠ EmptyString ∧ k ∈ inputs.*1.
Proof.
  intros H. unfold collect_updates in H.
  destruct (fold_save_step_values inputs st st ∅ eq_refl
              ltac:(intros ?? Hk; by rewrite lookup_empty in Hk) k v H) as [Hne [Hin|Hsome]].
  - done.
  - rewrite lookup_empty in Hsome. by destruct Hsome.
Qed.

(** X14: the update a save builds holds non-empty values only, for keys of
    the widgets only; so a save never clears [litellm.api_key] or
    [litellm.api_base]: the branches that assign [None] to them are never
    taken. *)
Theorem action_save_never_clears inputs (app : AppState) :
  (∀ k v, (collect_updates inputs (config_store app)).1 !! k = Some v →
          v ≠ EmptyString ∧ k ∈ inputs.*1)
  ∧ (is_Some (api_key (litellm app)) →
     is_Some (api_key (litellm (action_save_from inputs app))))
  ∧ (is_Some (api_base (litellm app)) →
     is_Some (api_base (litellm (action_save_from inputs app)))).
Proof.
  split; [intros k v; apply collect_updates_values|].
  unfold action_save_from.
  pose proof (collect_updates_values inputs (config_store app)) as Hvalues.
  destruct (collect_updates inputs (config_store app)) as [updates st1].
  cbn [fst] in Hvalues.
  destruct (apply_to_environment _ _) as [env' st3]. cbn [litellm api_key api_base].
  assert (∀ k, truthy_opt (updates !! k) = false → updates !! k = None) as Hnone.
  { intros k Hk. destruct (updates !! k) as [v|] eqn:Hv; [|done].
    destruct (Hvalues k v Hv) as [Hne _]. apply truthy_true in Hne.
    cbn in Hk. congruence. }
  split.
  - intros Hsome. unfold reapply_api_key.
    destruct (truthy_opt (updates !! "LLM_API_KEY")) eqn:Hk.
    + destruct (updates !! "LLM_API_KEY"); [by eexists | done].
    + rewrite (Hnone _ Hk). by rewrite bool_decide_eq_false_2 by (by intros [??]).
  - intros Hsome. unfold reapply_api_base.
    destruct (truthy_opt (updates !! "LLM_API_BASE")) eqn:H1.
    { destruct (updates !! "LLM_API_BASE"); [by eexists | done]. }
    destruct (truthy_opt (updates !! "OPENAI_API_BASE")) eqn:H2.
    { destruct (updates !! "OPENAI_API_BASE"); [by eexists | done]. }
    destruct (truthy_opt (updates !! "LITELLM_BASE_URL")) eqn:H3.
    { destruct (updates !! "LITELLM_BASE_URL"); [by eexists | done]. }
    destruct (truthy_opt (updates !! "OLLAMA_API_BASE")) eqn:H4.
    { destruct (updates !! "OLLAMA_API_BASE"); [by eexists | done]. }
    rewrite (Hnone _ H1), (Hnone _ H2).
    by rewrite !bool_decide_eq_false_2 by (by intros [??]).
Qed.

Lemma action_save_from_environ inputs (app : AppState) k :
  os_environ (action_save_from inputs app) !! k =
    match (load_config (config_store (action_save_from inputs app))).1 !! k with
    | Some v => if truthy v then Some v else os_environ app !! k
    | None => os_environ app !! k
    end.
Proof.
  unfold action_save_from.
  destruct (collect_updates inputs (config_store app)) as [updates st1].
  pose proof (apply_to_environment_lookup (update_config st1 updates) (os_environ app) k)
    as Henv.
  pose proof (apply_to_environment_store (update_config st1 updates) (os_environ app))
    as Hst.
  destruct (apply_to_environment (update_config st1 updates) (os_environ app))
    as [env' st3]. cbn [fst snd os_environ config_store] in *.
  by rewrite Hst.
Qed.

(** X15: a field saved with a non-blank text is persisted and exported
    under its key with that text stripped; for [LLM_API_KEY] and
    [LLM_API_BASE] the text also becomes [litellm.api_key] and
    [litellm.api_base]. *)
Theorem action_save_exports (i : ConfigInputs) (app : AppState) key text :
  (key, text) ∈ _inputs i →
  strip text ≠ EmptyString →
  (load_config (config_store (action_save i app))).1 !! key = Some (strip text)
  ∧ os_environ (action_save i app) !! key = Some (strip text)
  ∧ (key = "LLM_API_KEY" → api_key (litellm (action_save i app)) = Some (strip text))
  ∧ (key = "LLM_API_BASE" → api_base (litellm (action_save i app)) = Some (strip text)).
Proof.
  intros Hin Htext. apply truthy_true in Htext as Htruthy.
  assert ((collect_updates (_inputs i) (config_store app)).1 !! key = Some (strip text))
    as Hu.
  { rewrite (collect_updates_lookup _ _ key text) by (apply _inputs_NoDup || done).
    unfold saved_value. by rewrite Htruthy. }
  assert ((load_config (config_store (action_save i app))).1 !! key = Some (strip text))
    as Hload.
  { unfold action_save. rewrite action_save_from_load, lookup_union, Hu.
    by destruct ((load_config (config_store app)).1 !! key). }
  split; [done|]. split.
  { unfold action_save in *. by rewrite action_save_from_environ, Hload, Htruthy. }
  unfold action_save, action_save_from.
  destruct (collect_updates (_inputs i) (config_store app)) as [updates st1].
  cbn [fst] in Hu. destruct (apply_to_environment _ _) as [env' st3].
  cbn [litellm api_key api_base]. split; intros ->.
  - unfold reapply_api_key. rewrite Hu. cbn [truthy_opt]. by rewrite Htruthy.
  - unfold reapply_api_base. rewrite Hu. cbn [truthy_opt]. by rewrite Htruthy.
Qed.

Lemma action_save_exports_witness :
  let app := {| config_store := None; os_environ := ∅;
                litellm := {| api_key := None; api_base := None |} |} in
  let i := {| strix_llm := " openai/gpt-5 "; llm_api_key := EmptyString;
              perplexity_api_key := EmptyString; llm_api_base := EmptyString |} in
  os_environ (action_save i app) !! "STRIX_LLM" = Some "openai/gpt-5".
Proof.
  intros app i.
  apply (proj1 (proj2 (action_save_exports i app "STRIX_LLM" " openai/gpt-5 "
                         ltac:(apply (bool_decide_unpack _); vm_compute; reflexivity)
                         ltac:(vm_compute; discriminate)))).
Defined.

Lemma collect_updates_ext inputs st st' :
  NoDup inputs.*1 →
  (∀ key text, (key, text) ∈ inputs → saved_value st' key text = saved_value st key text) →
  (collect_updates inputs st').1 = (collect_updates inputs st).1.
Proof.
  intros Hnd Hsaved. apply map_eq; intros k.
  destruct (decide (k ∈ inputs.*1)) as [Hin|Hnin].
  - apply list_elem_of_fmap in Hin as [[key text] [-> Hin]]. cbn [fst].
    rewrite !(collect_updates_lookup _ _ key text) by done. by apply Hsaved.
  - unfold collect_updates.
    destruct (fold_save_step_other inputs st' st' ∅ k eq_refl Hnin) as [-> _].
    by destruct (fold_save_step_other inputs st st ∅ k eq_refl Hnin) as [-> _].
Qed.

Lemma load_config_ensure st st' :
  load_config st' = load_config st → ensure_config_dir st' = ensure_config_dir st.
Proof.
  intros H. assert ((load_config st').2 = (load_config st).2) as H2 by (by rewrite H).
  rewrite !load_config_store in H2. by injection H2.
Qed.

Lemma action_save_from_store inputs (app : AppState) :
  config_store (action_save_from inputs app) =
    Some (ensure_config_dir
            (update_config (collect_updates inputs (config_store app)).2
               (collect_updates inputs (config_store app)).1)).
Proof.
  unfold action_save_from.
  destruct (collect_updates inputs (config_store app)) as [updates st1].
  unfold apply_to_environment.
  destruct (load_config (update_config st1 updates)) as [c st3] eqn:Hl.
  cbn [config_store fst snd].
  assert (st3 = (load_config (update_config st1 updates)).2) as -> by (by rewrite Hl).
  by rewrite load_config_store.
Qed.

Lemma action_save_from_litellm inputs (app : AppState) :
  litellm (action_save_from inputs app) =
    {| api_key := reapply_api_key (collect_updates inputs (config_store app)).1 (litellm app);
       api_base := reapply_api_base (collect_updates inputs (config_store app)).1
                     (litellm app) |}.
Proof.
  unfold action_save_from.
  destruct (collect_updates inputs (config_store app)) as [updates st1].
  by destruct (apply_to_environment _ _).
Qed.

Lemma AppState_eq (a b : AppState) :
  config_store a = config_store b → os_environ a = os_environ b → litellm a = litellm b →
  a = b.
Proof. destruct a, b. cbn. by intros -> -> ->. Qed.

(** X16: saving is idempotent: a second save with the same widget texts
    leaves the file, the environment and the [litellm] settings as the
    first one left them. *)
Theorem action_save_idempotent inputs (app : AppState) :
  NoDup inputs.*1 →
  action_save_from inputs (action_save_from inputs app) = action_save_from inputs app.
Proof.
  intros Hnd.
  set (app1 := action_save_from inputs app).
  set (updates := (collect_updates inputs (config_store app)).1).
  assert (∀ k, (load_config (config_store app1)).1 !! k =
               match updates !! k with
               | Some v => Some v
               | None => (load_config (config_store app)).1 !! k
               end) as Hload1.
  { intros k. unfold app1. rewrite action_save_from_load, lookup_union. fold updates.
    destruct (updates !! k) as [v|].
    - by destruct (_ !! k).
    - by rewrite (left_id_L None union). }
  assert ((collect_updates inputs (config_store app1)).1 = updates) as Hupdates.
  { apply collect_updates_ext; [done|]. intros key text Hin.
    unfold saved_value. destruct (truthy (strip text)) eqn:Ht; [done|].
    destruct (bool_decide (key ∈ REQUIRED_KEYS)) eqn:Hb; [|done]. rewrite Hload1.
    assert (updates !! key = saved_value (config_store app) key text) as ->.
    { by apply collect_updates_lookup. }
    unfold saved_value. rewrite Ht, Hb.
    by destruct ((load_config (config_store app)).1 !! key) as [[|c s]|]. }
  assert (config_store (action_save_from inputs app1) = config_store app1) as Hstore.
  { unfold app1 at 2. rewrite !action_save_from_store, Hupdates. fold updates.
    f_equal. apply map_eq; intros k. rewrite !update_config_file.
    destruct (updates !! k) as [v|] eqn:Hk; [done|].
    rewrite (load_config_ensure (config_store app1)) by apply collect_updates_store.
    unfold app1. rewrite action_save_from_store. cbn [ensure_config_dir].
    rewrite update_config_file. fold updates. by rewrite Hk. }
  apply AppState_eq; [done| |].
  - apply map_eq; intros k.
    pose proof (action_save_from_environ inputs app k) as Henv1. fold app1 in Henv1.
    rewrite action_save_from_environ, Hstore, Henv1.
    destruct ((load_config (config_store app1)).1 !! k) as [v|]; [|done].
    by destruct (truthy v).
  - rewrite action_save_from_litellm, Hupdates. unfold app1.
    rewrite action_save_from_litellm. fold updates. cbn [api_key api_base].
    f_equal.
    + unfold reapply_api_key. destruct (truthy_opt _); [done|].
      by destruct (bool_decide _).
    + unfold reapply_api_base.
      repeat (destruct (truthy_opt _); [done|]).
      by destruct (_ || _).
Qed.

Lemma action_save_idempotent_witness :
  let app := {| config_store := None; os_environ := ∅;
                litellm := {| api_key := None; api_base := None |} |} in
  let i := {| strix_llm := "openai/gpt-5"; llm_api_key := "sk-1";
              perplexity_api_key := EmptyString; llm_api_base := EmptyString |} in
  action_save i (action_save i app) = action_save i app.
Proof.
  intros app i. apply (action_save_idempotent (_inputs i) app).
  apply (bool_decide_unpack _). vm_compute. reflexivity.
Defined.

(** X17: opening the settings screen and saving without editing a field
    replaces the persisted value of each of the four keys by its stripped
    form, unless stripping would leave nothing, and leaves every other key of
    the record as it was. *)
Theorem save_without_edits st (env : gmap string string) (l : LiteLLM) k :
  let i := (compose st).1 in
  let app := {| config_store := (compose st).2; os_environ := env; litellm := l |} in
  (load_config (config_store (action_save i app))).1 !! k =
    (λ v, if bool_decide (k ∈ _input_order) && truthy (strip v) then strip v else v)
      <$> (load_config st).1 !! k.
Proof.
  intros i app.
  assert (load_config (config_store app) = load_config st) as Hst.
  { unfold app, compose, get_all_config. destruct (load_config st) as [c s'] eqn:Hl.
    cbn [config_store snd]. assert (s' = (load_config st).2) as -> by (by rewrite Hl).
    by rewrite load_config_idem. }
  unfold action_save. rewrite action_save_from_load, lookup_union, Hst.
  assert (∀ key text, (key, text) ∈ _inputs i →
            text = default EmptyString ((load_config st).1 !! key)) as Htext.
  { intros key text Hin. unfold i, compose, get_all_config in Hin.
    destruct (load_config st) as [c s'] eqn:Hl. cbn [fst _inputs] in Hin.
    cbn [strix_llm llm_api_key perplexity_api_key llm_api_base] in Hin.
    repeat (apply elem_of_cons in Hin as [[= -> ->]|Hin]; [done|]).
    by apply elem_of_nil in Hin. }
  destruct (decide (k ∈ (_inputs i).*1)) as [Hin|Hnin].
  - assert (k ∈ _input_order) as Hord by done.
    apply list_elem_of_fmap in Hin as [[key text] [-> Hin]]. cbn [fst] in *.
    rewrite (collect_updates_lookup _ _ key text) by (apply _inputs_NoDup || done).
    rewrite (Htext key text Hin). unfold saved_value. rewrite Hst.
    rewrite (bool_decide_eq_true_2 (key ∈ _input_order)) by done.
    destruct ((load_config st).1 !! key) as [v|];
      cbn [default fmap option_fmap option_map andb]; unfold id.
    + destruct (truthy (strip v)); [reflexivity|].
      destruct (bool_decide _); [|reflexivity]. by destruct v.
    + change (strip EmptyString) with EmptyString. cbn [truthy].
      by destruct (bool_decide _).
  - assert ((collect_updates (_inputs i) (config_store app)).1 !! k = None) as ->.
    { destruct (_ !! k) as [v|] eqn:Hk; [|done].
      by apply collect_updates_values in Hk as [_ ?]. }
    rewrite (left_id_L None union).
    rewrite (bool_decide_eq_false_2 (k ∈ _input_order)) by done.
    by destruct ((load_config st).1 !! k).
Qed.

End settings_save.

(** ** Focus on the settings screen, and what the menu draws *)

Section screens.

Import Menu.

Lemma focus_move_stays (focused : Focus) (m : FocusMove) :
  (∃ key, focused = FocusInput key ∧ key ∈ _input_order) →
  ∃ key, focus_move focused m = FocusInput key ∧ key ∈ _input_order.
Proof.
  intros (key & -> & Hin). unfold _input_order in Hin.
  repeat (apply elem_of_cons in Hin as [->|Hin];
          [destruct m; eexists; (split; [reflexivity|]);
           apply (bool_decide_unpack _); vm_compute; reflexivity|]).
  by apply elem_of_nil in Hin.
Qed.

Lemma move_down_iter (k : nat) :
  Nat.iter k ConfigurationApp_action_move_down (FocusInput "STRIX_LLM")
  = FocusInput (default EmptyString (_input_order !! Nat.min k 3)).
Proof.
  destruct k as [|[|[|k]]]; [reflexivity..|].
  replace (Nat.min (S (S (S k))) 3) with 3%nat by lia.
  induction k as [|k IH]; [reflexivity|].
  rewrite Nat.iter_succ, IH. reflexivity.
Qed.

(** X18: on the settings screen the focus, once [on_mount] has put it on the
    first input, stays on one of the four inputs whatever moves follow;
    moving down [k] times from the first input reaches input [min k 3], and
    moving up from the first input stays there: the focus does not wrap
    around. *)
Theorem settings_focus_stays_on_inputs (focused : Focus) (moves : list FocusMove) (k : nat) :
  (∃ key, fold_left focus_move moves (ConfigurationApp_on_mount focused) = FocusInput key
          ∧ key ∈ _input_order)
  ∧ Nat.iter k ConfigurationApp_action_move_down (ConfigurationApp_on_mount focused)
    = FocusInput (default EmptyString (_input_order !! Nat.min k 3))
  ∧ Nat.iter k ConfigurationApp_action_move_up (ConfigurationApp_on_mount focused)
    = FocusInput "STRIX_LLM".
Proof.
  split; [|split].
  - assert (∃ key, ConfigurationApp_on_mount focused = FocusInput key
                   ∧ key ∈ _input_order) as Hstart.
    { exists "STRIX_LLM". split; [done|]. by left. }
    revert Hstart. generalize (ConfigurationApp_on_mount focused).
    induction moves as [|m moves IH]; intros f Hf; [done|].
    cbn [fold_left]. apply IH. by apply focus_move_stays.
  - apply move_down_iter.
  - induction k as [|k IH]; [done|]. by rewrite Nat.iter_succ, IH.
Qed.

Lemma length_compose_menu_items (menu_options : list MenuOption) :
  length (compose_menu_items menu_options) = length menu_options.
Proof. unfold compose_menu_items. by rewrite length_imap. Qed.

(** [_update_selection] with every subscript in range. *)
Lemma _update_selection_Some (menu_options : list MenuOption) (selected_index : nat)
    (menu_items : list MenuItem) (selected : MenuOption) :
  length menu_items = length menu_options →
  menu_options !! selected_index = Some selected →
  _update_selection menu_options selected_index menu_items =
    Some (imap (λ i option_,
                  {| item_label := item_text (i =? selected_index)%nat i option_;
                     item_selected := (i =? selected_index)%nat |}) menu_options,
          description selected +:+ String (ascii_of_nat 10) "Example: "
            +:+ example selected).
Proof.
  intros Hlen Hsel. unfold _update_selection.
  assert (mapM id
            (imap (λ i (_ : MenuItem),
                     option_ ← menu_options !! i;
                     Some {| item_label := item_text (i =? selected_index)%nat i option_;
                             item_selected := (i =? selected_index)%nat |}) menu_items)
          = Some (imap (λ i option_,
                          {| item_label := item_text (i =? selected_index)%nat i option_;
                             item_selected := (i =? selected_index)%nat |}) menu_options))
    as ->.
  { apply mapM_Some. apply Forall2_same_length_lookup.
    split; [by rewrite !length_imap|].
    intros i x y. rewrite !list_lookup_imap.
    destruct (menu_items !! i) as [item|]; [|done].
    destruct (menu_options !! i) as [o|]; [|done]. cbn.
    by intros [= <-] [= <-]. }
  cbn. by rewrite Hsel.
Qed.

(** X19: when the selection is the index of an option, [_update_selection]
    redraws every item from its option, checks and highlights the selected
    item and no other, and shows the description and example of the
    selected option; for the first option the texts are those [compose]
    drew.  With the selection out of range (an empty menu) it raises
    [IndexError]. *)
Theorem update_selection_marks_selected
    (menu_options : list MenuOption) (selected_index : nat) :
  match _update_selection menu_options selected_index (compose_menu_items menu_options) with
  | Some (items, shown) =>
      (selected_index < length menu_options)%nat
      ∧ length items = length menu_options
      ∧ (∀ i item, items !! i = Some item →
           (item_selected item = true ↔ i = selected_index)
           ∧ ∃ option_, menu_options !! i = Some option_
                        ∧ item_label item
                          = item_text (bool_decide (i = selected_index)) i option_)
      ∧ (∃ selected, menu_options !! selected_index = Some selected
                     ∧ shown = description selected +:+ String (ascii_of_nat 10) "Example: "
                                 +:+ example selected)
      ∧ (selected_index = 0%nat →
         item_label <$> items = item_label <$> compose_menu_items menu_options)
  | None => (length menu_options ≤ selected_index)%nat
  end.
Proof.
  destruct (menu_options !! selected_index) as [selected|] eqn:Hsel.
  - rewrite (_update_selection_Some _ _ _ selected)
      by (apply length_compose_menu_items || done).
    split; [by eapply lookup_lt_Some|]. split; [by rewrite length_imap|].
    split; [|split].
    + intros i item. rewrite list_lookup_imap.
      destruct (menu_options !! i) as [o|]; [|done]. cbn. intros [= <-].
      cbn [item_selected item_label]. split; [apply Nat.eqb_eq|].
      exists o. split; [done|]. by destruct (Nat.eqb_spec i selected_index);
        [rewrite bool_decide_eq_true_2 | rewrite bool_decide_eq_false_2].
    + by exists selected.
    + intros ->. unfold compose_menu_items.
      apply list_eq; intros i. rewrite !list_lookup_fmap, !list_lookup_imap.
      by destruct (menu_options !! i).
  - apply lookup_ge_None in Hsel as Hge.
    destruct (_update_selection _ _ _) as [[items shown]|] eqn:Hupd; [|done].
    unfold _update_selection in Hupd. rewrite Hsel in Hupd.
    by destruct (mapM _ _).
Qed.

End screens.

(** ** More on the orchestrator *)

Section orchestrator_more.

Import Menu Main.
Local Open Scope py_scope.

Implicit Types (w : World) (args : Namespace) (flags : Flags) (argv : CommandLine).

(** X20: validation passes exactly when [STRIX_LLM] is non-empty and either
    [LLM_API_KEY] or one of the endpoint overrides is non-empty; whether
    [PERPLEXITY_API_KEY] is set plays no part. *)
Theorem validate_environment_passes (env : gmap string string) :
  validate_environment env = ret tt ↔
  truthy_opt (getenv env "STRIX_LLM") = true
  ∧ (truthy_opt (getenv env "LLM_API_KEY") = true ∨ has_base_url env = true).
Proof.
  rewrite validate_environment_eval.
  destruct (missing_vars_spec env) as [-> _].
  destruct (truthy_opt (getenv env "STRIX_LLM")),
    (truthy_opt (getenv env "LLM_API_KEY")), (has_base_url env);
    cbn [orb app]; unfold ret; split; try done; intros; intuition congruence.
Qed.

Lemma parse_arguments_eval w flags :
  parse_arguments w (WellFormed flags) =
    if no_target (flag_target flags) then
      ret {| target := None; targets_info := [];
             instruction := flag_instruction flags;
             run_name := flag_run_name flags;
             non_interactive := flag_non_interactive flags |}
    else
      match first_rejected (infer_target_type w) (default [] (flag_target flags)) with
      | Some t =>
          ([EvConsole (UsageError ("Invalid target '" +:+ t +:+ "'"))], Exit 2%Z)
      | None =>
          ret {| target := flag_target flags;
                 targets_info :=
                   assign_workspace_subdirs w
                     (omap (target_info_of (infer_target_type w))
                        (default [] (flag_target flags)));
                 instruction := flag_instruction flags;
                 run_name := flag_run_name flags;
                 non_interactive := flag_non_interactive flags |}
      end.
Proof.
  rewrite parse_arguments_well_formed.
  destruct (no_target (flag_target flags)); [done|].
  rewrite process_targets_eval.
  destruct (first_rejected _ _); [done|]. by rewrite bind_ret_l.
Qed.

Lemma consume_pull_user_input w keys script frames layers_info last_update :
  consume_pull (with_user_input w keys script) frames layers_info last_update
  = consume_pull w frames layers_info last_update.
Proof.
  revert layers_info last_update.
  induction frames as [|[line|msg] rest IH]; intros layers_info last_update;
    [done| |done].
  cbn [consume_pull]. by rewrite IH.
Qed.

Lemma clone_targets_user_input w keys script (run_name_ : string) infos :
  clone_targets (with_user_input w keys script) run_name_ infos
  = clone_targets w run_name_ infos.
Proof.
  induction infos as [|ti infos IH]; [done|].
  cbn [clone_targets]. by rewrite IH.
Qed.

Lemma run_user_input w keys script args :
  run (with_user_input w keys script) args = run w args.
Proof.
  unfold run, preflight, pull_docker_image.
  rewrite consume_pull_user_input.
  cbn [with_user_input environ generate_run_name image_exists pull_stream STRIX_IMAGE].
  by rewrite clone_targets_user_input.
Qed.

(** X21: with targets given on the command line, [main] opens neither the
    menu nor a target prompt: it is [parse_arguments] followed by the gates
    and the start of the scan; it prints no cancellation message, and
    whatever the user would press at the menu or type at a prompt changes
    nothing of it.  (What the scan engine itself asks the user, once
    started, is not part of this statement.) *)
Theorem main_with_targets_skips_menu w flags :
  no_target (flag_target flags) = false →
  main w (WellFormed flags) = (args <- parse_arguments w (WellFormed flags); run w args)
  ∧ Forall (λ e, e ≠ EvConsole Cancelled) (trace (main w (WellFormed flags)))
  ∧ ∀ keys script,
      main (with_user_input w keys script) (WellFormed flags) = main w (WellFormed flags).
Proof.
  intros Hflags.
  assert (∀ w, main w (WellFormed flags)
               = (args <- parse_arguments w (WellFormed flags); run w args)) as Hmain.
  { intros w'. unfold main. rewrite parse_arguments_eval, Hflags.
    destruct (first_rejected _ _); [done|].
    rewrite !bind_ret_l. cbn [target]. by rewrite Hflags, bind_ret_l. }
  split; [done|]. split.
  - rewrite Hmain. apply Forall_trace_bind.
    + rewrite parse_arguments_eval, Hflags.
      destruct (first_rejected _ _); by repeat constructor.
    + intros args _. unfold run. apply Forall_trace_bind.
      * destruct (preflight_staged w args) as [_ Hranks].
        eapply Forall_impl; [exact Hranks|]. cbn. intros e He ->. cbn in He. lia.
      * intros r _. eapply Forall_at_stage; [|apply (scan_and_report w args)].
        by intros e He ->.
  - intros keys script. rewrite !Hmain, !parse_arguments_eval, Hflags.
    cbn [with_user_input infer_target_type assign_workspace_subdirs].
    destruct (first_rejected _ _); [done|].
    rewrite !bind_ret_l. apply run_user_input.
Qed.

Lemma main_with_targets_skips_menu_witness :
  main (with_user_input (sample_world env_configured true None) [KeyDown; KeyEnter] [])
    (WellFormed (sample_flags ["https://app.test"] false))
  = main (sample_world env_configured true None)
      (WellFormed (sample_flags ["https://app.test"] false)).
Proof.
  apply (proj2 (proj2 (main_with_targets_skips_menu (sample_world env_configured true None)
                         (sample_flags ["https://app.test"] false) ltac:(reflexivity)))).
Defined.

Lemma scenario_flow_interactive infer assign (choice : nat) (script : list UserAction)
    args :
  outcome (scenario_flow infer assign choice script) = Ret args →
  non_interactive args = false ∧ run_name args = None.
Proof.
  unfold scenario_flow. rewrite outcome_bind.
  destruct (outcome _) as [collected| |]; [|done..].
  rewrite outcome_bind.
  destruct (outcome _) as [infos| |]; [|done..].
  by intros [= <-].
Qed.

(** X22: a run started without targets goes through the menu and is always
    interactive, whatever flags were given: the scan is started with the
    terminal interface, never the command-line one, the run name is
    generated, and the process never exits with status 2. *)
Theorem main_from_menu_is_interactive w flags :
  no_target (flag_target flags) = true →
  main w (WellFormed flags) = (args <- show_interactive_menu w; run w args)
  ∧ Forall (λ e, e ≠ EvRunCli) (trace (main w (WellFormed flags)))
  ∧ outcome (main w (WellFormed flags)) ≠ Exit 2%Z
  ∧ ∀ args, outcome (show_interactive_menu w) = Ret args →
            non_interactive args = false ∧ effective_run_name w args = generate_run_name w.
Proof.
  intros Hflags.
  assert (main w (WellFormed flags)
          = (args <- show_interactive_menu w; run w args)) as Hmain.
  { unfold main. by rewrite parse_arguments_eval, Hflags, bind_ret_l. }
  assert (∀ args, outcome (show_interactive_menu w) = Ret args →
            non_interactive args = false ∧ run_name args = None) as Hargs.
  { intros args. unfold show_interactive_menu, Main.show_interactive_menu_async.
    rewrite outcome_bind. cbn [lift outcome snd].
    destruct (InteractiveMenuApp 7 0 (menu_keys w)) as [[[choice|] keys]| |]; [|done..].
    cbn [fst]. apply scenario_flow_interactive. }
  split; [done|]. split; [|split].
  - rewrite Hmain. apply Forall_trace_bind.
    + eapply Forall_at_stage; [|apply (proj1 (show_interactive_menu_resolution w))].
      by intros e He ->.
    + intros args Hret. destruct (Hargs args Hret) as [Hni _].
      unfold run. apply Forall_trace_bind.
      * destruct (preflight_staged w args) as [_ Hranks].
        eapply Forall_impl; [exact Hranks|]. cbn. intros e He ->. cbn in He. lia.
      * intros r _. rewrite Hni. unfold display_completion_message, console_print.
        rewrite !bind_emit. cbn [trace fst]. by repeat constructor.
  - rewrite Hmain, outcome_bind.
    destruct (outcome (show_interactive_menu w)) as [args|code|] eqn:Hout; [| |done].
    + destruct (Hargs args eq_refl) as [Hni _]. rewrite run_outcome, Hni.
      by destruct (first_failing_gate w args).
    + intros [= ->].
      pose proof (proj2 (show_interactive_menu_resolution w) _ Hout) as Hc.
      apply elem_of_cons in Hc as [Hc|Hc]; [done|].
      by apply list_elem_of_singleton in Hc.
  - intros args Hret. destruct (Hargs args Hret) as [Hni Hname].
    split; [done|]. unfold effective_run_name. by rewrite Hname.
Qed.

Lemma main_from_menu_is_interactive_witness :
  outcome (main (sample_world env_configured true (Some interrupted_tracer))
             (WellFormed {| flag_target := None; flag_instruction := None;
                            flag_run_name := None; flag_non_interactive := true |}))
  ≠ Exit 2%Z.
Proof.
  apply (proj1 (proj2 (proj2
    (main_from_menu_is_interactive
       (sample_world env_configured true (Some interrupted_tracer))
       {| flag_target := None; flag_instruction := None;
          flag_run_name := None; flag_non_interactive := true |} ltac:(reflexivity))))).
Defined.

(** X23: whatever the command line, the process ends with status 0, 1 or
    2, and with no other. *)
Theorem main_exit_statuses w argv :
  ∀ code, exit_status (main w argv) = Some code → code ∈ [0%Z; 1%Z; 2%Z].
Proof.
  intros code. unfold exit_status. rewrite main_outcome.
  destruct (outcome (resolve_args w argv)) as [args|c|] eqn:Hres.
  - rewrite run_outcome. destruct (first_failing_gate w args).
    + intros [= <-]. right. by left.
    + destruct (non_interactive args && has_findings w); intros [= <-].
      * right. right. by left.
      * by left.
  - intros [= <-]. revert Hres. unfold resolve_args. rewrite outcome_bind.
    pose proof (proj1 (proj2 (parse_arguments_resolution w argv))) as Hparse.
    destruct (outcome (parse_arguments w argv)) as [a|c'|] eqn:Hp; [| |done].
    + destruct (no_target (target a)); [|done]. intros Hm.
      apply (proj2 (show_interactive_menu_resolution w)) in Hm.
      apply elem_of_cons in Hm as [->|Hm]; [by left|].
      apply list_elem_of_singleton in Hm as ->. right. by left.
    + intros [= <-]. specialize (Hparse c' Hp).
      apply elem_of_cons in Hparse as [->|Hparse]; [by left|].
      apply list_elem_of_singleton in Hparse as ->. right. right. by left.
  - done.
Qed.

Lemma main_exit_statuses_witness :
  exit_status (main (sample_world env_without_model true None)
                 (WellFormed (sample_flags ["https://app.test"] false))) = Some 1%Z
  ∧ 1%Z ∈ [0%Z; 1%Z; 2%Z].
Proof.
  split; [reflexivity|].
  apply (main_exit_statuses (sample_world env_without_model true None)
           (WellFormed (sample_flags ["https://app.test"] false)) 1%Z).
  reflexivity.
Defined.

End orchestrator_more.

(** ** The steps between the menu and the scan *)

Section orchestrator_steps.

Import Menu Main.
Local Open Scope py_scope.

Implicit Types (w : World) (args : Namespace) (flags : Flags) (argv : CommandLine).

Lemma consume_pull_eval w frames layers_info last_update :
  trace (consume_pull w frames layers_info last_update)
    = EvPullLine <$> lines_before_raise frames
  ∧ ∃ state,
      outcome (consume_pull w frames layers_info last_update)
        = Ret (match first_exception frames with
               | Some msg => inr msg
               | None => inl state
               end).
Proof.
  revert layers_info last_update.
  induction frames as [|[line|msg] rest IH]; intros layers_info last_update.
  - split; [done|]. by exists (layers_info, last_update).
  - cbn [consume_pull lines_before_raise first_exception fmap list_fmap].
    rewrite bind_emit.
    destruct (IH (process_pull_line w line layers_info last_update).1
                 (process_pull_line w line layers_info last_update).2) as [Htr [state Hout]].
    cbn [trace outcome fst snd]. fold (trace (consume_pull w rest
      (process_pull_line w line layers_info last_update).1
      (process_pull_line w line layers_info last_update).2)).
    split; [by rewrite Htr|]. exists state. exact Hout.
  - split; [done|]. by exists (layers_info, last_update).
Qed.

(** X24: when the engine is reachable and the image is absent, the pull
    reports the progress lines of the stream in order up to the first
    [DockerException]; what the stream holds after it is never read.  The
    pull then ends with the error panel carrying that exception's message
    and exit status 1, and with the success line when the stream ends
    without one. *)
Theorem pull_docker_image_stream w :
  docker_reachable w = true →
  image_exists w = false →
  trace (pull_docker_image w) =
    [EvDockerConnect; EvImageExists (STRIX_IMAGE w); EvConsole PullBanner;
     EvStatusOpen; EvPullOpen (STRIX_IMAGE w)]
    ++ (EvPullLine <$> lines_before_raise (pull_stream w))
    ++ [EvConsole (match first_exception (pull_stream w) with
                   | Some msg => PullErrorPanel msg
                   | None => PullSuccess
                   end)]
  ∧ outcome (pull_docker_image w) =
      match first_exception (pull_stream w) with
      | Some _ => Exit 1%Z
      | None => Ret tt
      end.
Proof.
  intros Hreach Himg.
  rewrite pull_docker_image_split, check_docker_connection_eval, Hreach.
  unfold provision_image, console_print. rewrite Himg.
  destruct (consume_pull_eval w (pull_stream w) ∅ EmptyString) as [Htr [state Hout]].
  change ([EvDockerConnect], Ret tt) with (emit EvDockerConnect).
  repeat first [rewrite bind_emit | rewrite trace_bind | rewrite outcome_bind
               | progress cbn [trace outcome fst snd app]].
  fold (trace (consume_pull w (pull_stream w) ∅ EmptyString)).
  fold (outcome (consume_pull w (pull_stream w) ∅ EmptyString)).
  rewrite Htr, Hout.
  by destruct (first_exception (pull_stream w)).
Qed.

Lemma pull_docker_image_stream_witness :
  outcome (pull_docker_image (sample_world env_configured false None)) = Ret tt.
Proof.
  rewrite (proj2 (pull_docker_image_stream (sample_world env_configured false None)
                    ltac:(reflexivity) ltac:(reflexivity))).
  reflexivity.
Defined.

Lemma is_llm_request_stage (e : Event) :
  is_llm_request e = true → stage_of e = WarmupProbe.
Proof. by destruct e. Qed.

Lemma no_llm_request_at_stage {A} (g : Stage) (m : M A) :
  g ≠ WarmupProbe → at_stage g m → List.filter is_llm_request (trace m) = [].
Proof.
  intros Hg. unfold at_stage. induction 1 as [|e tr He _ IH]; [done|].
  cbn [List.filter]. destruct (is_llm_request e) eqn:Hreq; [|done].
  apply is_llm_request_stage in Hreq. congruence.
Qed.

Lemma llm_requests_bind_l {A B} (m : M A) (k : A → M B) (n : nat) :
  List.filter is_llm_request (trace m) = [] →
  (∀ a, (List.length (List.filter is_llm_request (trace (k a))) ≤ n)%nat) →
  (List.length (List.filter is_llm_request (trace (bind m k))) ≤ n)%nat.
Proof.
  intros Hm Hk. rewrite trace_bind, List.filter_app, Hm. cbn [app].
  destruct (outcome m); [apply Hk|cbn; lia..].
Qed.

Lemma llm_requests_bind_r {A B} (m : M A) (k : A → M B) (n : nat) :
  (List.length (List.filter is_llm_request (trace m)) ≤ n)%nat →
  (∀ a, List.filter is_llm_request (trace (k a)) = []) →
  (List.length (List.filter is_llm_request (trace (bind m k))) ≤ n)%nat.
Proof.
  intros Hm Hk. rewrite trace_bind, List.filter_app.
  destruct (outcome m); [rewrite Hk|..]; by rewrite app_nil_r.
Qed.

Lemma validate_environment_model (env : gmap string string) :
  outcome (validate_environment env) = Ret tt →
  ∃ model, getenv env "STRIX_LLM" = Some model ∧ truthy model = true.
Proof.
  rewrite validate_environment_eval.
  destruct (missing_vars_spec env) as [-> _].
  destruct (getenv env "STRIX_LLM") as [[|c model]|]; cbn [truthy_opt truthy app];
    [done| |done].
  intros _. by eexists.
Qed.

(** X25: the gates that precede the scan send at most one request to the
    LLM endpoint, the warm-up probe, and when they do, the model it names
    is the non-empty value of [STRIX_LLM]: the fallback model name of
    [warm_up_llm] is never what [main] probes with, since validation has
    stopped the run before.  The key and the endpoint of the probe are the
    ones [warm_up_llm] has set on [litellm].  (The requests of the scan
    engine, once started, are not part of this statement.) *)
Theorem preflight_llm_request w args :
  (List.length (List.filter is_llm_request (trace (preflight w args))) ≤ 1)%nat
  ∧ ∀ model key base,
      EvCompletion model key base ∈ trace (preflight w args) →
      getenv (environ w) "STRIX_LLM" = Some model
      ∧ truthy model = true
      ∧ key = api_key (configure_litellm (environ w) (litellm0 w))
      ∧ base = api_base (configure_litellm (environ w) (litellm0 w)).
Proof.
  split.
  - unfold preflight. apply llm_requests_bind_l.
    { eapply no_llm_request_at_stage;
        [|apply (gate_at_stage _ _ _ (gate_check_docker_installed w))]. done. }
    intros _. rewrite pull_docker_image_split, bind_assoc. apply llm_requests_bind_l.
    { eapply no_llm_request_at_stage;
        [|apply (gate_at_stage _ _ _ (gate_check_docker_connection w))]. done. }
    intros _. apply llm_requests_bind_l.
    { eapply no_llm_request_at_stage;
        [|apply (gate_at_stage _ _ _ (gate_provision_image w))]. done. }
    intros _. apply llm_requests_bind_l.
    { eapply no_llm_request_at_stage;
        [|apply (gate_at_stage _ _ _ (gate_validate_environment (environ w)))]. done. }
    intros _. apply llm_requests_bind_r.
    { unfold warm_up_llm, console_print. rewrite bind_emit. cbn [trace fst].
      cbn [List.filter is_llm_request List.length].
      destruct (completion_ok _ _ _); cbn; lia. }
    intros l. apply (no_llm_request_at_stage Cloning); [done|].
    apply at_stage_bind.
    + apply (gate_at_stage _ _ _ (gate_clone_targets w _ _)).
    + intros infos. constructor.
  - intros model key base Hin.
    assert (Forall (λ e, e = EvCompletion model key base →
              getenv (environ w) "STRIX_LLM" = Some model
              ∧ truthy model = true
              ∧ key = api_key (configure_litellm (environ w) (litellm0 w))
              ∧ base = api_base (configure_litellm (environ w) (litellm0 w)))
              (trace (preflight w args))) as Hall.
    2:{ rewrite Forall_forall in Hall. by apply (Hall _ Hin). }
    unfold preflight. apply Forall_trace_bind.
    { eapply Forall_at_stage;
        [|apply (gate_at_stage _ _ _ (gate_check_docker_installed w))].
      by intros e He ->. }
    intros _ _. apply Forall_trace_bind.
    { rewrite pull_docker_image_split. apply Forall_trace_bind.
      - eapply Forall_at_stage;
          [|apply (gate_at_stage _ _ _ (gate_check_docker_connection w))].
        by intros e He ->.
      - intros _ _. eapply Forall_at_stage;
          [|apply (gate_at_stage _ _ _ (gate_provision_image w))].
        by intros e He ->. }
    intros _ _. apply Forall_trace_bind.
    { eapply Forall_at_stage;
        [|apply (gate_at_stage _ _ _ (gate_validate_environment (environ w)))].
      by intros e He ->. }
    intros [] Hvalid. apply validate_environment_model in Hvalid as (m & Hm & Hne).
    apply Forall_trace_bind.
    { unfold warm_up_llm, console_print. rewrite bind_emit. cbn [trace fst].
      rewrite Hm. cbn [default]. unfold id. constructor.
      - by intros [= <- <- <-].
      - destruct (completion_ok _ _ _); by repeat constructor. }
    intros l _. apply Forall_trace_bind.
    { eapply Forall_at_stage;
        [|apply (gate_at_stage _ _ _ (gate_clone_targets w _ _))].
      by intros e He ->. }
    intros infos _. constructor.
Qed.

(** X26: when the clone loop returns, the target list has the same entries
    in the same order; an entry that is not a repository is unchanged, and
    a repository entry has gained [cloned_repo_path], the path the clone of
    its [target_repo] produced, with its other details kept. *)
Theorem clone_targets_result w (run_name_ : string) (infos infos' : list TargetInfo) :
  outcome (clone_targets w run_name_ infos) = Ret infos' →
  Forall2 (λ ti ti',
             if String.eqb (type_ ti) "repository" then
               ∃ repo_url cloned_path,
                 details ti !! "target_repo" = Some repo_url
                 ∧ clone_result w repo_url run_name_ (details ti !! "workspace_subdir")
                   = Some cloned_path
                 ∧ ti' = {| type_ := type_ ti;
                            details := <["cloned_repo_path" := cloned_path]> (details ti);
                            original := original ti |}
             else ti' = ti) infos infos'.
Proof.
  revert infos'. induction infos as [|ti infos IH]; intros infos'.
  - intros [= <-]. constructor.
  - rewrite clone_targets_cons, outcome_bind.
    destruct (outcome (clone_step w run_name_ ti)) as [ti'| |] eqn:Hstep; [|done..].
    rewrite outcome_bind.
    destruct (outcome (clone_targets w run_name_ infos)) as [rest'| |]; [|done..].
    intros [= <-]. constructor; [|by apply IH].
    revert Hstep. unfold clone_step.
    destruct (String.eqb (type_ ti) "repository"); [|by intros [= <-]].
    destruct (details ti !! "target_repo") as [repo_url|]; [|done].
    rewrite clone_repository_eval.
    destruct (clone_result w repo_url run_name_ _) as [cloned_path|] eqn:Hclone; [|done].
    intros [= <-]. by exists repo_url, cloned_path.
Qed.

Lemma clone_targets_result_witness :
  let w := sample_world env_configured true None in
  let repository :=
    {| type_ := "repository";
       details := {["target_repo" := "https://git.test/app.git"]};
       original := "https://git.test/app.git" |} in
  let web :=
    {| type_ := "web_application"; details := ∅; original := "https://app.test" |} in
  outcome (clone_targets w "run-1" [repository; web])
  = Ret [{| type_ := "repository";
            details := <["cloned_repo_path" := "https://git.test/app.git"]>
                         {["target_repo" := "https://git.test/app.git"]};
            original := "https://git.test/app.git" |}; web]
  ∧ Forall2 (λ ti ti',
               if String.eqb (type_ ti) "repository" then
                 ∃ repo_url cloned_path,
                   details ti !! "target_repo" = Some repo_url
                   ∧ clone_result w repo_url "run-1" (details ti !! "workspace_subdir")
                     = Some cloned_path
                   ∧ ti' = {| type_ := type_ ti;
                              details := <["cloned_repo_path" := cloned_path]> (details ti);
                              original := original ti |}
               else ti' = ti)
      [repository; web]
      [{| type_ := "repository";
          details := <["cloned_repo_path" := "https://git.test/app.git"]>
                       {["target_repo" := "https://git.test/app.git"]};
          original := "https://git.test/app.git" |}; web].
Proof.
  intros w repository web.
  assert (outcome (clone_targets w "run-1" [repository; web])
          = Ret [{| type_ := "repository";
                    details := <["cloned_repo_path" := "https://git.test/app.git"]>
                                 {["target_repo" := "https://git.test/app.git"]};
                    original := "https://git.test/app.git" |}; web]) as Hout.
  { vm_compute. reflexivity. }
  split; [exact Hout|].
  exact (clone_targets_result w "run-1" [repository; web] _ Hout).
Defined.

(** X27: the clone loop stops at the first entry whose clone goes wrong:
    the entries after it are never cloned, whatever they are, and the run
    ends with exit status 1. *)
Theorem clone_targets_stops_at_first_failure w (run_name_ : string)
    (before after : list TargetInfo) (ti : TargetInfo) :
  clone_fails_for w run_name_ ti = true →
  trace (clone_targets w run_name_ (before ++ ti :: after))
    = trace (clone_targets w run_name_ (before ++ [ti]))
  ∧ (Forall (λ t, clone_fails_for w run_name_ t = false) before →
     outcome (clone_targets w run_name_ (before ++ ti :: after)) = Exit 1%Z).
Proof.
  intros Hfail.
  assert (outcome (clone_step w run_name_ ti) = Exit 1%Z) as Hstep.
  { pose proof (gate_clone_step w run_name_ ti) as [_ Hgate].
    rewrite Hfail in Hgate. apply Hgate. }
  induction before as [|t before [IHtr IHout]].
  - cbn [app]. rewrite !clone_targets_cons, !trace_bind, !outcome_bind, Hstep. done.
  - cbn [app]. rewrite !clone_targets_cons, !trace_bind, !outcome_bind. split.
    + destruct (outcome (clone_step w run_name_ t)); [|done..].
      rewrite !trace_bind, IHtr. f_equal. f_equal.
      pose proof (gate_clone_targets w run_name_ (before ++ ti :: after)) as [_ Ha].
      pose proof (gate_clone_targets w run_name_ (before ++ [ti])) as [_ Hb].
      rewrite existsb_app in Ha, Hb. cbn [existsb] in Ha, Hb.
      rewrite Hfail in Ha, Hb. rewrite orb_true_l, orb_true_r in Ha, Hb.
      cbn [negb] in Ha, Hb. destruct Ha as [-> _], Hb as [-> _]. done.
    + intros Hpre. apply Forall_cons in Hpre as [Ht Hpre].
      pose proof (gate_clone_step w run_name_ t) as [_ Hgate].
      rewrite Ht in Hgate. cbn [negb] in Hgate. destruct Hgate as [t' ->].
      by rewrite outcome_bind, (IHout Hpre).
Qed.

Lemma clone_targets_stops_at_first_failure_witness :
  let w := sample_world env_configured true None in
  let ti := {| type_ := "repository"; details := ∅; original := "repo" |} in
  trace (clone_targets w "run-1" ([] ++ ti :: [ti])) = trace (clone_targets w "run-1" ([] ++ [ti])).
Proof.
  intros w ti.
  apply (proj1 (clone_targets_stops_at_first_failure w "run-1" [] [ti] ti
                  ltac:(reflexivity))).
Defined.

(** X28: when no gate fails, the run is the gates followed by exactly one
    start of the scan engine, the command-line one for a non-interactive
    run and the terminal interface otherwise, and then the completion
    panel, which is the last thing the run prints; the panel reports the
    scan as completed only when the tracer says so. *)
Theorem run_after_gates w args :
  first_failing_gate w args = None →
  trace (run w args) =
    trace (preflight w args)
    ++ [if non_interactive args then EvRunCli else EvRunTui;
        EvConsole (CompletionPanel (scan_completed w) (scan_completed w || has_findings w))]
  ∧ Forall (λ e, e ≠ EvRunCli ∧ e ≠ EvRunTui) (trace (preflight w args)).
Proof.
  intros Hgates. split.
  - pose proof (preflight_runs w args) as Hruns. rewrite Hgates in Hruns.
    destruct Hruns as [r Hr]. unfold run. rewrite trace_bind, Hr. f_equal.
    unfold display_completion_message, console_print, scan_completed, has_findings.
    destruct (non_interactive args); rewrite !bind_emit; cbn [trace fst].
    + f_equal. destruct (tracer w) as [t|]; [|done].
      destruct (vulnerability_reports t); done.
    + f_equal. destruct (tracer w) as [t|]; [|done].
      destruct (vulnerability_reports t); done.
  - destruct (preflight_staged w args) as [_ Hranks].
    eapply Forall_impl; [exact Hranks|]. cbn. intros e He.
    split; intros ->; cbn in He; lia.
Qed.

Lemma run_after_gates_witness :
  Forall (λ e, e ≠ EvRunCli ∧ e ≠ EvRunTui)
    (trace (preflight (sample_world env_configured true None)
              {| target := Some ["https://app.test"]; targets_info := [];
                 instruction := None; run_name := None; non_interactive := true |})).
Proof.
  apply (proj2 (run_after_gates (sample_world env_configured true None)
                  {| target := Some ["https://app.test"]; targets_info := [];
                     instruction := None; run_name := None; non_interactive := true |}
                  ltac:(reflexivity))).
Defined.

End orchestrator_steps.
